(** * A live audio session hook: wire codec, playback scheduler, tool dispatch

    Shallow embedding of [src/hooks/useGeminiLive.ts] (the version with the
    [reportEvaluation] tool) together with the PCM16/base64 wire codec it
    imports from [utils/audio].

    Numbers that the program holds as floats (sample values, clock times)
    are exact rationals [Q] here; equalities on them are stated with [==]. *)

From Stdlib Require Import ZArith QArith Qminmax Qabs List String Ascii Bool Lia Lqa.
Import ListNotations.

Local Open Scope Z_scope.

(* ================================================================== *)
(** * Part I: definitions *)
(* ================================================================== *)

(** ** Types of [types.ts] *)

Inductive ConnectionState : Type :=
| DISCONNECTED
| CONNECTING
| CONNECTED
| ERROR.

Record PcmBlob : Type := mkPcmBlob {
  data : string;
  mimeType : string
}.

(** ** The wire codec ([utils/audio], absent from the sources) *)

Module Base64.

Definition alphabet : list ascii :=
  list_ascii_of_string
    "ABCDEFGHIJKLMNOPQRSTUVWXYZabcdefghijklmnopqrstuvwxyz0123456789+/".

Definition pad : ascii := "="%char.

Definition is_byte (b : Z) : Prop := 0 <= b < 256.

Definition char_of_sextet (n : Z) : ascii :=
  nth (Z.to_nat n) alphabet pad.

Fixpoint index_from (i : Z) (c : ascii) (l : list ascii) : option Z :=
  match l with
  | [] => None
  | d :: l' => if Ascii.eqb c d then Some i else index_from (i + 1) c l'
  end.

Definition sextet_of_char (c : ascii) : option Z :=
  index_from 0 c alphabet.

(** Modelled from the spec: the base64 step of the Outbound Encoder
    ("base64-encodes the byte sequence"); the function [encode] of
    [utils/audio] is missing.  Standard alphabet, [=] padding. *)
Fixpoint encode (bs : list Z) : list ascii :=
  match bs with
  | [] => []
  | [a] =>
      [char_of_sextet (a / 4); char_of_sextet ((a mod 4) * 16); pad; pad]
  | [a; b] =>
      [char_of_sextet (a / 4);
       char_of_sextet ((a mod 4) * 16 + b / 16);
       char_of_sextet ((b mod 16) * 4);
       pad]
  | a :: b :: c :: rest =>
      char_of_sextet (a / 4)
      :: char_of_sextet ((a mod 4) * 16 + b / 16)
      :: char_of_sextet ((b mod 16) * 4 + c / 64)
      :: char_of_sextet (c mod 64)
      :: encode rest
  end.

Definition is_nil {A : Type} (l : list A) : bool :=
  match l with [] => true | _ => false end.

(** Modelled from the spec: the base64 step of the Inbound Decoder
    ("decodes base64 to raw bytes"); the function [decode] of
    [utils/audio] is missing.  [None] stands for the thrown error. *)
Fixpoint decode (cs : list ascii) : option (list Z) :=
  match cs with
  | [] => Some []
  | c1 :: c2 :: c3 :: c4 :: rest =>
      match sextet_of_char c1, sextet_of_char c2 with
      | Some s1, Some s2 =>
          let b1 := s1 * 4 + s2 / 16 in
          match sextet_of_char c3, sextet_of_char c4 with
          | Some s3, Some s4 =>
              match decode rest with
              | Some t =>
                  Some (b1 :: (s2 mod 16) * 16 + s3 / 4
                           :: (s3 mod 4) * 64 + s4 :: t)
              | None => None
              end
          | Some s3, None =>
              if Ascii.eqb c4 pad && is_nil rest
              then Some [b1; (s2 mod 16) * 16 + s3 / 4]
              else None
          | None, _ =>
              if Ascii.eqb c3 pad && Ascii.eqb c4 pad && is_nil rest
              then Some [b1]
              else None
          end
      | _, _ => None
      end
  | _ => None
  end.

End Base64.

Module Pcm16.

Definition scale : Z := 32767.
Definition int16_min : Z := -32768.
Definition int16_max : Z := 32767.

(** Modelled from the spec: the rounding of "quantizes", which the spec
    leaves open ([createBlob] of [utils/audio] is missing).  It is
    truncation toward zero, the conversion a store into a 16-bit integer
    array applies to a number already in range. *)
Definition truncate (x : Q) : Z := Z.quot (Qnum x) (Z.pos (Qden x)).

Definition clampQ (lo hi x : Q) : Q := Qmax lo (Qmin hi x).

(** Modelled from the spec: "Quantizes each float sample to a 16-bit
    signed integer (multiply by 32767, clamp to the signed 16-bit
    range)"; [createBlob] of [utils/audio] is missing.  The spec leaves
    the rounding open; it is truncation here. *)
Definition quantize (x : Q) : Z :=
  truncate (clampQ (inject_Z int16_min) (inject_Z int16_max)
                   (x * inject_Z scale)).

(** Modelled from the spec: "serializes little-endian" ([createBlob] of
    [utils/audio] is missing): low byte first, two's complement. *)
Definition bytes_of_int16 (v : Z) : list Z :=
  let u := v mod 65536 in [u mod 256; u / 256].

(** Modelled from the spec: one sample of "16-bit signed PCM", read back
    from its two bytes ([decodeAudioData] of [utils/audio] is missing). *)
Definition int16_of_bytes (lo hi : Z) : Z :=
  let u := lo + 256 * hi in
  if 32768 <=? u then u - 65536 else u.

(** Modelled from the spec: "interprets them as 16-bit signed PCM" and
    "must reject payloads whose byte length is not a multiple of 2". *)
Fixpoint samples_of_bytes (bs : list Z) : option (list Z) :=
  match bs with
  | [] => Some []
  | lo :: hi :: rest =>
      match samples_of_bytes rest with
      | Some t => Some (int16_of_bytes lo hi :: t)
      | None => None
      end
  | [_] => None
  end.

(** Modelled from the spec: "normalizes to float samples in [-1,1]".
    The spec names no divisor; it is the encoder's scale 32767, which the
    round-trip bound 1/32767 of the testable properties presupposes, and
    the one value that would leave the interval (-32768) is clamped. *)
Definition normalize (v : Z) : Q :=
  clampQ (-1) 1 (Qmake v 32767).

End Pcm16.

(** Modelled from the spec: the Outbound Encoder, AudioFrame -> EncodedBlob
    ([createBlob] of [utils/audio] is missing). *)
Definition createBlob (frame : list Q) : PcmBlob :=
  {| data := string_of_list_ascii
               (Base64.encode
                  (flat_map Pcm16.bytes_of_int16 (map Pcm16.quantize frame)));
     mimeType := "audio/pcm;rate=16000" |}.

(** Modelled from the spec: base64 payload -> raw bytes ([decode] of
    [utils/audio] is missing). *)
Definition decode (base64 : string) : option (list Z) :=
  Base64.decode (list_ascii_of_string base64).

(** Modelled from the spec: raw bytes -> DecodedChunk ([decodeAudioData] of
    [utils/audio] is missing); the result is the channel data of the
    buffer. *)
Definition decodeAudioData (bytes : list Z) : option (list Q) :=
  match Pcm16.samples_of_bytes bytes with
  | Some vs => Some (map Pcm16.normalize vs)
  | None => None
  end.

Definition is_int16 (v : Z) : Prop :=
  Pcm16.int16_min <= v <= Pcm16.int16_max.

(** A valid AudioFrame: every sample in [-1,1]. *)
Definition valid_frame (frame : list Q) : Prop :=
  Forall (fun x => (-1 <= x)%Q /\ (x <= 1)%Q) frame.

Definition within_quantization_error (original reconstructed : Q) : Prop :=
  (Qabs (reconstructed - original) <= 1 # 32767)%Q.

(** Encoder followed by decoder, as a frame travels out and back. *)
Definition roundtrip (frame : list Q) : option (list Q) :=
  match decode (data (createBlob frame)) with
  | Some bytes => decodeAudioData bytes
  | None => None
  end.

(* ------------------------------------------------------------------ *)
(** ** The hook [useGeminiLive] *)

(** *** Messages of the transport *)

Record EvaluationArgs : Type := mkArgs {
  isCorrect : bool;
  topic : option string
}.

Record FunctionCall : Type := mkFunctionCall {
  id : string;
  name : string;
  args : EvaluationArgs
}.

(** [toolCall] is [message.toolCall?.functionCalls], [inlineData] is
    [message.serverContent?.modelTurn?.parts?.[0]?.inlineData?.data] and
    [interrupted] is [message.serverContent?.interrupted]. *)
Record LiveServerMessage : Type := mkMessage {
  toolCall : option (list FunctionCall);
  inlineData : option string;
  interrupted : bool
}.

(** *** What the hook does to its collaborators

    Browser objects (audio contexts, media streams, audio nodes, buffer
    sources) and transport sessions are named by numbers; every call the hook
    makes on one of them is appended to a trace. *)

Inductive Destination : Type :=
| ToNode (node : nat)
| ToContextDestination (ctx : nat).

Inductive Effect : Type :=
| NewAudioContext (ctx : nat) (sampleRate : Z)
| GetUserMedia (stream : nat)
| LiveConnect (session : nat)
| CreateMediaStreamSource (node ctx stream : nat)
| CreateScriptProcessor (node ctx : nat)
| CreateBufferSource (source ctx : nat)
| NodeConnect (node : nat) (dest : Destination)
| SourceStart (source : nat) (when : Q)
| SourceStop (source : nat)
| TrackStop (stream : nat)
| NodeDisconnect (node : nat)
| ContextClose (ctx : nat)
| SessionClose (session : nat)
| SendRealtimeInput (session : nat) (media : PcmBlob)
| SendToolResponse (session : nat) (id name result : string)
| PlayFeedbackSound (isCorrect : bool)
| OnEvaluation (isCorrect : bool) (topic : option string).

(** The three callbacks the hook hangs on the session promise with
    [sessionPromiseRef.current.then(session => ...)]. *)
Inductive Reaction : Type :=
| CloseSession
| SendFrame (media : PcmBlob)
| AcknowledgeTool (id name : string).

(** React state, the [useRef] cells, and the part of the environment the
    hook talks to: a supply of fresh object names, the session promises that
    have settled ([true]: fulfilled), the reactions waiting on pending
    promises, the microtask queue and the trace. *)
Record World : Type := mkWorld {
  connectionState : ConnectionState;
  isMimiSpeaking : bool;
  volume : Q;
  inputAudioContextRef : option nat;
  outputAudioContextRef : option nat;
  scriptProcessorRef : option nat;
  inputSourceRef : option nat;
  mediaStreamRef : option nat;
  nextStartTimeRef : Q;
  sourcesRef : list nat;
  sessionPromiseRef : option nat;
  onEvaluationRef : bool;
  fresh : nat;
  promises : list (nat * bool);
  reactions : list (nat * Reaction);
  microtasks : list (nat * Reaction);
  trace : list Effect
}.

Definition set_connectionState (v : ConnectionState) (w : World) : World :=
  {| connectionState := v; isMimiSpeaking := isMimiSpeaking w;
     volume := volume w; inputAudioContextRef := inputAudioContextRef w;
     outputAudioContextRef := outputAudioContextRef w;
     scriptProcessorRef := scriptProcessorRef w;
     inputSourceRef := inputSourceRef w; mediaStreamRef := mediaStreamRef w;
     nextStartTimeRef := nextStartTimeRef w; sourcesRef := sourcesRef w;
     sessionPromiseRef := sessionPromiseRef w;
     onEvaluationRef := onEvaluationRef w; fresh := fresh w;
     promises := promises w; reactions := reactions w;
     microtasks := microtasks w; trace := trace w |}.

Definition set_isMimiSpeaking (v : bool) (w : World) : World :=
  {| connectionState := connectionState w; isMimiSpeaking := v;
     volume := volume w; inputAudioContextRef := inputAudioContextRef w;
     outputAudioContextRef := outputAudioContextRef w;
     scriptProcessorRef := scriptProcessorRef w;
     inputSourceRef := inputSourceRef w; mediaStreamRef := mediaStreamRef w;
     nextStartTimeRef := nextStartTimeRef w; sourcesRef := sourcesRef w;
     sessionPromiseRef := sessionPromiseRef w;
     onEvaluationRef := onEvaluationRef w; fresh := fresh w;
     promises := promises w; reactions := reactions w;
     microtasks := microtasks w; trace := trace w |}.

Definition set_volume (v : Q) (w : World) : World :=
  {| connectionState := connectionState w;
     isMimiSpeaking := isMimiSpeaking w; volume := v;
     inputAudioContextRef := inputAudioContextRef w;
     outputAudioContextRef := outputAudioContextRef w;
     scriptProcessorRef := scriptProcessorRef w;
     inputSourceRef := inputSourceRef w; mediaStreamRef := mediaStreamRef w;
     nextStartTimeRef := nextStartTimeRef w; sourcesRef := sourcesRef w;
     sessionPromiseRef := sessionPromiseRef w;
     onEvaluationRef := onEvaluationRef w; fresh := fresh w;
     promises := promises w; reactions := reactions w;
     microtasks := microtasks w; trace := trace w |}.

Definition set_inputAudioContextRef (v : option nat) (w : World) : World :=
  {| connectionState := connectionState w;
     isMimiSpeaking := isMimiSpeaking w; volume := volume w;
     inputAudioContextRef := v;
     outputAudioContextRef := outputAudioContextRef w;
     scriptProcessorRef := scriptProcessorRef w;
     inputSourceRef := inputSourceRef w; mediaStreamRef := mediaStreamRef w;
     nextStartTimeRef := nextStartTimeRef w; sourcesRef := sourcesRef w;
     sessionPromiseRef := sessionPromiseRef w;
     onEvaluationRef := onEvaluationRef w; fresh := fresh w;
     promises := promises w; reactions := reactions w;
     microtasks := microtasks w; trace := trace w |}.

Definition set_outputAudioContextRef (v : option nat) (w : World) : World :=
  {| connectionState := connectionState w;
     isMimiSpeaking := isMimiSpeaking w; volume := volume w;
     inputAudioContextRef := inputAudioContextRef w;
     outputAudioContextRef := v; scriptProcessorRef := scriptProcessorRef w;
     inputSourceRef := inputSourceRef w; mediaStreamRef := mediaStreamRef w;
     nextStartTimeRef := nextStartTimeRef w; sourcesRef := sourcesRef w;
     sessionPromiseRef := sessionPromiseRef w;
     onEvaluationRef := onEvaluationRef w; fresh := fresh w;
     promises := promises w; reactions := reactions w;
     microtasks := microtasks w; trace := trace w |}.

Definition set_scriptProcessorRef (v : option nat) (w : World) : World :=
  {| connectionState := connectionState w;
     isMimiSpeaking := isMimiSpeaking w; volume := volume w;
     inputAudioContextRef := inputAudioContextRef w;
     outputAudioContextRef := outputAudioContextRef w;
     scriptProcessorRef := v; inputSourceRef := inputSourceRef w;
     mediaStreamRef := mediaStreamRef w;
     nextStartTimeRef := nextStartTimeRef w; sourcesRef := sourcesRef w;
     sessionPromiseRef := sessionPromiseRef w;
     onEvaluationRef := onEvaluationRef w; fresh := fresh w;
     promises := promises w; reactions := reactions w;
     microtasks := microtasks w; trace := trace w |}.

Definition set_inputSourceRef (v : option nat) (w : World) : World :=
  {| connectionState := connectionState w;
     isMimiSpeaking := isMimiSpeaking w; volume := volume w;
     inputAudioContextRef := inputAudioContextRef w;
     outputAudioContextRef := outputAudioContextRef w;
     scriptProcessorRef := scriptProcessorRef w; inputSourceRef := v;
     mediaStreamRef := mediaStreamRef w;
     nextStartTimeRef := nextStartTimeRef w; sourcesRef := sourcesRef w;
     sessionPromiseRef := sessionPromiseRef w;
     onEvaluationRef := onEvaluationRef w; fresh := fresh w;
     promises := promises w; reactions := reactions w;
     microtasks := microtasks w; trace := trace w |}.

Definition set_mediaStreamRef (v : option nat) (w : World) : World :=
  {| connectionState := connectionState w;
     isMimiSpeaking := isMimiSpeaking w; volume := volume w;
     inputAudioContextRef := inputAudioContextRef w;
     outputAudioContextRef := outputAudioContextRef w;
     scriptProcessorRef := scriptProcessorRef w;
     inputSourceRef := inputSourceRef w; mediaStreamRef := v;
     nextStartTimeRef := nextStartTimeRef w; sourcesRef := sourcesRef w;
     sessionPromiseRef := sessionPromiseRef w;
     onEvaluationRef := onEvaluationRef w; fresh := fresh w;
     promises := promises w; reactions := reactions w;
     microtasks := microtasks w; trace := trace w |}.

Definition set_nextStartTimeRef (v : Q) (w : World) : World :=
  {| connectionState := connectionState w;
     isMimiSpeaking := isMimiSpeaking w; volume := volume w;
     inputAudioContextRef := inputAudioContextRef w;
     outputAudioContextRef := outputAudioContextRef w;
     scriptProcessorRef := scriptProcessorRef w;
     inputSourceRef := inputSourceRef w; mediaStreamRef := mediaStreamRef w;
     nextStartTimeRef := v; sourcesRef := sourcesRef w;
     sessionPromiseRef := sessionPromiseRef w;
     onEvaluationRef := onEvaluationRef w; fresh := fresh w;
     promises := promises w; reactions := reactions w;
     microtasks := microtasks w; trace := trace w |}.

Definition set_sourcesRef (v : list nat) (w : World) : World :=
  {| connectionState := connectionState w;
     isMimiSpeaking := isMimiSpeaking w; volume := volume w;
     inputAudioContextRef := inputAudioContextRef w;
     outputAudioContextRef := outputAudioContextRef w;
     scriptProcessorRef := scriptProcessorRef w;
     inputSourceRef := inputSourceRef w; mediaStreamRef := mediaStreamRef w;
     nextStartTimeRef := nextStartTimeRef w; sourcesRef := v;
     sessionPromiseRef := sessionPromiseRef w;
     onEvaluationRef := onEvaluationRef w; fresh := fresh w;
     promises := promises w; reactions := reactions w;
     microtasks := microtasks w; trace := trace w |}.

Definition set_sessionPromiseRef (v : option nat) (w : World) : World :=
  {| connectionState := connectionState w;
     isMimiSpeaking := isMimiSpeaking w; volume := volume w;
     inputAudioContextRef := inputAudioContextRef w;
     outputAudioContextRef := outputAudioContextRef w;
     scriptProcessorRef := scriptProcessorRef w;
     inputSourceRef := inputSourceRef w; mediaStreamRef := mediaStreamRef w;
     nextStartTimeRef := nextStartTimeRef w; sourcesRef := sourcesRef w;
     sessionPromiseRef := v; onEvaluationRef := onEvaluationRef w;
     fresh := fresh w; promises := promises w; reactions := reactions w;
     microtasks := microtasks w; trace := trace w |}.

Definition set_onEvaluationRef (v : bool) (w : World) : World :=
  {| connectionState := connectionState w;
     isMimiSpeaking := isMimiSpeaking w; volume := volume w;
     inputAudioContextRef := inputAudioContextRef w;
     outputAudioContextRef := outputAudioContextRef w;
     scriptProcessorRef := scriptProcessorRef w;
     inputSourceRef := inputSourceRef w; mediaStreamRef := mediaStreamRef w;
     nextStartTimeRef := nextStartTimeRef w; sourcesRef := sourcesRef w;
     sessionPromiseRef := sessionPromiseRef w; onEvaluationRef := v;
     fresh := fresh w; promises := promises w; reactions := reactions w;
     microtasks := microtasks w; trace := trace w |}.

Definition set_fresh (v : nat) (w : World) : World :=
  {| connectionState := connectionState w;
     isMimiSpeaking := isMimiSpeaking w; volume := volume w;
     inputAudioContextRef := inputAudioContextRef w;
     outputAudioContextRef := outputAudioContextRef w;
     scriptProcessorRef := scriptProcessorRef w;
     inputSourceRef := inputSourceRef w; mediaStreamRef := mediaStreamRef w;
     nextStartTimeRef := nextStartTimeRef w; sourcesRef := sourcesRef w;
     sessionPromiseRef := sessionPromiseRef w;
     onEvaluationRef := onEvaluationRef w; fresh := v;
     promises := promises w; reactions := reactions w;
     microtasks := microtasks w; trace := trace w |}.

Definition set_promises (v : list (nat * bool)) (w : World) : World :=
  {| connectionState := connectionState w;
     isMimiSpeaking := isMimiSpeaking w; volume := volume w;
     inputAudioContextRef := inputAudioContextRef w;
     outputAudioContextRef := outputAudioContextRef w;
     scriptProcessorRef := scriptProcessorRef w;
     inputSourceRef := inputSourceRef w; mediaStreamRef := mediaStreamRef w;
     nextStartTimeRef := nextStartTimeRef w; sourcesRef := sourcesRef w;
     sessionPromiseRef := sessionPromiseRef w;
     onEvaluationRef := onEvaluationRef w; fresh := fresh w; promises := v;
     reactions := reactions w; microtasks := microtasks w;
     trace := trace w |}.

Definition set_reactions (v : list (nat * Reaction)) (w : World) : World :=
  {| connectionState := connectionState w;
     isMimiSpeaking := isMimiSpeaking w; volume := volume w;
     inputAudioContextRef := inputAudioContextRef w;
     outputAudioContextRef := outputAudioContextRef w;
     scriptProcessorRef := scriptProcessorRef w;
     inputSourceRef := inputSourceRef w; mediaStreamRef := mediaStreamRef w;
     nextStartTimeRef := nextStartTimeRef w; sourcesRef := sourcesRef w;
     sessionPromiseRef := sessionPromiseRef w;
     onEvaluationRef := onEvaluationRef w; fresh := fresh w;
     promises := promises w; reactions := v; microtasks := microtasks w;
     trace := trace w |}.

Definition set_microtasks (v : list (nat * Reaction)) (w : World) : World :=
  {| connectionState := connectionState w;
     isMimiSpeaking := isMimiSpeaking w; volume := volume w;
     inputAudioContextRef := inputAudioContextRef w;
     outputAudioContextRef := outputAudioContextRef w;
     scriptProcessorRef := scriptProcessorRef w;
     inputSourceRef := inputSourceRef w; mediaStreamRef := mediaStreamRef w;
     nextStartTimeRef := nextStartTimeRef w; sourcesRef := sourcesRef w;
     sessionPromiseRef := sessionPromiseRef w;
     onEvaluationRef := onEvaluationRef w; fresh := fresh w;
     promises := promises w; reactions := reactions w; microtasks := v;
     trace := trace w |}.

Definition set_trace (v : list Effect) (w : World) : World :=
  {| connectionState := connectionState w;
     isMimiSpeaking := isMimiSpeaking w; volume := volume w;
     inputAudioContextRef := inputAudioContextRef w;
     outputAudioContextRef := outputAudioContextRef w;
     scriptProcessorRef := scriptProcessorRef w;
     inputSourceRef := inputSourceRef w; mediaStreamRef := mediaStreamRef w;
     nextStartTimeRef := nextStartTimeRef w; sourcesRef := sourcesRef w;
     sessionPromiseRef := sessionPromiseRef w;
     onEvaluationRef := onEvaluationRef w; fresh := fresh w;
     promises := promises w; reactions := reactions w;
     microtasks := microtasks w; trace := v |}.
(** *** A state-and-exception monad for the handlers

    A handler reads and writes the world and may throw; what it wrote before
    throwing stays written. *)

Inductive Outcome (A : Type) : Type :=
| Returned (value : A)
| Thrown (error : string).

Arguments Returned {A} value.
Arguments Thrown {A} error.

Definition M (A : Type) : Type := World -> Outcome A * World.

Definition ret {A : Type} (a : A) : M A := fun w => (Returned a, w).

Definition bind {A B : Type} (m : M A) (k : A -> M B) : M B :=
  fun w =>
    match m w with
    | (Returned a, w') => k a w'
    | (Thrown e, w') => (Thrown e, w')
    end.

Definition throw {A : Type} (e : string) : M A := fun w => (Thrown e, w).

Definition try_catch {A : Type} (body : M A) (handler : string -> M A) : M A :=
  fun w =>
    match body w with
    | (Returned a, w') => (Returned a, w')
    | (Thrown e, w') => handler e w'
    end.

Definition read {A : Type} (f : World -> A) : M A :=
  fun w => (Returned (f w), w).

Definition write (f : World -> World) : M unit :=
  fun w => (Returned tt, f w).

Declare Scope hook_scope.
Delimit Scope hook_scope with hook.
Notation "x <- m ;; k" := (bind m (fun x => k))
  (at level 100, m at next level, right associativity) : hook_scope.
Notation "m ;; k" := (bind m (fun _ => k))
  (at level 100, right associativity) : hook_scope.
Local Open Scope hook_scope.

Definition emit (e : Effect) : M unit :=
  write (fun w => set_trace (trace w ++ [e]) w).

Definition new_object : M nat :=
  fun w => (Returned (fresh w), set_fresh (S (fresh w)) w).

(** [if (ref.current) { body(ref.current) }] *)
Definition when_ref {A : Type} (ref : World -> option A) (body : A -> M unit)
  : M unit :=
  r <- read ref;;
  match r with
  | Some x => body x
  | None => ret tt
  end.

Fixpoint forEach {A : Type} (l : list A) (f : A -> M unit) : M unit :=
  match l with
  | [] => ret tt
  | x :: l' => f x;; forEach l' f
  end.

(** *** Browser and transport operations *)

Definition started (source : nat) (tr : list Effect) : bool :=
  existsb (fun e => match e with
                    | SourceStart s _ => Nat.eqb s source
                    | _ => false
                    end) tr.

(** [source.stop()] throws [InvalidStateError] on a source that was never
    started. *)
Definition source_stop (source : nat) : M unit :=
  tr <- read trace;;
  if started source tr then emit (SourceStop source)
  else throw "InvalidStateError".

Definition newAudioContext (sampleRate : Z) : M nat :=
  ctx <- new_object;;
  emit (NewAudioContext ctx sampleRate);;
  ret ctx.

Fixpoint settled (p : nat) (l : list (nat * bool)) : option bool :=
  match l with
  | [] => None
  | (q, ok) :: l' => if Nat.eqb q p then Some ok else settled p l'
  end.

(** [promise.then(reaction)]: on a fulfilled promise the reaction becomes a
    microtask, on a pending one it waits, on a rejected one it never runs. *)
Definition promise_then (p : nat) (r : Reaction) : M unit :=
  write (fun w =>
           match settled p (promises w) with
           | Some true => set_microtasks (microtasks w ++ [(p, r)]) w
           | Some false => w
           | None => set_reactions (reactions w ++ [(p, r)]) w
           end).

(** What one reaction does on the session its promise resolved to.  The
    [try] of the closing reaction swallows what [session.close()] may
    throw. *)
Definition reaction_effect (job : nat * Reaction) : Effect :=
  let (session, r) := job in
  match r with
  | CloseSession => SessionClose session
  | SendFrame media => SendRealtimeInput session media
  | AcknowledgeTool id name => SendToolResponse session id name "ok"
  end.

Definition run_reaction (job : nat * Reaction) (w : World) : World :=
  set_trace (trace w ++ [reaction_effect job]) w.

(** Run the microtask queue to the end, oldest first. *)
Definition drain (w : World) : World :=
  fold_left (fun w' job => run_reaction job w') (microtasks w)
            (set_microtasks [] w).

(** One turn of the event loop: the handler, then the microtasks. *)
Definition task {A : Type} (handler : M A) (w : World) : Outcome A * World :=
  let (r, w') := handler w in (r, drain w').

Definition waits_on (p : nat) (job : nat * Reaction) : bool :=
  Nat.eqb (fst job) p.

(** The session promise [p] settles ([ok]: the transport handed over a
    session).  Reactions waiting on it run if it is fulfilled and are dropped
    if it is rejected. *)
Definition settle (p : nat) (ok : bool) (w : World) : World :=
  match settled p (promises w) with
  | Some _ => w
  | None =>
      let mine := filter (waits_on p) (reactions w) in
      let others := filter (fun job => negb (waits_on p job)) (reactions w) in
      let w1 := set_reactions others (set_promises ((p, ok) :: promises w) w) in
      if ok then drain (set_microtasks (microtasks w1 ++ mine) w1) else w1
  end.

(** *** React state setters *)

Definition setConnectionState (v : ConnectionState) : M unit :=
  write (set_connectionState v).
Definition setIsMimiSpeaking (v : bool) : M unit :=
  write (set_isMimiSpeaking v).
Definition setVolume (v : Q) : M unit :=
  write (set_volume v).

(** *** [disconnect] (lines 106-150) *)

Definition disconnect : M unit :=
  when_ref sessionPromiseRef (fun p =>
    promise_then p CloseSession;;
    write (set_sessionPromiseRef None));;
  (* Stop Microphone Stream *)
  when_ref mediaStreamRef (fun stream =>
    emit (TrackStop stream);;
    write (set_mediaStreamRef None));;
  (* Disconnect Input Audio Nodes *)
  when_ref inputSourceRef (fun node =>
    emit (NodeDisconnect node);;
    write (set_inputSourceRef None));;
  when_ref scriptProcessorRef (fun node =>
    emit (NodeDisconnect node);;
    write (set_scriptProcessorRef None));;
  when_ref inputAudioContextRef (fun ctx =>
    emit (ContextClose ctx);;
    write (set_inputAudioContextRef None));;
  (* Stop Output Audio *)
  sources <- read sourcesRef;;
  forEach sources source_stop;;
  write (set_sourcesRef []);;
  when_ref outputAudioContextRef (fun ctx =>
    emit (ContextClose ctx);;
    write (set_outputAudioContextRef None));;
  setConnectionState DISCONNECTED;;
  setIsMimiSpeaking false;;
  setVolume 0%Q.

(** *** [connect] (lines 152-313)

    The function suspends once, at [await getUserMedia]; the two halves are
    separate turns of the event loop.  What the callbacks of the session
    capture is a [Closure]; [session] names the transport that calls them. *)

Record Closure : Type := mkClosure {
  inputCtx : nat;
  outputCtx : nat;
  stream : nat;
  session : nat
}.

(** The [catch] block. *)
Definition connect_catch : M unit :=
  setConnectionState ERROR;;
  disconnect.

Definition connect_before_await (now : Q) : M (option (nat * nat)) :=
  try_catch
    (setConnectionState CONNECTING;;
     inputCtx <- newAudioContext 16000;;
     write (set_inputAudioContextRef (Some inputCtx));;
     outputCtx <- newAudioContext 24000;;
     write (set_outputAudioContextRef (Some outputCtx));;
     write (set_nextStartTimeRef now);;
     ret (Some (inputCtx, outputCtx)))
    (fun _ => connect_catch;; ret None).

(** [granted]: whether [getUserMedia] resolved with a stream or rejected. *)
Definition getUserMedia (granted : bool) : M nat :=
  if granted
  then stream <- new_object;; emit (GetUserMedia stream);; ret stream
  else throw "NotAllowedError".

Definition connect_after_await (inputCtx outputCtx : nat) (granted : bool)
  : M (option Closure) :=
  try_catch
    (stream <- getUserMedia granted;;
     write (set_mediaStreamRef (Some stream));;
     sessionPromise <- new_object;;
     emit (LiveConnect sessionPromise);;
     write (set_sessionPromiseRef (Some sessionPromise));;
     ret (Some (mkClosure inputCtx outputCtx stream sessionPromise)))
    (fun _ => connect_catch;; ret None).

(** [connect()] with the microphone answering before anything else
    happens. *)
Definition connect (now : Q) (granted : bool) (w : World)
  : Outcome (option Closure) * World :=
  match task (connect_before_await now) w with
  | (Returned (Some (inputCtx, outputCtx)), w1) =>
      task (connect_after_await inputCtx outputCtx granted) w1
  | (Returned None, w1) => (Returned None, w1)
  | (Thrown e, w1) => (Thrown e, w1)
  end.

(** *** The callbacks of the session *)

Definition onopen (cl : Closure) : M unit :=
  setConnectionState CONNECTED;;
  source <- new_object;;
  emit (CreateMediaStreamSource source (inputCtx cl) (stream cl));;
  write (set_inputSourceRef (Some source));;
  processor <- new_object;;
  emit (CreateScriptProcessor processor (inputCtx cl));;
  write (set_scriptProcessorRef (Some processor));;
  emit (NodeConnect source (ToNode processor));;
  emit (NodeConnect processor (ToContextDestination (inputCtx cl))).

(** [sqrt] is [Math.sqrt]. *)
Definition onaudioprocess (sqrt : Q -> Q) (inputData : list Q) : M unit :=
  let sum := fold_left (fun sum x => (sum + x * x)%Q) inputData 0%Q in
  let rms := sqrt (sum / inject_Z (Z.of_nat (List.length inputData)))%Q in
  setVolume (Qmin (rms * 5) 1);;
  let pcmBlob := createBlob inputData in
  when_ref sessionPromiseRef (fun p => promise_then p (SendFrame pcmBlob)).

Definition reportEvaluation (fc : FunctionCall) : M unit :=
  let isCorrect := isCorrect (args fc) in
  let topic := topic (args fc) in
  emit (PlayFeedbackSound isCorrect);;
  registered <- read onEvaluationRef;;
  (if registered then emit (OnEvaluation isCorrect topic) else ret tt);;
  when_ref sessionPromiseRef (fun p =>
    promise_then p (AcknowledgeTool (id fc) (name fc))).

Definition is_evaluation (fc : FunctionCall) : bool :=
  String.eqb (name fc) "reportEvaluation".

Definition handleToolCalls (message : LiveServerMessage) : M unit :=
  match toolCall message with
  | Some functionCalls =>
      forEach functionCalls (fun fc =>
        if is_evaluation fc then reportEvaluation fc else ret tt)
  | None => ret tt
  end.

(** The payload, when it is there and not the empty string. *)
Definition base64Audio (message : LiveServerMessage) : option string :=
  match inlineData message with
  | Some EmptyString => None
  | Some s => Some s
  | None => None
  end.

Definition handleInterruption (now : Q) (message : LiveServerMessage)
  : M unit :=
  if interrupted message then
    sources <- read sourcesRef;;
    forEach sources source_stop;;
    write (set_sourcesRef []);;
    write (set_nextStartTimeRef now);;
    setIsMimiSpeaking false
  else ret tt.

(** [audioBuffer.duration]: the buffer is asked for at 24000 Hz, one
    channel. *)
Definition duration (audioBuffer : list Q) : Q :=
  Z.of_nat (List.length audioBuffer) # 24000.

(** [Set.prototype.add] and [delete] on a set kept in insertion order. *)
Definition set_add (l : list nat) (x : nat) : list nat :=
  if existsb (Nat.eqb x) l then l else l ++ [x].
Definition set_delete (l : list nat) (x : nat) : list nat :=
  filter (fun y => negb (Nat.eqb x y)) l.

(** [onmessage] suspends at [await decodeAudioData] when the message
    carries audio; [now] is [outputCtx.currentTime] during the turn.  The
    result tells whether the handler is suspended.  [outputCtx] is the
    context object of the closure, so the early return on [!outputCtx] is
    never taken. *)
Definition onmessage_before_await (now : Q) (message : LiveServerMessage)
  : M (option string) :=
  handleToolCalls message;;
  match base64Audio message with
  | Some b64 =>
      setIsMimiSpeaking true;;
      next <- read nextStartTimeRef;;
      write (set_nextStartTimeRef (Qmax next now));;
      ret (Some b64)
  | None =>
      handleInterruption now message;;
      ret None
  end.

(** [audioBuffer]: what [decodeAudioData(decode(base64Audio), ...)] came
    to; when it threw, the handler ends there, before the interruption
    block. *)
Definition onmessage_after_await (cl : Closure) (now : Q)
    (message : LiveServerMessage) (audioBuffer : Outcome (list Q)) : M unit :=
  match audioBuffer with
  | Thrown e => throw e
  | Returned audioBuffer =>
      source <- new_object;;
      emit (CreateBufferSource source (outputCtx cl));;
      emit (NodeConnect source (ToContextDestination (outputCtx cl)));;
      next <- read nextStartTimeRef;;
      emit (SourceStart source next);;
      write (set_nextStartTimeRef (next + duration audioBuffer)%Q);;
      sources <- read sourcesRef;;
      write (set_sourcesRef (set_add sources source));;
      handleInterruption now message
  end.

(** The listener of a source's [ended] event. *)
Definition onended (source : nat) : M unit :=
  sources <- read sourcesRef;;
  write (set_sourcesRef (set_delete sources source));;
  sources' <- read sourcesRef;;
  if Nat.eqb (List.length sources') 0 then setIsMimiSpeaking false else ret tt.

(** A whole message with nothing else happening while it is decoded:
    [arrival] and [resumption] are the playback clock at the two turns. *)
Definition onmessage (cl : Closure) (arrival resumption : Q)
    (message : LiveServerMessage) (audioBuffer : Outcome (list Q))
    (w : World) : World :=
  match task (onmessage_before_await arrival message) w with
  | (Returned (Some _), w1) =>
      snd (task (onmessage_after_await cl resumption message audioBuffer) w1)
  | (_, w1) => w1
  end.

Definition onclose : M unit := disconnect.

Definition onerror : M unit :=
  disconnect;;
  setConnectionState ERROR.

(** The hook as first rendered; [onEvaluation] tells whether the caller
    passed a callback. *)
Definition init (onEvaluation : bool) : World :=
  {| connectionState := DISCONNECTED; isMimiSpeaking := false; volume := 0%Q;
     inputAudioContextRef := None; outputAudioContextRef := None;
     scriptProcessorRef := None; inputSourceRef := None;
     mediaStreamRef := None; nextStartTimeRef := 0%Q; sourcesRef := [];
     sessionPromiseRef := None; onEvaluationRef := onEvaluation;
     fresh := 0%nat; promises := []; reactions := []; microtasks := [];
     trace := [] |}.

(** The world after a handler's turn. *)
Definition after {A : Type} (handler : M A) (w : World) : World :=
  snd (task handler w).

(** *** The event loop

    Everything that can happen to the hook, one turn each.  The continuation
    events carry what the suspended function had captured. *)

Inductive Event : Type :=
| CallConnect (now : Q)
| MicrophoneAnswers (inputCtx outputCtx : nat) (granted : bool)
| CallDisconnect
| SessionSettles (p : nat) (ok : bool)
| Open (cl : Closure)
| AudioProcess (sqrt : Q -> Q) (inputData : list Q)
| Message (now : Q) (message : LiveServerMessage)
| Decoded (cl : Closure) (now : Q) (message : LiveServerMessage)
          (audioBuffer : Outcome (list Q))
| Ended (source : nat)
| Close
| Error
| Render (onEvaluation : bool).

Definition step (w : World) (e : Event) : World :=
  match e with
  | CallConnect now => after (connect_before_await now) w
  | MicrophoneAnswers inputCtx outputCtx granted =>
      after (connect_after_await inputCtx outputCtx granted) w
  | CallDisconnect => after disconnect w
  | SessionSettles p ok => settle p ok w
  | Open cl => after (onopen cl) w
  | AudioProcess sqrt inputData => after (onaudioprocess sqrt inputData) w
  | Message now message => after (onmessage_before_await now message) w
  | Decoded cl now message audioBuffer =>
      after (onmessage_after_await cl now message audioBuffer) w
  | Ended source => after (onended source) w
  | Close => after onclose w
  | Error => after onerror w
  | Render onEvaluation => set_onEvaluationRef onEvaluation w
  end.

Definition run (events : list Event) (w : World) : World :=
  fold_left step events w.

(** The states the hook can be in. *)
Definition reachable (w : World) : Prop :=
  exists onEvaluation events, w = run events (init onEvaluation).

(** *** Vocabulary of the properties *)

(** What a turn added to the trace. *)
Definition emitted (before after_ : World) : list Effect :=
  skipn (List.length (trace before)) (trace after_).

(** Every source in the active set has been started (so that [stop()]
    does not throw on it). *)
Definition sources_started (w : World) : Prop :=
  Forall (fun source => started source (trace w) = true) (sourcesRef w).

Definition effects_of {A : Type} (ref : option A) (f : A -> Effect)
  : list Effect :=
  match ref with
  | Some x => [f x]
  | None => []
  end.

(** The calls [disconnect] makes on the local resources, in its order. *)
Definition teardown_effects (w : World) : list Effect :=
  effects_of (mediaStreamRef w) TrackStop
  ++ effects_of (inputSourceRef w) NodeDisconnect
  ++ effects_of (scriptProcessorRef w) NodeDisconnect
  ++ effects_of (inputAudioContextRef w) ContextClose
  ++ map SourceStop (sourcesRef w)
  ++ effects_of (outputAudioContextRef w) ContextClose.

(** The close of session [p] has been asked for: it was called, or it
    waits for the session promise, or the promise was rejected and there is
    no session to close. *)
Definition close_requested (p : nat) (w : World) : Prop :=
  In (SessionClose p) (trace w)
  \/ In (p, CloseSession) (reactions w)
  \/ settled p (promises w) = Some false.

(** The session that [before] holds in its refs is fully torn down in
    [after_]: microphone stream stopped, audio nodes disconnected, active
    playback handles stopped, transport close requested. *)
Definition torn_down (before after_ : World) : Prop :=
  (forall s, mediaStreamRef before = Some s -> In (TrackStop s) (trace after_))
  /\ (forall n, inputSourceRef before = Some n ->
                In (NodeDisconnect n) (trace after_))
  /\ (forall n, scriptProcessorRef before = Some n ->
                In (NodeDisconnect n) (trace after_))
  /\ (forall s, In s (sourcesRef before) -> In (SourceStop s) (trace after_))
  /\ (forall p, sessionPromiseRef before = Some p -> close_requested p after_).

Definition opened_sessions (tr : list Effect) : list nat :=
  flat_map (fun e => match e with LiveConnect s => [s] | _ => [] end) tr.

Definition close_called (s : nat) (tr : list Effect) : bool :=
  existsb (fun e => match e with
                    | SessionClose s' => Nat.eqb s s'
                    | _ => false
                    end) tr.

(** Sessions that were opened and whose close was not called. *)
Definition active_sessions (w : World) : list nat :=
  filter (fun s => negb (close_called s (trace w)))
         (opened_sessions (trace w)).

(** The session [p] in the ref is live: its promise is fulfilled. *)
Definition live_session (p : nat) (w : World) : Prop :=
  sessionPromiseRef w = Some p /\ settled p (promises w) = Some true.

Definition tool_responses (tr : list Effect) : list Effect :=
  filter (fun e => match e with
                   | SendToolResponse _ _ _ _ => true
                   | _ => false
                   end) tr.

Definition responses_to (call : string) (tr : list Effect) : list Effect :=
  filter (fun e => match e with
                   | SendToolResponse _ i _ _ => String.eqb i call
                   | _ => false
                   end) tr.

(** (a) and (b) of the Evaluation Dispatcher, for one call. *)
Definition dispatch_effects (registered : bool) (fc : FunctionCall)
  : list Effect :=
  PlayFeedbackSound (isCorrect (args fc))
  :: (if registered
      then [OnEvaluation (isCorrect (args fc)) (topic (args fc))]
      else []).

(** (c): the acknowledgement of one call on session [p]. *)
Definition acknowledgement (p : nat) (fc : FunctionCall) : Effect :=
  SendToolResponse p (id fc) (name fc) "ok".

Definition evaluations (message : LiveServerMessage) : list FunctionCall :=
  match toolCall message with
  | Some functionCalls => filter is_evaluation functionCalls
  | None => []
  end.

(** The start times of the chunks scheduled in a trace, in order. *)
Definition scheduled_starts (tr : list Effect) : list Q :=
  flat_map (fun e => match e with SourceStart _ t => [t] | _ => [] end) tr.

Definition stopped_sources (tr : list Effect) : list nat :=
  flat_map (fun e => match e with SourceStop s => [s] | _ => [] end) tr.

(** The owning session of a callback is the current one. *)
Definition is_current (cl : Closure) (w : World) : Prop :=
  sessionPromiseRef w = Some (session cl).

(** The world [disconnect] leaves behind when no [stop()] throws. *)
Definition close_request (w : World) : World :=
  match sessionPromiseRef w with
  | Some p => snd (promise_then p CloseSession w)
  | None => w
  end.

Definition disconnected (w : World) : World :=
  {| connectionState := DISCONNECTED; isMimiSpeaking := false; volume := 0%Q;
     inputAudioContextRef := None; outputAudioContextRef := None;
     scriptProcessorRef := None; inputSourceRef := None;
     mediaStreamRef := None; nextStartTimeRef := nextStartTimeRef w;
     sourcesRef := []; sessionPromiseRef := None;
     onEvaluationRef := onEvaluationRef w; fresh := fresh w;
     promises := promises w; reactions := reactions (close_request w);
     microtasks := microtasks (close_request w);
     trace := trace w ++ teardown_effects w |}.

(** *** Invariants of the event loop *)

(** From [w] to [w'] the trace was only extended, and every source that
    joined the active set has been started. *)
Definition grows (w w' : World) : Prop :=
  (exists tr, trace w' = trace w ++ tr)
  /\ (forall s, In s (sourcesRef w') ->
                In s (sourcesRef w) \/ started s (trace w') = true).

Definition growing {A : Type} (m : M A) : Prop :=
  forall w, grows w (snd (m w)).

(** *** The worlds the handlers leave behind *)

Definition acknowledgement_job (p : nat) (fc : FunctionCall)
  : nat * Reaction :=
  (p, AcknowledgeTool (id fc) (name fc)).

(** Where the acknowledgements of a message go: to the microtask queue when
    the session promise in the ref is fulfilled, to the waiting reactions
    when it is pending, nowhere when it is rejected or the ref is empty. *)
Definition queued_acknowledgements (message : LiveServerMessage) (w : World)
  : list (nat * Reaction) :=
  match sessionPromiseRef w with
  | Some p =>
      match settled p (promises w) with
      | Some true => map (acknowledgement_job p) (evaluations message)
      | _ => []
      end
  | None => []
  end.

Definition waiting_acknowledgements (message : LiveServerMessage) (w : World)
  : list (nat * Reaction) :=
  match sessionPromiseRef w with
  | Some p =>
      match settled p (promises w) with
      | None => map (acknowledgement_job p) (evaluations message)
      | _ => []
      end
  | None => []
  end.

Definition tool_calls_handled (message : LiveServerMessage) (w : World)
  : World :=
  set_trace
    (trace w
     ++ flat_map (dispatch_effects (onEvaluationRef w)) (evaluations message))
    (set_microtasks (microtasks w ++ queued_acknowledgements message w)
       (set_reactions (reactions w ++ waiting_acknowledgements message w) w)).

Definition interruption_handled (now : Q) (w : World) : World :=
  set_isMimiSpeaking false
    (set_nextStartTimeRef now
       (set_sourcesRef []
          (set_trace (trace w ++ map SourceStop (sourcesRef w)) w))).

(** The chunk is scheduled: the three calls on the new source, the cursor
    advanced, the handle in the active set. *)
Definition chunk_scheduled (cl : Closure) (audioBuffer : list Q) (w : World)
  : World :=
  set_sourcesRef (set_add (sourcesRef w) (fresh w))
    (set_nextStartTimeRef (nextStartTimeRef w + duration audioBuffer)%Q
       (set_trace
          (trace w
           ++ [CreateBufferSource (fresh w) (outputCtx cl);
               NodeConnect (fresh w) (ToContextDestination (outputCtx cl));
               SourceStart (fresh w) (nextStartTimeRef w)])
          (set_fresh (S (fresh w)) w))).

(** The effects of the Evaluation Dispatcher among all effects. *)
Definition is_dispatcher_effect (e : Effect) : bool :=
  match e with
  | PlayFeedbackSound _ | OnEvaluation _ _ | SendToolResponse _ _ _ _ => true
  | _ => false
  end.

Definition dispatcher_effects (tr : list Effect) : list Effect :=
  filter is_dispatcher_effect tr.

(** *** Scenarios *)

(** A session brought up on a fresh hook with a callback: [connect()], the
    microphone granted (contexts 0 and 1, stream 2, session 3), the
    transport opened, the session promise fulfilled. *)
Definition first_session : Closure := mkClosure 0 1 2 3.

Definition connected_hook : World :=
  run [CallConnect 0; MicrophoneAnswers 0 1 true; Open first_session;
       SessionSettles 3 true]
      (init true).

Definition evaluation_message : LiveServerMessage :=
  mkMessage
    (Some [mkFunctionCall "call-1" "reportEvaluation"
             (mkArgs true (Some "Colors"%string))])
    None false.

Definition other_tool_message : LiveServerMessage :=
  mkMessage (Some [mkFunctionCall "call-1" "getWeather" (mkArgs true None)])
            None false.

Definition audio_message : LiveServerMessage :=
  mkMessage None (Some "AAAA"%string) false.

Definition audio_interrupted_message : LiveServerMessage :=
  mkMessage None (Some "AAAA"%string) true.

Definition interruption_message : LiveServerMessage :=
  mkMessage None None true.

(** An interruption whose message also carries a payload that is not
    base64. *)
Definition undecodable_interrupted_message : LiveServerMessage :=
  mkMessage None (Some "AAA"%string) true.

(** A buffer of [n] silent samples. *)
Definition silence (n : nat) : list Q := repeat 0%Q n.

(* ------------------------------------------------------------------ *)
(** ** More of the hook *)

(** A relation between the world before and after that a handler
    respects. *)
Definition respects {A : Type} (R : World -> World -> Prop) (m : M A)
  : Prop :=
  forall w, R w (snd (m w)).

(** A field of the world is after as it was before. *)
Definition unchanged {B : Type} (f : World -> B) (w w' : World) : Prop :=
  f w' = f w.

(** The effects on a session: its close and what is sent on it. *)
Definition session_of (e : Effect) : option nat :=
  match e with
  | SessionClose s => Some s
  | SendRealtimeInput s _ => Some s
  | SendToolResponse s _ _ _ => Some s
  | _ => None
  end.

Definition is_send_on (p : nat) (e : Effect) : bool :=
  match e with
  | SendRealtimeInput s _ => Nat.eqb s p
  | SendToolResponse s _ _ _ => Nat.eqb s p
  | _ => false
  end.

Definition is_close_of (p : nat) (e : Effect) : bool :=
  match e with
  | SessionClose s => Nat.eqb s p
  | _ => false
  end.

(** Nothing is sent on session [p] once its close has been called. *)
Fixpoint silent_after_close (p : nat) (tr : list Effect) : Prop :=
  match tr with
  | [] => True
  | e :: tr' =>
      (is_close_of p e = true -> existsb (is_send_on p) tr' = false)
      /\ silent_after_close p tr'
  end.

Definition closed_in (p : nat) (tr : list Effect) : bool :=
  existsb (is_close_of p) tr.

Definition sent_in (p : nat) (tr : list Effect) : bool :=
  existsb (is_send_on p) tr.

Definition is_send (r : Reaction) : bool :=
  match r with
  | CloseSession => false
  | _ => true
  end.

Definition is_session_effect (e : Effect) : bool :=
  match session_of e with
  | Some _ => true
  | None => false
  end.

(** What has been done to the sessions, followed by what the queued
    microtasks are about to do. *)
Definition comm (w : World) : list Effect :=
  filter is_session_effect (trace w) ++ map reaction_effect (microtasks w).

(** What the reactions waiting on the promise [p] will do, in order. *)
Definition waiting_on (p : nat) (w : World) : list Effect :=
  map reaction_effect (filter (waits_on p) (reactions w)).

(** How the session in the ref, the promises, the waiting reactions and
    the trace hang together in every state of the hook. *)
Record sessions_consistent (w : World) : Prop := mkConsistent {
  silent : forall p, silent_after_close p (comm w);
  ref_open : forall p, sessionPromiseRef w = Some p ->
               closed_in p (comm w) = false
               /\ ~ In (p, CloseSession) (reactions w);
  waiting_pending : forall q r, In (q, r) (reactions w) ->
                      settled q (promises w) = None;
  waiting_silent : forall p, silent_after_close p (waiting_on p w);
  closed_fulfilled : forall q, closed_in q (comm w) = true ->
                       settled q (promises w) = Some true;
  ref_known : forall p, sessionPromiseRef w = Some p -> (p < fresh w)%nat;
  closed_known : forall q, closed_in q (comm w) = true -> (q < fresh w)%nat;
  waiting_known : forall q r, In (q, r) (reactions w) -> (q < fresh w)%nat
}.

Definition keeps_consistent (w w' : World) : Prop :=
  sessions_consistent w -> sessions_consistent w'.

(** A session that was used, closed by [disconnect()], and whose callbacks
    kept coming afterwards. *)
Definition hook_after_disconnect : World :=
  run [CallConnect 0; MicrophoneAnswers 0 1 true; Open first_session;
       SessionSettles 3 true; AudioProcess (fun x => x) [1 # 2]%Q;
       CallDisconnect; AudioProcess (fun x => x) [1 # 2]%Q;
       Message 0 evaluation_message]
      (init true).

(** One inbound chunk: the clocks of its two turns, the message and the
    decoded buffer. *)
Record Chunk : Type := mkChunk {
  arrival : Q;
  resumption : Q;
  message : LiveServerMessage;
  buffer : list Q
}.

(** Chunks handled one after the other, nothing else in between. *)
Definition play (cl : Closure) (chunks : list Chunk) (w : World) : World :=
  fold_left
    (fun w' c => onmessage cl (arrival c) (resumption c) (message c)
                           (Returned (buffer c)) w')
    chunks w.

Definition is_plain_chunk (c : Chunk) : Prop :=
  base64Audio (message c) <> None /\ interrupted (message c) = false.

(** Start and duration of scheduled chunks, none beginning before the one
    before it has ended. *)
Fixpoint no_overlap (schedule : list (Q * Q)) : Prop :=
  match schedule with
  | [] => True
  | (start, length_) :: rest =>
      match rest with
      | [] => True
      | (next, _) :: _ => (start + length_ <= next)%Q
      end
      /\ no_overlap rest
  end.

(** The arguments of the evaluation callback in a trace, in order. *)
Definition callbacks (tr : list Effect) : list (bool * option string) :=
  flat_map (fun e => match e with
                     | OnEvaluation b t => [(b, t)]
                     | _ => []
                     end) tr.

(* ------------------------------------------------------------------ *)
(** ** The application ([App.tsx], the version with progress) *)

(** [stars] is a JavaScript number.  It is taken here as an integer and
    [prev.stars + 1] as exact, which it is as long as the count stays among
    the integers a double holds exactly ([exact_integers]); what is proved
    about the stars carries that bound. *)
Record UserProgress : Type := mkProgress {
  difficulty : string;
  stars : Z;
  completedTopics : list string
}.

(** From [lo] up to [hi] every integer is held exactly by a double, so
    that adding one anywhere below [hi] is exact. *)
Definition exact_integers (lo hi : Z) : Prop :=
  - 2 ^ 53 <= lo /\ hi <= 2 ^ 53.

Definition DEFAULT_PROGRESS : UserProgress :=
  {| difficulty := "Easy"; stars := 0; completedTopics := [] |}.

Definition TOPICS_BY_DIFFICULTY : list (string * list string) :=
  [("Easy"%string, ["Colors"; "Animals"; "Numbers"; "Fruits"]%string);
   ("Medium"%string, ["Shapes"; "Math"; "Weather"; "Days"]%string);
   ("Hard"%string, ["Science"; "Geography"; "Time"; "Space"]%string)].

Definition LEVELS : list string := ["Easy"; "Medium"; "Hard"]%string.

(** [array.includes(x)] *)
Definition includes (l : list string) (x : string) : bool :=
  existsb (String.eqb x) l.

(** [handleEvaluation] (the updater it hands to [setProgress]); a topic
    that is [undefined] or the empty string is falsy. *)
Definition handleEvaluation (isCorrect : bool) (topic : option string)
    (prev : UserProgress) : UserProgress :=
  if isCorrect then
    let newTopics :=
      match topic with
      | None => completedTopics prev
      | Some EmptyString => completedTopics prev
      | Some t =>
          if negb (includes (completedTopics prev) t)
          then completedTopics prev ++ [t]
          else completedTopics prev
      end in
    {| difficulty := difficulty prev;
       stars := stars prev + 1;
       completedTopics := newTopics |}
  else prev.

(** What the App renders from: the progress and the selected topic. *)
Record App : Type := mkApp {
  progress : UserProgress;
  selectedTopic : option string
}.

(** The state once the mount effect has run; [saved] is the progress
    parsed from local storage, when there is one and it parses. *)
Definition mount (saved : option UserProgress) : App :=
  {| progress := match saved with
                 | Some p => p
                 | None => DEFAULT_PROGRESS
                 end;
     selectedTopic := None |}.

Definition handleDifficultyChange (level : string) (state : App) : App :=
  {| progress := {| difficulty := level;
                    stars := stars (progress state);
                    completedTopics := completedTopics (progress state) |};
     selectedTopic := None |}.

Definition toggleTopic (topic : string) (state : App) : App :=
  match selectedTopic state with
  | Some s =>
      if String.eqb s topic
      then {| progress := progress state; selectedTopic := None |}
      else {| progress := progress state; selectedTopic := Some topic |}
  | None => {| progress := progress state; selectedTopic := Some topic |}
  end.

(** The arguments [handleStart] passes to [connect]. *)
Definition handleStart (state : App) : string * option string :=
  (difficulty (progress state), selectedTopic state).

(** The topic buttons rendered for a difficulty:
    [TOPICS_BY_DIFFICULTY[difficulty]?.map(...)].  A difficulty that is no
    key of the table has no button. *)
Fixpoint lookup_topics (d : string) (table : list (string * list string))
  : option (list string) :=
  match table with
  | [] => None
  | (k, topics) :: table' =>
      if String.eqb k d then Some topics else lookup_topics d table'
  end.

Definition topic_buttons (d : string) : list string :=
  match lookup_topics d TOPICS_BY_DIFFICULTY with
  | Some topics => topics
  | None => []
  end.

(** What the user and the agent can do to the App.  A click names a button;
    a button that is not rendered cannot be clicked. *)
Inductive AppEvent : Type :=
| ClickLevel (level : string)
| ClickTopic (topic : string)
| ClickMix
| Evaluated (isCorrect : bool) (topic : option string).

Definition app_step (state : App) (e : AppEvent) : App :=
  match e with
  | ClickLevel level =>
      if includes LEVELS level then handleDifficultyChange level state else state
  | ClickTopic topic =>
      if includes (topic_buttons (difficulty (progress state))) topic
      then toggleTopic topic state
      else state
  | ClickMix => {| progress := progress state; selectedTopic := None |}
  | Evaluated isCorrect topic =>
      {| progress := handleEvaluation isCorrect topic (progress state);
         selectedTopic := selectedTopic state |}
  end.

Definition app_run (events : list AppEvent) (state : App) : App :=
  fold_left app_step events state.

Definition is_correct_evaluation (e : AppEvent) : bool :=
  match e with
  | Evaluated true _ => true
  | _ => false
  end.

(** The progress after the evaluation callbacks of a trace: the hook is
    given [handleEvaluation] as its [onEvaluation]. *)
Definition deliver (tr : list Effect) (p : UserProgress) : UserProgress :=
  fold_left (fun p' c => handleEvaluation (fst c) (snd c) p') (callbacks tr) p.

Definition correct_answers (fcs : list FunctionCall) : nat :=
  List.length (filter (fun fc => isCorrect (args fc)) fcs).

(** [completedTopics.slice(-5)], the "Things I know" list. *)
Definition things_I_know (p : UserProgress) : list string :=
  skipn (List.length (completedTopics p) - 5) (completedTopics p).

(* ------------------------------------------------------------------ *)
(** ** The avatar ([components/Visualizer.tsx]) *)

Definition micScale (volume : Q) : Q := (1 + volume * (1 # 2))%Q.

(** The [scale(...)] of the avatar's transform. *)
Definition avatarScale (isSpeaking : bool) (volume : Q) : Q :=
  if negb isSpeaking then micScale volume else 1%Q.

(* ================================================================== *)
(** * Part II: theorems *)
(* ================================================================== *)

(** Linear arithmetic with division and remainder by constants. *)
Ltac div_lia := Z.to_euclidean_division_equations; lia.

(** ** The wire codec *)

Section Base64Facts.

Import Base64.

Lemma sextet_of_char_of_sextet (n : Z) :
  0 <= n < 64 -> sextet_of_char (char_of_sextet n) = Some n.
Proof.
  intros Hn.
  assert (Hk : exists k, (k < 64)%nat /\ n = Z.of_nat k).
  { exists (Z.to_nat n). lia. }
  destruct Hk as (k & Hk & ->). clear Hn.
  do 64 (destruct k as [|k]; [reflexivity|]).
  lia.
Qed.

Lemma sextet_of_pad : sextet_of_char pad = None.
Proof. reflexivity. Qed.

(** Lists are taken apart three bytes at a time. *)
Lemma list_ind3 {A : Type} (P : list A -> Prop) :
  P [] ->
  (forall a, P [a]) ->
  (forall a b, P [a; b]) ->
  (forall a b c l, P l -> P (a :: b :: c :: l)) ->
  forall l, P l.
Proof.
  intros H0 H1 H2 H3.
  fix IH 1.
  intros [|a [|b [|c l]]];
    [exact H0 | exact (H1 a) | exact (H2 a b) | exact (H3 a b c l (IH l))].
Qed.

Lemma decode_encode (bs : list Z) :
  Forall is_byte bs -> decode (encode bs) = Some bs.
Proof.
  induction bs as [|a|a b|a b c l IH] using list_ind3; intros Hall.
  - reflexivity.
  - inversion_clear Hall as [|? ? Ha _]. unfold is_byte in Ha.
    cbn [encode decode].
    rewrite !sextet_of_char_of_sextet by div_lia.
    rewrite sextet_of_pad. cbn.
    f_equal. f_equal. div_lia.
  - inversion_clear Hall as [|? ? Ha Hall'].
    inversion_clear Hall' as [|? ? Hb _]. unfold is_byte in Ha, Hb.
    cbn [encode decode].
    rewrite !sextet_of_char_of_sextet by div_lia.
    rewrite sextet_of_pad. cbn.
    f_equal. f_equal; [div_lia|]. f_equal. div_lia.
  - inversion_clear Hall as [|? ? Ha Hall1].
    inversion_clear Hall1 as [|? ? Hb Hall2].
    inversion_clear Hall2 as [|? ? Hc Hl]. unfold is_byte in Ha, Hb, Hc.
    cbn [encode decode].
    rewrite !sextet_of_char_of_sextet by div_lia.
    rewrite (IH Hl).
    f_equal. f_equal; [div_lia|]. f_equal; [div_lia|]. f_equal. div_lia.
Qed.

End Base64Facts.

Section Pcm16Facts.

Import Pcm16.

Lemma bytes_of_int16_are_bytes (v : Z) :
  Forall Base64.is_byte (bytes_of_int16 v).
Proof.
  unfold bytes_of_int16, Base64.is_byte.
  repeat constructor; div_lia.
Qed.

Lemma int16_of_bytes_of_int16 (v : Z) :
  is_int16 v ->
  int16_of_bytes ((v mod 65536) mod 256) ((v mod 65536) / 256) = v.
Proof.
  unfold is_int16, int16_min, int16_max, int16_of_bytes. intros Hv.
  destruct (Z.leb_spec 32768 ((v mod 65536) mod 256
                              + 256 * ((v mod 65536) / 256))); div_lia.
Qed.

Lemma samples_of_bytes_of_samples (vs : list Z) :
  Forall is_int16 vs ->
  samples_of_bytes (flat_map bytes_of_int16 vs) = Some vs.
Proof.
  induction 1 as [|v vs Hv _ IH]; [reflexivity|].
  cbn [flat_map bytes_of_int16 app samples_of_bytes].
  rewrite IH, int16_of_bytes_of_int16 by assumption.
  reflexivity.
Qed.

Lemma flat_map_bytes_are_bytes (vs : list Z) :
  Forall Base64.is_byte (flat_map bytes_of_int16 vs).
Proof.
  induction vs as [|v vs IH]; [constructor|].
  cbn [flat_map]. apply Forall_app. split; [|exact IH].
  apply bytes_of_int16_are_bytes.
Qed.

(** Truncation lands strictly within one unit of its argument, on the
    side of zero. *)
Lemma truncate_near (x : Q) :
  (x - 1 < inject_Z (truncate x) /\ inject_Z (truncate x) < x + 1)%Q.
Proof.
  destruct x as [n d]. unfold truncate, Qlt, Qminus, Qplus, Qopp, inject_Z.
  cbn [Qnum Qden].
  pose proof (Z.quot_rem' n (Z.pos d)) as E.
  pose proof (Z.rem_bound_abs n (Z.pos d) ltac:(lia)) as B.
  rewrite (Z.abs_eq (Z.pos d)) in B by lia.
  set (t := Z.quot n (Z.pos d)) in *. set (r := Z.rem n (Z.pos d)) in *.
  rewrite ?Pos.mul_1_r.
  split; nia.
Qed.

Lemma truncate_between (lo hi : Z) (x : Q) :
  (inject_Z lo <= x)%Q -> (x <= inject_Z hi)%Q ->
  lo <= truncate x <= hi.
Proof.
  destruct x as [n d]. unfold truncate, Qle, inject_Z. cbn [Qnum Qden].
  intros Hlo Hhi.
  pose proof (Z.quot_rem' n (Z.pos d)) as E.
  pose proof (Z.rem_bound_abs n (Z.pos d) ltac:(lia)) as B.
  rewrite (Z.abs_eq (Z.pos d)) in B by lia.
  pose proof (Z.rem_sign_nz n (Z.pos d)) as S.
  set (t := Z.quot n (Z.pos d)) in *. set (r := Z.rem n (Z.pos d)) in *.
  assert (Hr : 0 <= n -> 0 <= r).
  { intros Hn. subst r. apply Z.rem_nonneg; lia. }
  assert (Hr' : n <= 0 -> r <= 0).
  { intros Hn. subst r. apply Z.rem_nonpos; lia. }
  split; nia.
Qed.

Lemma clampQ_between (lo hi x : Q) :
  (lo <= hi)%Q -> (lo <= clampQ lo hi x /\ clampQ lo hi x <= hi)%Q.
Proof.
  intros H. unfold clampQ.
  destruct (Q.max_spec lo (Qmin hi x)) as [[? E]|[? E]];
    destruct (Q.min_spec hi x) as [[? E']|[? E']];
    rewrite E; try rewrite E'; split; lra.
Qed.

Lemma clampQ_inside (lo hi x : Q) :
  (lo <= x)%Q -> (x <= hi)%Q -> (clampQ lo hi x == x)%Q.
Proof.
  intros H1 H2. unfold clampQ.
  destruct (Q.max_spec lo (Qmin hi x)) as [[? E]|[? E]];
    destruct (Q.min_spec hi x) as [[? E']|[? E']];
    rewrite E; try rewrite E'; lra.
Qed.

(** Clamping to an interval that holds [x] brings no point further from
    [x]. *)
Lemma clampQ_closer (lo hi x z e : Q) :
  (lo <= x)%Q -> (x <= hi)%Q ->
  (x - e <= z)%Q -> (z <= x + e)%Q ->
  (x - e <= clampQ lo hi z /\ clampQ lo hi z <= x + e)%Q.
Proof.
  intros H1 H2 H3 H4. unfold clampQ.
  destruct (Q.max_spec lo (Qmin hi z)) as [[? E]|[? E]];
    destruct (Q.min_spec hi z) as [[? E']|[? E']];
    rewrite E; try rewrite E'; split; lra.
Qed.

Lemma quantize_is_int16 (x : Q) : is_int16 (quantize x).
Proof.
  unfold quantize, is_int16.
  destruct (clampQ_between (inject_Z int16_min) (inject_Z int16_max)
                           (x * inject_Z scale)) as [A B].
  { unfold int16_min, int16_max, inject_Z, Qle. simpl. lia. }
  apply truncate_between; assumption.
Qed.

(** One sample out and back. *)
Lemma normalize_quantize (x : Q) :
  (-1 <= x)%Q -> (x <= 1)%Q ->
  (Qabs (normalize (quantize x) - x) <= 1 # 32767)%Q.
Proof.
  intros Hlo Hhi.
  unfold quantize, normalize.
  set (c := clampQ (inject_Z int16_min) (inject_Z int16_max)
                   (x * inject_Z scale)).
  assert (Hc : (c == x * inject_Z scale)%Q).
  { apply clampQ_inside; unfold int16_min, int16_max, scale, inject_Z;
      lra. }
  destruct (truncate_near c) as [T1 T2].
  set (t := truncate c) in *.
  assert (Ht : (Qmake t 32767 == inject_Z t / inject_Z scale)%Q).
  { unfold scale, inject_Z, Qeq, Qdiv, Qmult, Qinv. cbn. lia. }
  assert (Hz : (x - (1 # 32767) <= Qmake t 32767
                /\ Qmake t 32767 <= x + (1 # 32767))%Q).
  { rewrite Ht. unfold scale, inject_Z in *.
    setoid_replace (t # 1) with ((t # 1) / (32767 # 1) * (32767 # 1))%Q
      in T1 by (field; discriminate).
    setoid_replace (t # 1) with ((t # 1) / (32767 # 1) * (32767 # 1))%Q
      in T2 by (field; discriminate).
    set (z := ((t # 1) / (32767 # 1))%Q) in *.
    rewrite Hc in T1, T2. split; lra. }
  destruct Hz as [Z1 Z2].
  destruct (clampQ_closer (-1) 1 x (Qmake t 32767) (1 # 32767))
    as [C1 C2]; try assumption.
  apply Qabs_Qle_condition. split; lra.
Qed.

End Pcm16Facts.

(** The round trip never fails, and it is sample by sample. *)
Lemma roundtrip_samplewise (frame : list Q) :
  roundtrip frame
  = Some (map (fun x => Pcm16.normalize (Pcm16.quantize x)) frame).
Proof.
  unfold roundtrip, decode, createBlob. cbn [data].
  rewrite list_ascii_of_string_of_list_ascii.
  rewrite decode_encode by apply flat_map_bytes_are_bytes.
  unfold decodeAudioData.
  rewrite samples_of_bytes_of_samples.
  - now rewrite map_map.
  - apply Forall_map, Forall_forall. intros x _. apply quantize_is_int16.
Qed.

(** C7. Every valid AudioFrame (samples in [-1,1]) that is encoded by the
    outbound encoder (times 32767, clamped to 16 bits, little-endian,
    base64) and decoded by the inbound decoder comes back as a frame of the
    same length in which every sample is within 1/32767 of the original. *)
Theorem roundtrip_within_quantization_error (frame : list Q) :
  valid_frame frame ->
  exists reconstructed,
    roundtrip frame = Some reconstructed
    /\ Forall2 within_quantization_error frame reconstructed.
Proof.
  intros Hvalid. eexists. split; [apply roundtrip_samplewise|].
  induction Hvalid as [|x frame [Hlo Hhi] _ IH]; cbn [map]; constructor.
  - apply normalize_quantize; assumption.
  - exact IH.
Qed.

Lemma roundtrip_within_quantization_error_witness :
  valid_frame [0; 1; -1; 1 # 2; -(1 # 3)]%Q
  /\ exists reconstructed,
       roundtrip [0; 1; -1; 1 # 2; -(1 # 3)]%Q = Some reconstructed
       /\ Forall2 within_quantization_error
                  [0; 1; -1; 1 # 2; -(1 # 3)]%Q reconstructed.
Proof.
  assert (H : valid_frame [0; 1; -1; 1 # 2; -(1 # 3)]%Q).
  { repeat constructor; unfold Qle; simpl; lia. }
  split; [exact H|].
  exact (roundtrip_within_quantization_error _ H).
Defined.

(** ** Running the handlers *)

(** Symbolic execution of a handler on a world given field by field.
    Setters are reduced innermost first, so that the world is never
    copied. *)
Ltac run_hook :=
  cbv beta iota zeta delta
      [connectionState isMimiSpeaking volume inputAudioContextRef outputAudioContextRef scriptProcessorRef inputSourceRef mediaStreamRef nextStartTimeRef sourcesRef sessionPromiseRef onEvaluationRef fresh promises reactions microtasks trace
       set_connectionState set_isMimiSpeaking set_volume set_inputAudioContextRef set_outputAudioContextRef set_scriptProcessorRef set_inputSourceRef set_mediaStreamRef set_nextStartTimeRef set_sourcesRef set_sessionPromiseRef set_onEvaluationRef set_fresh set_promises set_reactions set_microtasks set_trace
       bind ret read write emit throw try_catch when_ref new_object
       newAudioContext getUserMedia promise_then setConnectionState
       setIsMimiSpeaking setVolume fst snd].

Lemma started_app (s : nat) (tr tr' : list Effect) :
  started s (tr ++ tr') = started s tr || started s tr'.
Proof. unfold started. apply existsb_app. Qed.

Lemma started_app_l (s : nat) (tr tr' : list Effect) :
  started s tr = true -> started s (tr ++ tr') = true.
Proof. intros H. rewrite started_app, H. reflexivity. Qed.

(** Stopping sources that were all started throws nothing. *)
Lemma forEach_source_stop (sources : list nat) (w : World) :
  Forall (fun s => started s (trace w) = true) sources ->
  forEach sources source_stop w
  = (Returned tt, set_trace (trace w ++ map SourceStop sources) w).
Proof.
  revert w. induction sources as [|s sources IH]; intros w Hall.
  - cbn. rewrite app_nil_r. destruct w; reflexivity.
  - inversion_clear Hall as [|? ? Hs Hrest].
    cbn [forEach map]. unfold bind at 1.
    unfold source_stop at 1, bind, read, emit, write. rewrite Hs.
    rewrite IH.
    + cbn [trace set_trace]. rewrite <- app_assoc. reflexivity.
    + cbn [trace set_trace]. eapply Forall_impl; [|exact Hrest].
      intros ? ?. now apply started_app_l.
Qed.

Lemma disconnect_returns (w : World) :
  sources_started w -> disconnect w = (Returned tt, disconnected w).
Proof.
  unfold sources_started. intros Hall.
  destruct w as [cs sp vol iac oac spr isr msr nst srcs sess cb fr pr re mt tr].
  cbn [trace sourcesRef] in Hall.
  unfold disconnect, disconnected, close_request, teardown_effects, effects_of.
  destruct sess as [p|]; [run_hook; destruct (settled p pr) as [[|]|]|];
    destruct msr, isr, spr, iac, oac; run_hook;
    (rewrite forEach_source_stop;
     [run_hook; cbn [app]; rewrite <- ?app_assoc, ?app_nil_r; reflexivity
     |run_hook; eapply Forall_impl; [|exact Hall];
      intros ? ?; now repeat apply started_app_l]).
Qed.

(** ** Invariants of the event loop *)

Lemma drain_eq (w : World) :
  drain w
  = set_trace (trace w ++ map reaction_effect (microtasks w))
              (set_microtasks [] w).
Proof.
  unfold drain.
  assert (G : forall jobs w0,
             fold_left (fun w' job => run_reaction job w') jobs w0
             = set_trace (trace w0 ++ map reaction_effect jobs) w0).
  { induction jobs as [|job jobs IH]; intros w0; cbn [fold_left map].
    - rewrite app_nil_r. destruct w0; reflexivity.
    - rewrite IH. unfold run_reaction. cbn [trace set_trace].
      rewrite <- app_assoc. reflexivity. }
  rewrite G. reflexivity.
Qed.

Lemma microtasks_drain (w : World) : microtasks (drain w) = [].
Proof. rewrite drain_eq. reflexivity. Qed.

Lemma drain_idle (w : World) : microtasks w = [] -> drain w = w.
Proof.
  intros H. rewrite drain_eq, H. cbn [map]. rewrite app_nil_r.
  destruct w; cbn in *; subst; reflexivity.
Qed.

Lemma grows_refl (w : World) : grows w w.
Proof.
  split; [exists []; now rewrite app_nil_r | auto].
Qed.

Lemma grows_trans (w1 w2 w3 : World) :
  grows w1 w2 -> grows w2 w3 -> grows w1 w3.
Proof.
  intros [[tr E] S] [[tr' E'] S']. split.
  - exists (tr ++ tr'). rewrite E', E. now rewrite app_assoc.
  - intros s Hs. destruct (S' s Hs) as [H|H]; [|now right].
    destruct (S s H) as [H'|H']; [now left|right].
    rewrite E'. now apply started_app_l.
Qed.

Lemma grows_sources_started (w w' : World) :
  grows w w' -> sources_started w -> sources_started w'.
Proof.
  unfold sources_started. intros [[tr E] S] H.
  apply Forall_forall. intros s Hs.
  destruct (S s Hs) as [Hin|Hst]; [|exact Hst].
  rewrite E. apply started_app_l.
  rewrite Forall_forall in H. now apply H.
Qed.

(** A write that leaves the active set alone and extends the trace. *)
Lemma grows_by (w w' : World) (tr : list Effect) :
  trace w' = trace w ++ tr -> sourcesRef w' = sourcesRef w -> grows w w'.
Proof.
  intros E S. split; [now exists tr|]. intros s Hs. left. now rewrite <- S.
Qed.

Ltac grows_setter :=
  intros; apply grows_by with (tr := []);
  [cbn; now rewrite app_nil_r | reflexivity].

Section Growing.

Context {A B : Type}.

Lemma growing_ret (a : A) : growing (ret a).
Proof. intros w. apply grows_refl. Qed.

Lemma growing_throw (e : string) : growing (@throw A e).
Proof. intros w. apply grows_refl. Qed.

Lemma growing_read (f : World -> A) : growing (read f).
Proof. intros w. apply grows_refl. Qed.

Lemma growing_bind (m : M A) (k : A -> M B) :
  growing m -> (forall a, growing (k a)) -> growing (bind m k).
Proof.
  intros Hm Hk w. unfold bind. specialize (Hm w).
  destruct (m w) as [[a|e] w1]; cbn [snd] in *; [|exact Hm].
  eapply grows_trans; [exact Hm|apply Hk].
Qed.

Lemma growing_try_catch (body : M A) (handler : string -> M A) :
  growing body -> (forall e, growing (handler e)) ->
  growing (try_catch body handler).
Proof.
  intros Hm Hk w. unfold try_catch. specialize (Hm w).
  destruct (body w) as [[a|e] w1]; cbn [snd] in *; [exact Hm|].
  eapply grows_trans; [exact Hm|apply Hk].
Qed.

End Growing.

Lemma growing_when_ref {A : Type} (ref : World -> option A) (body : A -> M unit) :
  (forall x, growing (body x)) -> growing (when_ref ref body).
Proof.
  intros H. unfold when_ref. apply growing_bind; [apply growing_read|].
  intros [x|]; [apply H|apply growing_ret].
Qed.

Lemma growing_forEach {A : Type} (l : list A) (f : A -> M unit) :
  (forall x, growing (f x)) -> growing (forEach l f).
Proof.
  intros H. induction l as [|x l IH]; cbn [forEach].
  - apply growing_ret.
  - apply growing_bind; [apply H|intros _; exact IH].
Qed.

Lemma growing_write (f : World -> World) :
  (forall w, grows w (f w)) -> growing (write f).
Proof. intros H w. apply H. Qed.

Lemma growing_emit (e : Effect) : growing (emit e).
Proof. intros w. now apply grows_by with (tr := [e]). Qed.

Lemma growing_new_object : growing new_object.
Proof. intros w. cbn. grows_setter. Qed.

Lemma growing_source_stop (s : nat) : growing (source_stop s).
Proof.
  unfold source_stop. apply growing_bind; [apply growing_read|].
  intros tr. destruct (started s tr);
    [apply growing_emit|apply growing_throw].
Qed.

Lemma growing_promise_then (p : nat) (r : Reaction) :
  growing (promise_then p r).
Proof.
  apply growing_write. intros w.
  destruct (settled p (promises w)) as [[|]|];
    [grows_setter|apply grows_refl|grows_setter].
Qed.

Create HintDb growing.

#[local] Hint Resolve growing_ret growing_throw growing_read growing_emit
  growing_new_object growing_source_stop growing_promise_then : growing.

(** Walks through a handler written with the combinators of the monad. *)
Ltac growing :=
  repeat first
    [ apply growing_bind; [|intros ?]
    | apply growing_try_catch; [|intros ?]
    | apply growing_when_ref; intros ?
    | apply growing_forEach; intros ?
    | solve [auto with growing]
    | apply growing_write; solve [grows_setter]
    | match goal with
      | |- growing (if ?b then _ else _) => destruct b
      | |- growing (match ?o with Some _ => _ | None => _ end) => destruct o
      end ].

Lemma growing_disconnect : growing disconnect.
Proof.
  unfold disconnect, setConnectionState, setIsMimiSpeaking, setVolume.
  growing.
  apply growing_write. intros w. split; [exists []; cbn; now rewrite app_nil_r|].
  intros s [].
Qed.

Lemma growing_connect_catch : growing connect_catch.
Proof.
  unfold connect_catch, setConnectionState.
  apply growing_bind; [growing|intros _; apply growing_disconnect].
Qed.

Lemma growing_connect_before_await (now : Q) :
  growing (connect_before_await now).
Proof.
  unfold connect_before_await, newAudioContext, setConnectionState.
  apply growing_try_catch; [growing|].
  intros e. apply growing_bind; [apply growing_connect_catch|growing].
Qed.

Lemma growing_connect_after_await (i o : nat) (granted : bool) :
  growing (connect_after_await i o granted).
Proof.
  unfold connect_after_await, getUserMedia.
  apply growing_try_catch; [growing|].
  intros e. apply growing_bind; [apply growing_connect_catch|growing].
Qed.

Lemma growing_onopen (cl : Closure) : growing (onopen cl).
Proof. unfold onopen, setConnectionState. growing. Qed.

Lemma growing_onaudioprocess (sqrt : Q -> Q) (inputData : list Q) :
  growing (onaudioprocess sqrt inputData).
Proof. unfold onaudioprocess, setVolume. growing. Qed.

Lemma growing_handleToolCalls (message : LiveServerMessage) :
  growing (handleToolCalls message).
Proof. unfold handleToolCalls, reportEvaluation. growing. Qed.

Lemma growing_handleInterruption (now : Q) (message : LiveServerMessage) :
  growing (handleInterruption now message).
Proof.
  unfold handleInterruption, setIsMimiSpeaking. growing.
  apply growing_write. intros w.
  split; [exists []; cbn; now rewrite app_nil_r|]. intros s [].
Qed.

Lemma growing_onmessage_before_await (now : Q) (message : LiveServerMessage) :
  growing (onmessage_before_await now message).
Proof.
  unfold onmessage_before_await, setIsMimiSpeaking.
  apply growing_bind; [apply growing_handleToolCalls|intros _].
  destruct (base64Audio message); [growing|].
  apply growing_bind; [apply growing_handleInterruption|growing].
Qed.

Lemma In_set_add (l : list nat) (x s : nat) :
  In s (set_add l x) -> In s l \/ s = x.
Proof.
  unfold set_add. destruct (existsb (Nat.eqb x) l); [now left|].
  intros H. apply in_app_or in H. destruct H as [H|[H|[]]]; auto.
Qed.

Lemma In_set_delete (l : list nat) (x s : nat) :
  In s (set_delete l x) -> In s l.
Proof. unfold set_delete. intros H. now apply filter_In in H. Qed.

Lemma started_here (s : nat) (t : Q) (tr : list Effect) :
  started s (tr ++ [SourceStart s t]) = true.
Proof.
  rewrite started_app. cbn. rewrite Nat.eqb_refl. apply orb_true_r.
Qed.

Lemma growing_onmessage_after_await (cl : Closure) (now : Q)
    (message : LiveServerMessage) (audioBuffer : Outcome (list Q)) :
  growing (onmessage_after_await cl now message audioBuffer).
Proof.
  destruct audioBuffer as [buf|e]; [|apply growing_throw].
  intros w. unfold onmessage_after_await.
  destruct w as [cs sp vol iac oac spr isr msr nst srcs sess cb fr pr re mt tr].
  run_hook.
  eapply grows_trans; [|apply growing_handleInterruption].
  split; cbn [trace sourcesRef].
  - eexists. rewrite <- !app_assoc. reflexivity.
  - intros s Hs. apply In_set_add in Hs. destruct Hs as [Hs| ->]; [now left|].
    right. apply started_here.
Qed.

Lemma growing_onended (source : nat) : growing (onended source).
Proof.
  intros w. unfold onended.
  destruct w as [cs sp vol iac oac spr isr msr nst srcs sess cb fr pr re mt tr].
  run_hook.
  destruct (Nat.eqb (List.length (set_delete srcs source)) 0); cbn [snd];
    (split; cbn [trace sourcesRef];
     [exists []; now rewrite app_nil_r
     |intros s Hs; left; now apply In_set_delete in Hs]).
Qed.

Lemma growing_onerror : growing onerror.
Proof.
  unfold onerror, setConnectionState.
  apply growing_bind; [apply growing_disconnect|growing].
Qed.

Lemma grows_drain (w : World) : grows w (drain w).
Proof.
  rewrite drain_eq. now apply grows_by with (tr := map reaction_effect (microtasks w)).
Qed.

Lemma grows_after {A : Type} (h : M A) (w : World) :
  growing h -> grows w (after h w).
Proof.
  intros H. unfold after, task. specialize (H w).
  destruct (h w) as [r w1]. cbn [snd] in *.
  eapply grows_trans; [exact H|apply grows_drain].
Qed.

Lemma grows_settle (p : nat) (ok : bool) (w : World) : grows w (settle p ok w).
Proof.
  unfold settle. destruct (settled p (promises w)); [apply grows_refl|].
  destruct ok.
  - eapply grows_trans; [|apply grows_drain]. grows_setter.
  - grows_setter.
Qed.

Lemma grows_step (w : World) (e : Event) : grows w (step w e).
Proof.
  destruct e; cbn [step].
  - apply grows_after, growing_connect_before_await.
  - apply grows_after, growing_connect_after_await.
  - apply grows_after, growing_disconnect.
  - apply grows_settle.
  - apply grows_after, growing_onopen.
  - apply grows_after, growing_onaudioprocess.
  - apply grows_after, growing_onmessage_before_await.
  - apply grows_after, growing_onmessage_after_await.
  - apply grows_after, growing_onended.
  - apply grows_after, growing_disconnect.
  - apply grows_after, growing_onerror.
  - grows_setter.
Qed.

Lemma microtasks_after {A : Type} (h : M A) (w : World) :
  microtasks (after h w) = [].
Proof.
  unfold after, task. destruct (h w) as [r w1]. apply microtasks_drain.
Qed.

Lemma microtasks_step (w : World) (e : Event) :
  microtasks w = [] -> microtasks (step w e) = [].
Proof.
  intros H. destruct e; cbn [step]; try apply microtasks_after.
  - unfold settle. destruct (settled p (promises w)); [exact H|].
    destruct ok; [apply microtasks_drain|exact H].
  - exact H.
Qed.

(** In every state the hook can be in, the microtask queue is empty and
    every source of the active set has been started. *)
Lemma reachable_invariant (w : World) :
  reachable w -> microtasks w = [] /\ sources_started w.
Proof.
  intros (cb & events & ->).
  unfold run. rewrite <- fold_left_rev_right.
  induction (rev events) as [|e es [IH1 IH2]]; cbn [fold_right].
  - split; [reflexivity|constructor].
  - split; [now apply microtasks_step|].
    eapply grows_sources_started; [apply grows_step|exact IH2].
Qed.

Lemma reachable_init (onEvaluation : bool) : reachable (init onEvaluation).
Proof. exists onEvaluation, []. reflexivity. Qed.

Lemma reachable_step (w : World) (e : Event) :
  reachable w -> reachable (step w e).
Proof.
  intros (cb & events & ->). exists cb, (events ++ [e]).
  unfold run. now rewrite fold_left_app.
Qed.

Lemma reachable_run (events : list Event) (w : World) :
  reachable w -> reachable (run events w).
Proof.
  revert w. induction events as [|e events IH]; intros w H; [exact H|].
  cbn. apply IH. now apply reachable_step.
Qed.

(** A state is shown reachable by the events that lead to it. *)
Ltac reached_by events :=
  exists true, events; vm_compute; reflexivity.

(** ** What each handler returns *)

Ltac destruct_world w :=
  destruct w as [cs sp vol iac oac spr isr msr nst srcs sess cb fr pr re mt tr].

Lemma reportEvaluation_returns (fc : FunctionCall) (w : World) :
  is_evaluation fc = true ->
  reportEvaluation fc w
  = (Returned tt, tool_calls_handled (mkMessage (Some [fc]) None false) w).
Proof.
  intros Hfc. destruct_world w.
  unfold reportEvaluation, tool_calls_handled, queued_acknowledgements,
    waiting_acknowledgements, evaluations, dispatch_effects,
    acknowledgement_job.
  cbn [toolCall filter]. rewrite Hfc. cbn [map flat_map app].
  destruct sess as [p|], cb; run_hook;
    try destruct (settled p pr) as [[|]|];
    rewrite <- ?app_assoc, ?app_nil_r; reflexivity.
Qed.

(** Handling the calls of one message after those of another is handling
    them all. *)
Lemma tool_calls_handled_cons (fc : FunctionCall) (fcs : list FunctionCall)
    (w : World) :
  tool_calls_handled (mkMessage (Some fcs) None false)
    (tool_calls_handled (mkMessage (Some [fc]) None false) w)
  = tool_calls_handled (mkMessage (Some (fc :: fcs)) None false) w.
Proof.
  destruct_world w.
  unfold tool_calls_handled, queued_acknowledgements,
    waiting_acknowledgements, evaluations.
  cbn [toolCall filter].
  destruct (is_evaluation fc); cbn [map flat_map app]; run_hook;
    destruct sess as [p|]; try destruct (settled p pr) as [[|]|];
    cbn [map app]; rewrite <- ?app_assoc, ?app_nil_r; reflexivity.
Qed.

Lemma tool_calls_handled_nil (w : World) :
  tool_calls_handled (mkMessage (Some []) None false) w = w.
Proof.
  destruct_world w.
  unfold tool_calls_handled, queued_acknowledgements,
    waiting_acknowledgements, evaluations.
  cbn [toolCall filter map flat_map]. run_hook.
  destruct sess as [p|]; try destruct (settled p pr) as [[|]|];
    rewrite ?app_nil_r; reflexivity.
Qed.

Lemma tool_calls_handled_skip (fc : FunctionCall) (fcs : list FunctionCall)
    (w : World) :
  is_evaluation fc = false ->
  tool_calls_handled (mkMessage (Some (fc :: fcs)) None false) w
  = tool_calls_handled (mkMessage (Some fcs) None false) w.
Proof.
  intros H.
  unfold tool_calls_handled, queued_acknowledgements,
    waiting_acknowledgements, evaluations.
  cbn [toolCall filter]. rewrite H. reflexivity.
Qed.

(** The dispatcher never throws, whatever the calls and the state. *)
Lemma handleToolCalls_returns (message : LiveServerMessage) (w : World) :
  handleToolCalls message w = (Returned tt, tool_calls_handled message w).
Proof.
  assert (G : forall fcs w0,
             forEach fcs (fun fc => if is_evaluation fc
                                    then reportEvaluation fc else ret tt) w0
             = (Returned tt,
                tool_calls_handled (mkMessage (Some fcs) None false) w0)).
  { induction fcs as [|fc fcs IH]; intros w0.
    - cbn [forEach]. unfold ret. now rewrite tool_calls_handled_nil.
    - cbn [forEach]. unfold bind at 1.
      destruct (is_evaluation fc) eqn:Hfc.
      + rewrite reportEvaluation_returns by exact Hfc.
        rewrite IH, tool_calls_handled_cons. reflexivity.
      + unfold ret at 1. rewrite IH, tool_calls_handled_skip by exact Hfc.
        reflexivity. }
  unfold handleToolCalls.
  destruct message as [[fcs|] inl intr]; cbn [toolCall].
  - rewrite G. reflexivity.
  - unfold ret. f_equal.
    change (tool_calls_handled (mkMessage None inl intr) w)
      with (tool_calls_handled (mkMessage (Some []) None false) w).
    now rewrite tool_calls_handled_nil.
Qed.

Lemma handleInterruption_returns (now : Q) (message : LiveServerMessage)
    (w : World) :
  sources_started w ->
  handleInterruption now message w
  = (Returned tt,
     if interrupted message then interruption_handled now w else w).
Proof.
  intros H. unfold handleInterruption.
  destruct (interrupted message); [|reflexivity].
  unfold bind at 1, read at 1. unfold bind at 1.
  rewrite forEach_source_stop by exact H.
  destruct_world w. unfold interruption_handled. run_hook. reflexivity.
Qed.

Lemma sources_started_tool_calls_handled (message : LiveServerMessage)
    (w : World) :
  sources_started w -> sources_started (tool_calls_handled message w).
Proof.
  apply grows_sources_started.
  pose proof (growing_handleToolCalls message w) as G.
  now rewrite handleToolCalls_returns in G.
Qed.

(** The first turn of [onmessage]. *)
Lemma onmessage_before_await_returns (now : Q) (message : LiveServerMessage)
    (w : World) :
  sources_started w ->
  onmessage_before_await now message w
  = match base64Audio message with
    | Some b64 =>
        (Returned (Some b64),
         set_nextStartTimeRef
           (Qmax (nextStartTimeRef (tool_calls_handled message w)) now)
           (set_isMimiSpeaking true (tool_calls_handled message w)))
    | None =>
        (Returned None,
         if interrupted message
         then interruption_handled now (tool_calls_handled message w)
         else tool_calls_handled message w)
    end.
Proof.
  intros H. unfold onmessage_before_await.
  unfold bind at 1. rewrite handleToolCalls_returns.
  destruct (base64Audio message) as [b64|].
  - reflexivity.
  - unfold bind at 1.
    rewrite handleInterruption_returns
      by now apply sources_started_tool_calls_handled.
    reflexivity.
Qed.

(** The second turn of [onmessage], when the chunk decoded. *)
Lemma onmessage_after_await_returns (cl : Closure) (now : Q)
    (message : LiveServerMessage) (audioBuffer : list Q) (w : World) :
  sources_started w ->
  onmessage_after_await cl now message (Returned audioBuffer) w
  = (Returned tt,
     if interrupted message
     then interruption_handled now (chunk_scheduled cl audioBuffer w)
     else chunk_scheduled cl audioBuffer w).
Proof.
  intros H.
  assert (Hs : sources_started (chunk_scheduled cl audioBuffer w)).
  { revert H. apply grows_sources_started.
    unfold chunk_scheduled. split; cbn.
    - eexists. reflexivity.
    - intros s Hs. apply In_set_add in Hs. destruct Hs as [Hs| ->]; [now left|].
      right. unfold started. rewrite existsb_app. cbn.
      now rewrite Nat.eqb_refl, !orb_true_r. }
  rewrite <- (handleInterruption_returns now message _ Hs).
  unfold onmessage_after_await, chunk_scheduled.
  destruct_world w. run_hook. rewrite <- !app_assoc. reflexivity.
Qed.

Lemma emitted_app (w w' : World) (tr : list Effect) :
  trace w' = trace w ++ tr -> emitted w w' = tr.
Proof.
  unfold emitted. intros ->.
  induction (trace w) as [|e l IH]; [reflexivity|exact IH].
Qed.

Lemma after_disconnect (w : World) :
  sources_started w ->
  task disconnect w = (Returned tt, drain (disconnected w)).
Proof. intros H. unfold task. now rewrite disconnect_returns. Qed.

(** After [disconnect] there is nothing left for a second one to do. *)
Lemma disconnected_twice (w : World) :
  microtasks w = [] ->
  drain (disconnected (drain (disconnected w))) = drain (disconnected w).
Proof.
  intros Hmt. destruct_world w. cbn [microtasks] in Hmt. subst mt.
  rewrite !drain_eq.
  unfold disconnected, close_request, teardown_effects, effects_of,
    promise_then, write.
  destruct sess as [p|]; [destruct (settled p pr) as [[|]|] eqn:E|];
    run_hook; rewrite ?E; run_hook; cbn [map app];
    rewrite ?app_nil_r; reflexivity.
Qed.

(** ** The session state machine *)

(** C8. Calling [disconnect()] in any state the hook can be in throws
    nothing and leaves the connection state DISCONNECTED; a second call right
    after changes nothing any more, and a call on the hook as first rendered,
    before any [connect()], leaves it as it was. *)
Theorem disconnect_idempotent (w : World) :
  reachable w ->
  fst (task disconnect w) = Returned tt
  /\ connectionState (after disconnect w) = DISCONNECTED
  /\ task disconnect (after disconnect w) = (Returned tt, after disconnect w)
  /\ (forall onEvaluation,
        task disconnect (init onEvaluation) = (Returned tt, init onEvaluation)).
Proof.
  intros Hw. destruct (reachable_invariant w Hw) as [Hmt Hst].
  unfold after. rewrite (after_disconnect w Hst). cbn [fst snd].
  split; [reflexivity|]. split; [now rewrite drain_eq|]. split.
  - rewrite after_disconnect.
    + now rewrite disconnected_twice.
    + rewrite drain_eq. constructor.
  - intros cb. rewrite after_disconnect by constructor. reflexivity.
Qed.

Lemma disconnect_idempotent_witness :
  let w := connected_hook in
  reachable w
  /\ fst (task disconnect w) = Returned tt
  /\ connectionState (after disconnect w) = DISCONNECTED
  /\ task disconnect (after disconnect w) = (Returned tt, after disconnect w)
  /\ (forall onEvaluation,
        task disconnect (init onEvaluation) = (Returned tt, init onEvaluation)).
Proof.
  intros w.
  assert (H : reachable w).
  { reached_by [CallConnect 0; MicrophoneAnswers 0 1 true; Open first_session;
                SessionSettles 3 true]. }
  split; [exact H|].
  exact (disconnect_idempotent w H).
Defined.

(** The sibling path: a transport error tears down first and sets ERROR
    last. *)
Lemma onerror_ends_in_error (w : World) :
  reachable w -> connectionState (after onerror w) = ERROR.
Proof.
  intros Hw. destruct (reachable_invariant w Hw) as [_ Hst].
  unfold after, task, onerror. unfold bind at 1.
  rewrite (disconnect_returns w Hst). unfold setConnectionState, write.
  now rewrite drain_eq.
Qed.

(** The failure handler of [connect] sets ERROR first and tears down last,
    and the teardown ends by setting DISCONNECTED. *)
Lemma connect_catch_returns (w : World) :
  sources_started w ->
  connect_catch w
  = (Returned tt, disconnected (set_connectionState ERROR w)).
Proof.
  intros H. unfold connect_catch. unfold bind at 1.
  unfold setConnectionState at 1, write at 1.
  now rewrite disconnect_returns.
Qed.

Lemma microphone_denied (inputCtx outputCtx : nat) (w : World) :
  reachable w ->
  connectionState (step w (MicrophoneAnswers inputCtx outputCtx false))
  = DISCONNECTED.
Proof.
  intros Hw. destruct (reachable_invariant w Hw) as [_ Hst].
  cbn [step]. unfold after, task, connect_after_await, try_catch.
  unfold bind at 1. unfold getUserMedia, throw at 1. unfold bind at 1.
  rewrite connect_catch_returns by exact Hst.
  unfold ret. cbn [snd]. now rewrite drain_eq.
Qed.

(** C3 (what the code does). When the microphone is refused to a
    [connect()] made on the hook as first rendered, the failure handler ends
    in DISCONNECTED, not ERROR; no stream, node, playback handle or session
    is left, and both audio contexts are closed. *)
Theorem microphone_denied_ends_disconnected (now : Q) (onEvaluation : bool) :
  let w' := snd (connect now false (init onEvaluation)) in
  fst (connect now false (init onEvaluation)) = Returned None
  /\ connectionState w' = DISCONNECTED
  /\ connectionState w' <> ERROR
  /\ mediaStreamRef w' = None /\ inputSourceRef w' = None
  /\ scriptProcessorRef w' = None /\ sourcesRef w' = []
  /\ sessionPromiseRef w' = None /\ active_sessions w' = []
  /\ emitted (init onEvaluation) w'
     = [NewAudioContext 0 16000; NewAudioContext 1 24000;
        ContextClose 0; ContextClose 1].
Proof.
  vm_compute. repeat split; discriminate.
Qed.

(** [connect()] with the microphone granted: two contexts, the stream, the
    session, and the refs overwritten. *)
Lemma connect_granted_trace (w : World) (now : Q) :
  microtasks w = [] ->
  trace (snd (connect now true w))
  = trace w ++ [NewAudioContext (fresh w) 16000;
                NewAudioContext (S (fresh w)) 24000;
                GetUserMedia (S (S (fresh w)));
                LiveConnect (S (S (S (fresh w))))]
  /\ reactions (snd (connect now true w)) = reactions w
  /\ microtasks (snd (connect now true w)) = [].
Proof.
  intros Hmt. destruct_world w. cbn [microtasks] in Hmt. subst mt.
  unfold connect, task, connect_before_await, connect_after_await.
  run_hook. rewrite !drain_eq. run_hook. cbn [map].
  rewrite !app_nil_r, <- !app_assoc. repeat split.
Qed.

Lemma torn_down_by_disconnect (w : World) :
  reachable w -> torn_down w (after disconnect w).
Proof.
  intros Hw. destruct (reachable_invariant w Hw) as [Hmt Hst].
  unfold after. rewrite (after_disconnect w Hst). cbn [snd].
  rewrite drain_eq.
  destruct_world w. cbn [microtasks] in Hmt. subst mt.
  unfold torn_down, close_requested, disconnected, close_request,
    teardown_effects, effects_of, promise_then, write.
  cbn [mediaStreamRef inputSourceRef scriptProcessorRef sourcesRef
       sessionPromiseRef inputAudioContextRef outputAudioContextRef].
  repeat split.
  - intros s ->. run_hook. rewrite !in_app_iff. left. right. left. now left.
  - intros n ->. run_hook. rewrite !in_app_iff. left. right. right. left.
    now left.
  - intros n ->. run_hook. rewrite !in_app_iff. left. do 3 right. left.
    now left.
  - intros s Hs. run_hook. rewrite !in_app_iff. left. do 5 right. left.
    now apply in_map.
  - intros p ->. run_hook.
    destruct (settled p pr) as [[|]|] eqn:E; run_hook.
    + left. rewrite !in_app_iff. right. now left.
    + right. right. reflexivity.
    + right. left. rewrite in_app_iff. right. now left.
Qed.

(** C1 (as amended). [connect()] tears nothing down, whatever the session
    state: with the microphone granted it only creates the two audio
    contexts, acquires the stream and opens a new transport, and requests no
    close; the resources of the previous session are released only by
    [disconnect()], which stops the stream, disconnects the nodes, stops the
    active playback handles and requests the close of the transport. *)
Theorem connect_tears_nothing_down (w : World) (now : Q) :
  reachable w ->
  (emitted w (snd (connect now true w))
   = [NewAudioContext (fresh w) 16000;
      NewAudioContext (S (fresh w)) 24000;
      GetUserMedia (S (S (fresh w)));
      LiveConnect (S (S (S (fresh w))))]
   /\ reactions (snd (connect now true w)) = reactions w)
  /\ torn_down w (after disconnect w).
Proof.
  intros Hw. destruct (reachable_invariant w Hw) as [Hmt _].
  destruct (connect_granted_trace w now Hmt) as (Htr & Hre & _).
  split; [split|].
  - now apply emitted_app.
  - exact Hre.
  - now apply torn_down_by_disconnect.
Qed.

Lemma connect_tears_nothing_down_witness :
  let w := connected_hook in
  reachable w
  /\ (emitted w (snd (connect 5 true w))
      = [NewAudioContext (fresh w) 16000;
         NewAudioContext (S (fresh w)) 24000;
         GetUserMedia (S (S (fresh w)));
         LiveConnect (S (S (S (fresh w))))]
      /\ reactions (snd (connect 5 true w)) = reactions w)
  /\ torn_down w (after disconnect w).
Proof.
  intros w.
  assert (H : reachable w).
  { reached_by [CallConnect 0; MicrophoneAnswers 0 1 true; Open first_session;
                SessionSettles 3 true]. }
  split; [exact H|].
  exact (connect_tears_nothing_down w 5 H).
Defined.

(** C1 (counterexample). A second [connect()] on a CONNECTED hook: the
    first session's microphone stream is never stopped, its nodes never
    disconnected, its transport never asked to close, and two sessions are
    active at once. *)
Lemma connect_leaves_previous_session_running :
  let w := connected_hook in
  let w' := snd (connect 5 true w) in
  connectionState w = CONNECTED
  /\ mediaStreamRef w = Some 2%nat
  /\ sessionPromiseRef w = Some 3%nat
  /\ ~ In (TrackStop 2) (trace w')
  /\ ~ close_requested 3 w'
  /\ ~ torn_down w w'
  /\ active_sessions w' = [3; 9]%nat.
Proof.
  intros w w'.
  assert (Hstop : ~ In (TrackStop 2) (trace w')).
  { vm_compute. intros H.
    repeat (destruct H as [H|H]; [discriminate H|]). exact H. }
  assert (Hclose : ~ close_requested 3 w').
  { unfold close_requested. vm_compute. intros [H|[H|H]].
    - repeat (destruct H as [H|H]; [discriminate H|]). exact H.
    - exact H.
    - discriminate H. }
  repeat split; try assumption.
  intros (Hs & _). apply Hstop. now apply Hs.
Qed.

(** ** The Evaluation Dispatcher *)

Lemma reaction_effect_acknowledgement (p : nat) (fcs : list FunctionCall) :
  map reaction_effect (map (acknowledgement_job p) fcs)
  = map (acknowledgement p) fcs.
Proof. rewrite map_map. reflexivity. Qed.

(** Everything a message without audio, or the first turn of one with
    audio, adds to the trace of a live session: (a) and (b) of every
    evaluation call, then the stops of an interruption, then, as microtasks,
    the acknowledgements. *)
Lemma message_turn_trace (w : World) (p : nat) (now : Q)
    (message : LiveServerMessage) :
  reachable w -> live_session p w ->
  emitted w (step w (Message now message))
  = flat_map (dispatch_effects (onEvaluationRef w)) (evaluations message)
    ++ match base64Audio message with
       | Some _ => []
       | None => if interrupted message
                 then map SourceStop (sourcesRef w) else []
       end
    ++ map (acknowledgement p) (evaluations message).
Proof.
  intros Hw [Hp Hset]. destruct (reachable_invariant w Hw) as [Hmt Hst].
  apply emitted_app. cbn [step]. unfold after, task.
  rewrite onmessage_before_await_returns by exact Hst.
  rewrite <- reaction_effect_acknowledgement.
  destruct_world w. cbn [microtasks sessionPromiseRef promises] in *.
  subst mt sess.
  unfold tool_calls_handled, interruption_handled, queued_acknowledgements,
    waiting_acknowledgements.
  destruct (base64Audio message), (interrupted message);
    cbn [snd]; rewrite drain_eq; run_hook; rewrite Hset; run_hook;
    cbn [app]; rewrite <- ?app_assoc, ?app_nil_r; reflexivity.
Qed.

Lemma tool_responses_dispatch (registered : bool) (fcs : list FunctionCall) :
  tool_responses (flat_map (dispatch_effects registered) fcs) = [].
Proof.
  induction fcs as [|fc fcs IH]; [reflexivity|].
  cbn [flat_map]. unfold tool_responses in *. rewrite filter_app, IH.
  destruct registered; reflexivity.
Qed.

Lemma tool_responses_stops (sources : list nat) :
  tool_responses (map SourceStop sources) = [].
Proof. induction sources as [|s l IH]; [reflexivity|exact IH]. Qed.

Lemma tool_responses_acknowledgements (p : nat) (fcs : list FunctionCall) :
  tool_responses (map (acknowledgement p) fcs) = map (acknowledgement p) fcs.
Proof.
  induction fcs as [|fc fcs IH]; [reflexivity|].
  cbn [map]. unfold tool_responses in *. cbn [filter acknowledgement].
  now rewrite IH.
Qed.

Lemma dispatcher_effects_dispatch (registered : bool)
    (fcs : list FunctionCall) :
  dispatcher_effects (flat_map (dispatch_effects registered) fcs)
  = flat_map (dispatch_effects registered) fcs.
Proof.
  induction fcs as [|fc fcs IH]; [reflexivity|].
  cbn [flat_map]. unfold dispatcher_effects in *. rewrite filter_app, IH.
  destruct registered; reflexivity.
Qed.

Lemma dispatcher_effects_stops (sources : list nat) :
  dispatcher_effects (map SourceStop sources) = [].
Proof. induction sources as [|s l IH]; [reflexivity|exact IH]. Qed.

Lemma dispatcher_effects_acknowledgements (p : nat)
    (fcs : list FunctionCall) :
  dispatcher_effects (map (acknowledgement p) fcs)
  = map (acknowledgement p) fcs.
Proof.
  induction fcs as [|fc fcs IH]; [reflexivity|].
  cbn [map]. unfold dispatcher_effects in *.
  cbn [filter acknowledgement is_dispatcher_effect]. now rewrite IH.
Qed.

(** C2 (as amended). In a live session, the tool responses sent for a
    message are exactly one per call named [reportEvaluation], in the order
    of the calls, each with the id and name of its call and the payload
    ["ok"], whether or not an evaluation callback is registered; a call of
    any other name gets no response. *)
Theorem evaluation_calls_acknowledged_once (w : World) (p : nat) (now : Q)
    (message : LiveServerMessage) :
  reachable w -> live_session p w ->
  tool_responses (emitted w (step w (Message now message)))
  = map (acknowledgement p) (evaluations message).
Proof.
  intros Hw Hp. rewrite (message_turn_trace w p now message Hw Hp).
  unfold tool_responses. rewrite !filter_app. fold tool_responses.
  rewrite tool_responses_dispatch, tool_responses_acknowledgements.
  destruct (base64Audio message); [reflexivity|].
  destruct (interrupted message); [|reflexivity].
  now rewrite tool_responses_stops.
Qed.

(** C9. In a live session, what the dispatcher does for the evaluation calls
    of one message is, call by call in the order received, the feedback
    sound with [isCorrect] and then the evaluation callback (when one is
    registered) with [(isCorrect, topic)], and after these the
    acknowledgements, again in the order of the calls, each with the id of
    its call and the fixed payload ["ok"]. *)
Theorem evaluation_effects_in_order (w : World) (p : nat) (now : Q)
    (message : LiveServerMessage) :
  reachable w -> live_session p w ->
  dispatcher_effects (emitted w (step w (Message now message)))
  = flat_map (dispatch_effects (onEvaluationRef w)) (evaluations message)
    ++ map (acknowledgement p) (evaluations message).
Proof.
  intros Hw Hp. rewrite (message_turn_trace w p now message Hw Hp).
  unfold dispatcher_effects. rewrite !filter_app. fold dispatcher_effects.
  rewrite dispatcher_effects_dispatch, dispatcher_effects_acknowledgements.
  destruct (base64Audio message); [reflexivity|].
  destruct (interrupted message); [|reflexivity].
  now rewrite dispatcher_effects_stops.
Qed.

Lemma reachable_connected_hook : reachable connected_hook.
Proof. apply reachable_run, reachable_init. Qed.

Lemma live_connected_hook : live_session 3 connected_hook.
Proof. split; reflexivity. Qed.

Lemma evaluation_calls_acknowledged_once_witness :
  reachable connected_hook /\ live_session 3 connected_hook
  /\ tool_responses
       (emitted connected_hook
                (step connected_hook (Message 0 evaluation_message)))
     = map (acknowledgement 3) (evaluations evaluation_message).
Proof.
  assert (H : reachable connected_hook).
  { reached_by [CallConnect 0; MicrophoneAnswers 0 1 true; Open first_session;
                SessionSettles 3 true]. }
  assert (L : live_session 3 connected_hook) by (split; reflexivity).
  split; [exact H|]. split; [exact L|].
  exact (evaluation_calls_acknowledged_once connected_hook 3 0
           evaluation_message H L).
Defined.

(** C2 (counterexample). A tool call of another name, received in a live
    session: no tool response carries its id. *)
Lemma other_tool_call_gets_no_response :
  reachable connected_hook /\ live_session 3 connected_hook
  /\ toolCall other_tool_message
     = Some [mkFunctionCall "call-1" "getWeather" (mkArgs true None)]
  /\ responses_to "call-1"
       (emitted connected_hook
                (step connected_hook (Message 0 other_tool_message)))
     = []
  /\ tool_responses
       (emitted connected_hook
                (step connected_hook (Message 0 other_tool_message)))
     = [].
Proof.
  split; [exact reachable_connected_hook|].
  split; [exact live_connected_hook|].
  vm_compute. repeat split.
Qed.

Lemma evaluation_effects_in_order_witness :
  reachable connected_hook /\ live_session 3 connected_hook
  /\ dispatcher_effects
       (emitted connected_hook
                (step connected_hook (Message 0 evaluation_message)))
     = flat_map (dispatch_effects (onEvaluationRef connected_hook))
                (evaluations evaluation_message)
       ++ map (acknowledgement 3) (evaluations evaluation_message).
Proof.
  assert (H : reachable connected_hook).
  { reached_by [CallConnect 0; MicrophoneAnswers 0 1 true; Open first_session;
                SessionSettles 3 true]. }
  assert (L : live_session 3 connected_hook) by (split; reflexivity).
  split; [exact H|]. split; [exact L|].
  exact (evaluation_effects_in_order connected_hook 3 0
           evaluation_message H L).
Defined.

(** The scenario of the spec: the call [{isCorrect: true, topic: "Colors"}]
    with id ["call-1"]. *)
Example evaluation_scenario :
  emitted connected_hook (step connected_hook (Message 0 evaluation_message))
  = [PlayFeedbackSound true;
     OnEvaluation true (Some "Colors"%string);
     SendToolResponse 3 "call-1" "reportEvaluation" "ok"].
Proof. reflexivity. Qed.

(** C9 (counterexample). An evaluation call received after [disconnect()],
    with the callback registered: the sound is played and the callback
    invoked, and no response is sent, in that turn or later. *)
Lemma evaluation_after_disconnect_gets_no_response :
  let w := step connected_hook CallDisconnect in
  let w' := step w (Message 0 evaluation_message) in
  reachable w
  /\ sessionPromiseRef w = None
  /\ evaluations evaluation_message
     = [mkFunctionCall "call-1" "reportEvaluation"
          (mkArgs true (Some "Colors"%string))]
  /\ emitted w w'
     = [PlayFeedbackSound true; OnEvaluation true (Some "Colors"%string)]
  /\ tool_responses (emitted w w') = []
  /\ reactions w' = [] /\ microtasks w' = [].
Proof.
  intros w w'.
  split; [apply reachable_step, reachable_connected_hook|].
  vm_compute. repeat split.
Qed.

(** ** The Playback Scheduler *)

(** A message with audio whose chunk decodes, both turns: the dispatcher's
    effects, the three calls that schedule the chunk at
    [max(nextStartTime, clock)], and, if the message also interrupts, the
    stop of every active handle, the new one included. *)
Lemma chunk_turns (w : World) (cl : Closure) (arrival resumption : Q)
    (message : LiveServerMessage) (b64 : string) (audioBuffer : list Q) :
  reachable w -> base64Audio message = Some b64 ->
  let w' := onmessage cl arrival resumption message (Returned audioBuffer) w in
  emitted w w'
  = flat_map (dispatch_effects (onEvaluationRef w)) (evaluations message)
    ++ map reaction_effect (queued_acknowledgements message w)
    ++ [CreateBufferSource (fresh w) (outputCtx cl);
        NodeConnect (fresh w) (ToContextDestination (outputCtx cl));
        SourceStart (fresh w) (Qmax (nextStartTimeRef w) arrival)]
    ++ (if interrupted message
        then map SourceStop (set_add (sourcesRef w) (fresh w)) else [])
  /\ nextStartTimeRef w'
     = (if interrupted message then resumption
        else (Qmax (nextStartTimeRef w) arrival + duration audioBuffer)%Q)
  /\ sourcesRef w'
     = (if interrupted message then []
        else set_add (sourcesRef w) (fresh w))
  /\ isMimiSpeaking w' = negb (interrupted message).
Proof.
  intros Hw Hb. destruct (reachable_invariant w Hw) as [Hmt Hst].
  assert (Hw1 : reachable (step w (Message arrival message)))
    by now apply reachable_step.
  destruct (reachable_invariant _ Hw1) as [_ Hst1].
  cbn [step] in Hst1. unfold after, task in Hst1.
  rewrite onmessage_before_await_returns, Hb in Hst1 by exact Hst.
  cbn [snd] in Hst1.
  unfold onmessage, task.
  rewrite onmessage_before_await_returns, Hb by exact Hst.
  cbv beta iota zeta.
  rewrite onmessage_after_await_returns by exact Hst1.
  cbn [snd]. clear Hst1 Hw1 Hw Hst.
  destruct_world w. cbn [microtasks] in Hmt. subst mt.
  unfold tool_calls_handled, interruption_handled, chunk_scheduled.
  cbn [nextStartTimeRef sourcesRef fresh onEvaluationRef].
  set (acks := queued_acknowledgements message _).
  set (waits := waiting_acknowledgements message _).
  destruct (interrupted message); cbn [negb];
    rewrite !drain_eq; run_hook; cbn [map app];
    rewrite ?app_nil_r; (split; [|repeat split]);
    apply emitted_app; cbn [trace]; rewrite <- ?app_assoc; reflexivity.
Qed.

(** A message without audio is one turn. *)
Lemma plain_turn (w : World) (cl : Closure) (arrival resumption : Q)
    (message : LiveServerMessage) (audioBuffer : Outcome (list Q)) :
  reachable w -> base64Audio message = None ->
  let w' := onmessage cl arrival resumption message audioBuffer w in
  emitted w w'
  = flat_map (dispatch_effects (onEvaluationRef w)) (evaluations message)
    ++ (if interrupted message then map SourceStop (sourcesRef w) else [])
    ++ map reaction_effect (queued_acknowledgements message w)
  /\ nextStartTimeRef w'
     = (if interrupted message then arrival else nextStartTimeRef w)
  /\ sourcesRef w' = (if interrupted message then [] else sourcesRef w)
  /\ isMimiSpeaking w'
     = (if interrupted message then false else isMimiSpeaking w).
Proof.
  intros Hw Hb. destruct (reachable_invariant w Hw) as [Hmt Hst].
  unfold onmessage, task.
  rewrite onmessage_before_await_returns, Hb by exact Hst.
  cbv beta iota zeta. clear Hw Hst.
  destruct_world w. cbn [microtasks] in Hmt. subst mt.
  unfold tool_calls_handled, interruption_handled.
  cbn [nextStartTimeRef sourcesRef fresh onEvaluationRef isMimiSpeaking].
  set (acks := queued_acknowledgements message _).
  set (waits := waiting_acknowledgements message _).
  destruct (interrupted message);
    rewrite !drain_eq; run_hook; cbn [map app];
    rewrite ?app_nil_r; (split; [|repeat split]);
    apply emitted_app; cbn [trace]; rewrite <- ?app_assoc; reflexivity.
Qed.

Lemma reachable_onmessage (w : World) (cl : Closure) (arrival resumption : Q)
    (message : LiveServerMessage) (audioBuffer : Outcome (list Q)) :
  reachable w ->
  reachable (onmessage cl arrival resumption message audioBuffer w).
Proof.
  intros Hw. unfold onmessage.
  pose proof (reachable_step w (Message arrival message) Hw) as H1.
  cbn [step] in H1. unfold after in H1.
  destruct (task (onmessage_before_await arrival message) w)
    as [[[b64|]|e] w1]; cbn [snd] in H1; try exact H1.
  apply (reachable_step w1
           (Decoded cl resumption message audioBuffer) H1).
Qed.

Lemma scheduled_starts_app (tr tr' : list Effect) :
  scheduled_starts (tr ++ tr') = scheduled_starts tr ++ scheduled_starts tr'.
Proof. apply flat_map_app. Qed.

Lemma stopped_sources_app (tr tr' : list Effect) :
  stopped_sources (tr ++ tr') = stopped_sources tr ++ stopped_sources tr'.
Proof. apply flat_map_app. Qed.

Lemma stopped_sources_stops (sources : list nat) :
  stopped_sources (map SourceStop sources) = sources.
Proof.
  induction sources as [|s l IH]; [reflexivity|]. cbn. now f_equal.
Qed.

Lemma scheduled_starts_stops (sources : list nat) :
  scheduled_starts (map SourceStop sources) = [].
Proof. induction sources as [|s l IH]; [reflexivity|exact IH]. Qed.

(** The dispatcher neither starts nor stops a source. *)
Lemma dispatcher_leaves_playback_alone (tr : list Effect) :
  Forall (fun e => is_dispatcher_effect e = true) tr ->
  scheduled_starts tr = [] /\ stopped_sources tr = [].
Proof.
  induction 1 as [|e tr He _ [IH1 IH2]]; [split; reflexivity|].
  destruct e; try discriminate He; cbn; auto.
Qed.

Lemma dispatch_effects_are_dispatcher (registered : bool)
    (fcs : list FunctionCall) :
  Forall (fun e => is_dispatcher_effect e = true)
         (flat_map (dispatch_effects registered) fcs).
Proof.
  induction fcs as [|fc fcs IH]; [constructor|].
  cbn [flat_map]. apply Forall_app. split; [|exact IH].
  destruct registered; repeat constructor.
Qed.

Lemma queued_acknowledgements_are_dispatcher (message : LiveServerMessage)
    (w : World) :
  Forall (fun e => is_dispatcher_effect e = true)
         (map reaction_effect (queued_acknowledgements message w)).
Proof.
  unfold queued_acknowledgements.
  destruct (sessionPromiseRef w) as [p|]; [|constructor].
  destruct (settled p (promises w)) as [[|]|]; try constructor.
  apply Forall_map, Forall_map, Forall_forall. intros fc _. reflexivity.
Qed.

Lemma duration_nonneg (audioBuffer : list Q) : (0 <= duration audioBuffer)%Q.
Proof. unfold duration, Qle. cbn. lia. Qed.

(** C5. A chunk received in a message that does not interrupt is started
    at [max(nextStartTime, clock)], the clock being read when the message
    arrives, and [nextStartTime] then stands at that start plus the chunk's
    duration, samples/24000.  For two such chunks of 2400 and 1200 samples
    (0.1 s and 0.05 s), the second arriving before the clock has passed the
    cursor, the second start is the first start plus 0.1 s. *)
Theorem chunks_scheduled_back_to_back (w : World) (cl : Closure)
    (arrival1 resumption1 arrival2 resumption2 : Q)
    (message1 message2 : LiveServerMessage) (b1 b2 : string)
    (audioBuffer1 audioBuffer2 : list Q) :
  reachable w ->
  base64Audio message1 = Some b1 -> interrupted message1 = false ->
  base64Audio message2 = Some b2 -> interrupted message2 = false ->
  let w1 := onmessage cl arrival1 resumption1 message1
                      (Returned audioBuffer1) w in
  let w2 := onmessage cl arrival2 resumption2 message2
                      (Returned audioBuffer2) w1 in
  (scheduled_starts (emitted w w1) = [Qmax (nextStartTimeRef w) arrival1]
   /\ nextStartTimeRef w1
      = (Qmax (nextStartTimeRef w) arrival1
         + (Z.of_nat (List.length audioBuffer1) # 24000))%Q)
  /\ (List.length audioBuffer1 = 2400%nat ->
      List.length audioBuffer2 = 1200%nat ->
      (arrival2 <= nextStartTimeRef w1)%Q ->
      exists start1 start2,
        scheduled_starts (emitted w w1) = [start1]
        /\ scheduled_starts (emitted w1 w2) = [start2]
        /\ (start2 == start1 + (1 # 10))%Q).
Proof.
  intros Hw Hb1 Hi1 Hb2 Hi2 w1 w2.
  assert (Hstarts : forall w0 c a r m b buf,
             reachable w0 -> base64Audio m = Some b ->
             interrupted m = false ->
             scheduled_starts
               (emitted w0 (onmessage c a r m (Returned buf) w0))
             = [Qmax (nextStartTimeRef w0) a]
             /\ nextStartTimeRef (onmessage c a r m (Returned buf) w0)
                = (Qmax (nextStartTimeRef w0) a + duration buf)%Q).
  { intros w0 c a r m b buf H0 Hb Hi.
    destruct (chunk_turns w0 c a r m b buf H0 Hb) as (Htr & Hn & _).
    rewrite Hi in Htr, Hn. split; [|exact Hn].
    rewrite Htr, !scheduled_starts_app.
    destruct (dispatcher_leaves_playback_alone _
                (dispatch_effects_are_dispatcher (onEvaluationRef w0)
                   (evaluations m))) as [-> _].
    destruct (dispatcher_leaves_playback_alone _
                (queued_acknowledgements_are_dispatcher m w0)) as [-> _].
    reflexivity. }
  destruct (Hstarts w cl arrival1 resumption1 message1 b1 audioBuffer1
              Hw Hb1 Hi1) as [S1 N1].
  fold w1 in S1, N1.
  split; [split; assumption|].
  intros L1 L2 Hclock.
  assert (Hw1 : reachable w1) by now apply reachable_onmessage.
  destruct (Hstarts w1 cl arrival2 resumption2 message2 b2 audioBuffer2
              Hw1 Hb2 Hi2) as [S2 _].
  fold w2 in S2.
  exists (Qmax (nextStartTimeRef w) arrival1),
         (Qmax (nextStartTimeRef w1) arrival2).
  split; [exact S1|]. split; [exact S2|].
  rewrite (Q.max_l _ _ Hclock), N1.
  unfold duration. rewrite L1.
  assert (E : (Z.of_nat 2400 # 24000 == 1 # 10)%Q) by (vm_compute; reflexivity).
  rewrite E. reflexivity.
Qed.

Lemma chunks_scheduled_back_to_back_witness :
  let w := connected_hook in
  let w1 := onmessage first_session 0 0 audio_message
                      (Returned (silence 2400)) w in
  let w2 := onmessage first_session (1 # 20) (1 # 20) audio_message
                      (Returned (silence 1200)) w1 in
  reachable w
  /\ base64Audio audio_message = Some "AAAA"%string
  /\ interrupted audio_message = false
  /\ List.length (silence 2400) = 2400%nat
  /\ List.length (silence 1200) = 1200%nat
  /\ (1 # 20 <= nextStartTimeRef w1)%Q
  /\ (scheduled_starts (emitted w w1) = [Qmax (nextStartTimeRef w) 0]
      /\ nextStartTimeRef w1
         = (Qmax (nextStartTimeRef w) 0
            + (Z.of_nat (List.length (silence 2400)) # 24000))%Q)
  /\ exists start1 start2,
       scheduled_starts (emitted w w1) = [start1]
       /\ scheduled_starts (emitted w1 w2) = [start2]
       /\ (start2 == start1 + (1 # 10))%Q.
Proof.
  intros w w1 w2.
  assert (Hb : base64Audio audio_message = Some "AAAA"%string)
    by reflexivity.
  assert (Hi : interrupted audio_message = false) by reflexivity.
  assert (L1 : List.length (silence 2400) = 2400%nat)
    by apply repeat_length.
  assert (L2 : List.length (silence 1200) = 1200%nat)
    by apply repeat_length.
  assert (Hc : (1 # 20 <= nextStartTimeRef w1)%Q)
    by (vm_compute; discriminate).
  assert (H : reachable w).
  { reached_by [CallConnect 0; MicrophoneAnswers 0 1 true; Open first_session;
                SessionSettles 3 true]. }
  destruct (chunks_scheduled_back_to_back w first_session 0 0
              (1 # 20) (1 # 20) audio_message audio_message
              "AAAA" "AAAA" (silence 2400) (silence 1200)
              H Hb Hi Hb Hi) as [H1 H2].
  repeat (split; [assumption|]).
  exact (H2 L1 L2 Hc).
Defined.

(** The interruption block, when it is reached.  On a message that
    interrupts (the chunk decoding, if the message also carries one), the
    handles that are stopped are exactly those active
    when the interruption is handled, the active set becomes empty, the
    speaking flag false and [nextStartTime] the playback clock of that turn.
    On a message that does not interrupt, no handle is stopped and
    [nextStartTime] is not reset: without a chunk it stays, and with a chunk
    it becomes [max(nextStartTime, clock) + duration], never less than it was
    and, the chunk not being empty, ahead of the clock. *)
Lemma interruption_resets_playback (w : World) (cl : Closure)
    (arrival resumption : Q) (message : LiveServerMessage)
    (audioBuffer : list Q) :
  reachable w ->
  let w' := onmessage cl arrival resumption message (Returned audioBuffer) w in
  (interrupted message = true ->
   stopped_sources (emitted w w')
   = match base64Audio message with
     | Some _ => set_add (sourcesRef w) (fresh w)
     | None => sourcesRef w
     end
   /\ sourcesRef w' = []
   /\ isMimiSpeaking w' = false
   /\ nextStartTimeRef w'
      = match base64Audio message with
        | Some _ => resumption
        | None => arrival
        end)
  /\ (interrupted message = false ->
      stopped_sources (emitted w w') = []
      /\ nextStartTimeRef w'
         = match base64Audio message with
           | Some _ => (Qmax (nextStartTimeRef w) arrival
                        + duration audioBuffer)%Q
           | None => nextStartTimeRef w
           end
      /\ (nextStartTimeRef w <= nextStartTimeRef w')%Q
      /\ (base64Audio message <> None -> audioBuffer <> [] ->
          (arrival < nextStartTimeRef w')%Q)).
Proof.
  intros Hw w'. subst w'.
  pose proof (dispatcher_leaves_playback_alone _
                (dispatch_effects_are_dispatcher (onEvaluationRef w)
                   (evaluations message))) as [_ D].
  pose proof (dispatcher_leaves_playback_alone _
                (queued_acknowledgements_are_dispatcher message w)) as [_ A].
  destruct (base64Audio message) as [b64|] eqn:Hb.
  - destruct (chunk_turns w cl arrival resumption message b64 audioBuffer
                Hw Hb) as (Htr & Hn & Hs & Hsp).
    split; intros Hi; rewrite Hi in Htr, Hn, Hs, Hsp.
    + repeat split; try assumption.
      rewrite Htr, !stopped_sources_app, D, A.
      cbn [app stopped_sources flat_map]. apply stopped_sources_stops.
    + pose proof (duration_nonneg audioBuffer) as Hd.
      pose proof (Q.le_max_l (nextStartTimeRef w) arrival) as Hl.
      pose proof (Q.le_max_r (nextStartTimeRef w) arrival) as Hr.
      split; [|split; [exact Hn|split]].
      * rewrite Htr, !stopped_sources_app, D, A. reflexivity.
      * rewrite Hn. lra.
      * intros _ Hne. rewrite Hn.
        assert (0 < duration audioBuffer)%Q.
        { destruct audioBuffer as [|x l]; [now elim Hne|].
          unfold duration, Qlt. cbn. lia. }
        lra.
  - destruct (plain_turn w cl arrival resumption message
                (Returned audioBuffer) Hw Hb) as (Htr & Hn & Hs & Hsp).
    split; intros Hi; rewrite Hi in Htr, Hn, Hs, Hsp.
    + repeat split; try assumption.
      rewrite Htr, !stopped_sources_app, D, A.
      now rewrite stopped_sources_stops, app_nil_r.
    + split; [|split; [exact Hn|split]].
      * rewrite Htr, !stopped_sources_app, D, A. reflexivity.
      * rewrite Hn. apply Qle_refl.
      * intros Hne. now elim Hne.
Qed.

Lemma interruption_resets_playback_witness :
  let w := onmessage first_session 0 0 audio_message
                     (Returned (silence 2400)) connected_hook in
  let w' := onmessage first_session (1 # 20) (1 # 20) interruption_message
                      (Returned []) w in
  reachable w
  /\ (interrupted interruption_message = true ->
      stopped_sources (emitted w w')
      = match base64Audio interruption_message with
        | Some _ => set_add (sourcesRef w) (fresh w)
        | None => sourcesRef w
        end
      /\ sourcesRef w' = []
      /\ isMimiSpeaking w' = false
      /\ nextStartTimeRef w'
         = match base64Audio interruption_message with
           | Some _ => 1 # 20
           | None => 1 # 20
           end)
  /\ (interrupted interruption_message = false ->
      stopped_sources (emitted w w') = []
      /\ nextStartTimeRef w'
         = match base64Audio interruption_message with
           | Some _ => (Qmax (nextStartTimeRef w) (1 # 20) + duration [])%Q
           | None => nextStartTimeRef w
           end
      /\ (nextStartTimeRef w <= nextStartTimeRef w')%Q
      /\ (base64Audio interruption_message <> None -> @nil Q <> [] ->
          (1 # 20 < nextStartTimeRef w')%Q)).
Proof.
  intros w w'.
  assert (H : reachable w).
  { reached_by [CallConnect 0; MicrophoneAnswers 0 1 true;
                Open first_session; SessionSettles 3 true;
                Message 0 audio_message;
                Decoded first_session 0 audio_message
                        (Returned (silence 2400))]. }
  split; [exact H|].
  exact (interruption_resets_playback w first_session (1 # 20) (1 # 20)
           interruption_message [] H).
Defined.

(** A message with audio whose chunk fails to decode: the handler ends at
    the failure, whatever the message says after it. *)
Lemma failed_chunk_turns (w : World) (cl : Closure) (arrival resumption : Q)
    (message : LiveServerMessage) (b64 e : string) :
  reachable w -> base64Audio message = Some b64 ->
  let w' := onmessage cl arrival resumption message (Thrown e) w in
  emitted w w'
  = flat_map (dispatch_effects (onEvaluationRef w)) (evaluations message)
    ++ map reaction_effect (queued_acknowledgements message w)
  /\ nextStartTimeRef w' = Qmax (nextStartTimeRef w) arrival
  /\ sourcesRef w' = sourcesRef w
  /\ isMimiSpeaking w' = true.
Proof.
  intros Hw Hb. destruct (reachable_invariant w Hw) as [Hmt Hst].
  unfold onmessage, task.
  rewrite onmessage_before_await_returns, Hb by exact Hst.
  cbv beta iota zeta. unfold onmessage_after_await, throw. cbn [snd].
  clear Hw Hst.
  destruct_world w. cbn [microtasks] in Hmt. subst mt.
  unfold tool_calls_handled.
  cbn [nextStartTimeRef sourcesRef fresh onEvaluationRef].
  set (acks := queued_acknowledgements message _).
  set (waits := waiting_acknowledgements message _).
  rewrite !drain_eq; run_hook; cbn [map app];
    rewrite ?app_nil_r; (split; [|repeat split]);
    apply emitted_app; cbn [trace]; rewrite <- ?app_assoc; reflexivity.
Qed.

(** C6. An interruption is lost when its message also carries a chunk that
    fails to decode.  With one source playing (handle 6, speaking, cursor at
    1/10), a message with [interrupted = true] and an undecodable payload
    arrives at clock 1/20: no source is stopped, handle 6 stays in the
    active set, the speaking flag stays true and [nextStartTime] stays at
    1/10 instead of the clock.  The same interruption without the payload,
    in the same state, stops handle 6, empties the set, clears the flag and
    resets [nextStartTime] to 1/20. *)
Theorem interruption_lost_when_decode_fails :
  let w := onmessage first_session 0 0 audio_message
                     (Returned (silence 2400)) connected_hook in
  let lost := onmessage first_session (1 # 20) (1 # 20)
                        undecodable_interrupted_message
                        (Thrown "DecodeError") w in
  let handled := step w (Message (1 # 20) interruption_message) in
  reachable w
  /\ interrupted undecodable_interrupted_message = true
  /\ (sourcesRef w = [6%nat] /\ isMimiSpeaking w = true
      /\ (nextStartTimeRef w == 1 # 10)%Q)
  /\ (stopped_sources (emitted w lost) = []
      /\ sourcesRef lost = [6%nat]
      /\ isMimiSpeaking lost = true
      /\ (nextStartTimeRef lost == 1 # 10)%Q)
  /\ (stopped_sources (emitted w handled) = [6%nat]
      /\ sourcesRef handled = []
      /\ isMimiSpeaking handled = false
      /\ (nextStartTimeRef handled == 1 # 20)%Q).
Proof.
  intros w lost handled.
  split; [apply reachable_onmessage, reachable_connected_hook|].
  vm_compute. repeat split.
Qed.

(** The scenario of the spec, with one chunk queued: the interruption
    stops it, empties the set, drops the flag and puts the cursor at the
    clock (0.05 s) instead of the end of the chunk (0.1 s). *)
Example interruption_scenario :
  let w := onmessage first_session 0 0 audio_message
                     (Returned (silence 2400)) connected_hook in
  let w' := step w (Message (1 # 20) interruption_message) in
  sourcesRef w = [6%nat] /\ isMimiSpeaking w = true
  /\ nextStartTimeRef w = (0 + (2400 # 24000))%Q
  /\ emitted w w' = [SourceStop 6]
  /\ sourcesRef w' = [] /\ isMimiSpeaking w' = false
  /\ nextStartTimeRef w' = 1 # 20.
Proof. vm_compute. repeat split. Qed.

(** C10. A message that carries both an audio chunk and an interruption:
    the chunk is scheduled first, on a new source, and the interruption then
    stops every active handle, the new one included; afterwards the active
    set is empty, the speaking flag false and [nextStartTime] the playback
    clock of the turn that handled the interruption. *)
Theorem chunk_then_interruption (w : World) (cl : Closure)
    (arrival resumption : Q) (message : LiveServerMessage) (b64 : string)
    (audioBuffer : list Q) :
  reachable w ->
  base64Audio message = Some b64 -> interrupted message = true ->
  let w' := onmessage cl arrival resumption message (Returned audioBuffer) w in
  (exists before,
     emitted w w'
     = before
       ++ [CreateBufferSource (fresh w) (outputCtx cl);
           NodeConnect (fresh w) (ToContextDestination (outputCtx cl));
           SourceStart (fresh w) (Qmax (nextStartTimeRef w) arrival)]
       ++ map SourceStop (set_add (sourcesRef w) (fresh w))
     /\ Forall (fun e => is_dispatcher_effect e = true) before)
  /\ In (SourceStop (fresh w))
        (map SourceStop (set_add (sourcesRef w) (fresh w)))
  /\ sourcesRef w' = []
  /\ isMimiSpeaking w' = false
  /\ nextStartTimeRef w' = resumption.
Proof.
  intros Hw Hb Hi w'. subst w'.
  destruct (chunk_turns w cl arrival resumption message b64 audioBuffer
              Hw Hb) as (Htr & Hn & Hs & Hsp).
  rewrite Hi in Htr, Hn, Hs, Hsp.
  split; [|repeat split; try assumption].
  - exists (flat_map (dispatch_effects (onEvaluationRef w))
                     (evaluations message)
            ++ map reaction_effect (queued_acknowledgements message w)).
    split.
    + rewrite Htr, <- !app_assoc. reflexivity.
    + apply Forall_app. split.
      * apply dispatch_effects_are_dispatcher.
      * apply queued_acknowledgements_are_dispatcher.
  - apply in_map. unfold set_add.
    destruct (existsb (Nat.eqb (fresh w)) (sourcesRef w)) eqn:E.
    + apply existsb_exists in E. destruct E as (x & Hx & Ex).
      apply Nat.eqb_eq in Ex. now subst x.
    + apply in_or_app. right. now left.
Qed.

Lemma chunk_then_interruption_witness :
  let w := connected_hook in
  let w' := onmessage first_session 0 (1 # 20) audio_interrupted_message
                      (Returned (silence 2400)) w in
  reachable w
  /\ base64Audio audio_interrupted_message = Some "AAAA"%string
  /\ interrupted audio_interrupted_message = true
  /\ (exists before,
        emitted w w'
        = before
          ++ [CreateBufferSource (fresh w) (outputCtx first_session);
              NodeConnect (fresh w)
                (ToContextDestination (outputCtx first_session));
              SourceStart (fresh w) (Qmax (nextStartTimeRef w) 0)]
          ++ map SourceStop (set_add (sourcesRef w) (fresh w))
        /\ Forall (fun e => is_dispatcher_effect e = true) before)
  /\ In (SourceStop (fresh w))
        (map SourceStop (set_add (sourcesRef w) (fresh w)))
  /\ sourcesRef w' = []
  /\ isMimiSpeaking w' = false
  /\ nextStartTimeRef w' = 1 # 20.
Proof.
  intros w w'.
  assert (H : reachable w).
  { reached_by [CallConnect 0; MicrophoneAnswers 0 1 true; Open first_session;
                SessionSettles 3 true]. }
  split; [exact H|].
  split; [reflexivity|]. split; [reflexivity|].
  exact (chunk_then_interruption w first_session 0 (1 # 20)
           audio_interrupted_message "AAAA" (silence 2400)
           H eq_refl eq_refl).
Defined.

(** ** Stale callbacks *)

(** C4 (as amended). The hook has no stale-session guard.  The continuation
    of [onmessage] after the decode applies its effects whatever the state
    of the hook and whichever session the callback belongs to: it creates
    and starts a source at [nextStartTime], advances [nextStartTime] by the
    chunk's duration and adds the handle to the active set.  The capture
    callback tests only that [sessionPromiseRef] is set when the frame is
    captured, and hangs the send on the promise that is in the ref then; with
    the ref empty it sends nothing. *)
Theorem callbacks_do_not_revalidate (w : World) (cl : Closure) (now : Q)
    (calls : option (list FunctionCall)) (payload : option string)
    (audioBuffer : list Q) (sqrt : Q -> Q) (inputData : list Q) :
  let resumed :=
    onmessage_after_await cl now (mkMessage calls payload false)
                          (Returned audioBuffer) w in
  let captured := snd (onaudioprocess sqrt inputData w) in
  (fst resumed = Returned tt
   /\ emitted w (snd resumed)
      = [CreateBufferSource (fresh w) (outputCtx cl);
         NodeConnect (fresh w) (ToContextDestination (outputCtx cl));
         SourceStart (fresh w) (nextStartTimeRef w)]
   /\ nextStartTimeRef (snd resumed)
      = (nextStartTimeRef w + duration audioBuffer)%Q
   /\ sourcesRef (snd resumed) = set_add (sourcesRef w) (fresh w))
  /\ trace captured = trace w
  /\ match sessionPromiseRef w with
     | None =>
         microtasks captured = microtasks w
         /\ reactions captured = reactions w
     | Some p =>
         match settled p (promises w) with
         | Some true =>
             microtasks captured
             = microtasks w ++ [(p, SendFrame (createBlob inputData))]
         | Some false =>
             microtasks captured = microtasks w
             /\ reactions captured = reactions w
         | None =>
             reactions captured
             = reactions w ++ [(p, SendFrame (createBlob inputData))]
         end
     end.
Proof.
  intros resumed captured. subst resumed captured.
  destruct_world w.
  unfold onmessage_after_await, handleInterruption, onaudioprocess.
  cbn [interrupted sessionPromiseRef promises microtasks reactions fresh
       nextStartTimeRef sourcesRef].
  split; [|split].
  - run_hook. repeat split.
    apply emitted_app. cbn [trace]. rewrite <- !app_assoc. reflexivity.
  - destruct sess as [p|]; run_hook;
      [destruct (settled p pr) as [[|]|]|]; reflexivity.
  - destruct sess as [p|]; run_hook;
      [destruct (settled p pr) as [[|]|]|]; repeat split.
Qed.

(** C4 (counterexample). A chunk arrives, [disconnect()] runs while it is
    being decoded, and the continuation resumes: on the torn-down hook (no
    current session, close called, active set empty) it starts a source, puts
    it in the active set and moves [nextStartTime]. *)
Lemma stale_chunk_is_scheduled :
  let w1 := step connected_hook (Message 0 audio_message) in
  let w2 := step w1 CallDisconnect in
  let w3 := step w2 (Decoded first_session (1 # 2) audio_message
                             (Returned (silence 2400))) in
  is_current first_session w1
  /\ ~ is_current first_session w2
  /\ connectionState w2 = DISCONNECTED
  /\ close_called (session first_session) (trace w2) = true
  /\ sourcesRef w2 = []
  /\ sourcesRef w3 = [6%nat]
  /\ emitted w2 w3
     = [CreateBufferSource 6 1; NodeConnect 6 (ToContextDestination 1);
        SourceStart 6 0]
  /\ ~ (nextStartTimeRef w3 == nextStartTimeRef w2)%Q.
Proof.
  unfold is_current. vm_compute. repeat split; discriminate.
Qed.


(* ================================================================== *)
(** * Part III: more of the code *)
(* ================================================================== *)

(** ** Relations the handlers respect *)

Section Respects.

Variable R : World -> World -> Prop.
Hypothesis R_refl : forall w, R w w.
Hypothesis R_trans : forall w1 w2 w3, R w1 w2 -> R w2 w3 -> R w1 w3.

Lemma respects_ret {A : Type} (a : A) : respects R (ret a).
Proof. intros w. apply R_refl. Qed.

Lemma respects_throw {A : Type} (e : string) : respects R (@throw A e).
Proof. intros w. apply R_refl. Qed.

Lemma respects_read {A : Type} (f : World -> A) : respects R (read f).
Proof. intros w. apply R_refl. Qed.

Lemma respects_bind {A B : Type} (m : M A) (k : A -> M B) :
  respects R m -> (forall a, respects R (k a)) -> respects R (bind m k).
Proof.
  intros Hm Hk w. unfold bind. specialize (Hm w).
  destruct (m w) as [[a|e] w1]; cbn [snd] in *; [|exact Hm].
  eapply R_trans; [exact Hm|apply Hk].
Qed.

Lemma respects_try_catch {A : Type} (body : M A) (handler : string -> M A) :
  respects R body -> (forall e, respects R (handler e)) ->
  respects R (try_catch body handler).
Proof.
  intros Hm Hk w. unfold try_catch. specialize (Hm w).
  destruct (body w) as [[a|e] w1]; cbn [snd] in *; [exact Hm|].
  eapply R_trans; [exact Hm|apply Hk].
Qed.

Lemma respects_when_ref {A : Type} (ref : World -> option A)
    (body : A -> M unit) :
  (forall x, respects R (body x)) -> respects R (when_ref ref body).
Proof.
  intros H. unfold when_ref. apply respects_bind; [apply respects_read|].
  intros [x|]; [apply H|apply respects_ret].
Qed.

Lemma respects_forEach {A : Type} (l : list A) (f : A -> M unit) :
  (forall x, respects R (f x)) -> respects R (forEach l f).
Proof.
  intros H. induction l as [|x l IH]; cbn [forEach].
  - apply respects_ret.
  - apply respects_bind; [apply H|intros _; exact IH].
Qed.

Lemma respects_write (f : World -> World) :
  (forall w, R w (f w)) -> respects R (write f).
Proof. intros H w. apply H. Qed.

Lemma respects_new_object :
  (forall w, R w (set_fresh (S (fresh w)) w)) -> respects R new_object.
Proof. intros H w. apply H. Qed.

Lemma respects_after {A : Type} (h : M A) (w : World) :
  respects R h -> (forall w0, R w0 (drain w0)) -> R w (after h w).
Proof.
  intros H Hd. unfold after, task. specialize (H w).
  destruct (h w) as [r w1]. cbn [snd] in *.
  eapply R_trans; [exact H|apply Hd].
Qed.

End Respects.

(** Walks through a handler down to its writes; [leaf] settles what a
    single write does. *)
Ltac respects_walk refl trans leaf :=
  repeat first
    [ apply (respects_bind _ trans); [|intros ?]
    | apply (respects_try_catch _ trans); [|intros ?]
    | apply (respects_when_ref _ refl trans); intros ?
    | apply (respects_forEach _ refl trans); intros ?
    | apply (respects_ret _ refl)
    | apply (respects_throw _ refl)
    | apply (respects_read _ refl)
    | apply respects_new_object; intros ?; solve [leaf]
    | apply respects_write; intros ?; solve [leaf]
    | match goal with
      | |- respects _ (if ?b then _ else _) => destruct b
      | |- respects _ (match ?o with Some _ => _ | None => _ end) =>
          destruct o
      end
    | progress unfold emit, newAudioContext, source_stop, promise_then,
        setConnectionState, setIsMimiSpeaking, setVolume, getUserMedia,
        connect_catch, disconnect, reportEvaluation, handleToolCalls,
        handleInterruption ].


Lemma unchanged_refl {B : Type} (f : World -> B) (w : World) :
  unchanged f w w.
Proof. reflexivity. Qed.

Lemma unchanged_trans {B : Type} (f : World -> B) (w1 w2 w3 : World) :
  unchanged f w1 w2 -> unchanged f w2 w3 -> unchanged f w1 w3.
Proof. unfold unchanged. congruence. Qed.

Lemma unchanged_drain {B : Type} (f : World -> B) :
  (forall tr w, f (set_trace tr (set_microtasks [] w)) = f w) ->
  forall w, unchanged f w (drain w).
Proof. intros H w. unfold unchanged. rewrite drain_eq. apply H. Qed.

Ltac keeps_leaf :=
  unfold unchanged;
  repeat match goal with
         | |- context [match ?x with _ => _ end] => destruct x
         end;
  reflexivity.

(** The handler leaves the field [f] alone. *)
Ltac keeps f :=
  respects_walk (unchanged_refl f) (unchanged_trans f) keeps_leaf.

(** ** The connection state *)

Lemma connectionState_onaudioprocess (sqrt : Q -> Q) (inputData : list Q) :
  respects (unchanged connectionState) (onaudioprocess sqrt inputData).
Proof. unfold onaudioprocess. keeps connectionState. Qed.

Lemma connectionState_onmessage_before_await (now : Q)
    (message : LiveServerMessage) :
  respects (unchanged connectionState) (onmessage_before_await now message).
Proof. unfold onmessage_before_await. keeps connectionState. Qed.

Lemma connectionState_onmessage_after_await (cl : Closure) (now : Q)
    (message : LiveServerMessage) (audioBuffer : Outcome (list Q)) :
  respects (unchanged connectionState)
           (onmessage_after_await cl now message audioBuffer).
Proof.
  unfold onmessage_after_await. destruct audioBuffer; keeps connectionState.
Qed.

Lemma connectionState_onended (source : nat) :
  respects (unchanged connectionState) (onended source).
Proof. unfold onended. keeps connectionState. Qed.

Lemma connectionState_after {A : Type} (h : M A) (w : World) :
  respects (unchanged connectionState) h ->
  connectionState (after h w) = connectionState w.
Proof.
  intros H.
  apply (respects_after _ (unchanged_trans connectionState) h w H).
  apply unchanged_drain. reflexivity.
Qed.

Lemma connectionState_settle (p : nat) (ok : bool) (w : World) :
  connectionState (settle p ok w) = connectionState w.
Proof.
  unfold settle. destruct (settled p (promises w)); [reflexivity|].
  destruct ok; [rewrite drain_eq|]; reflexivity.
Qed.

Lemma connectionState_connect_before_await (now : Q) (w : World) :
  connectionState (step w (CallConnect now)) = CONNECTING.
Proof.
  cbn [step]. unfold after, task, connect_before_await.
  destruct_world w. run_hook. now rewrite drain_eq.
Qed.

Lemma connectionState_microphone_granted (i o : nat) (w : World) :
  connectionState (step w (MicrophoneAnswers i o true)) = connectionState w.
Proof.
  cbn [step]. unfold after, task, connect_after_await.
  destruct_world w. run_hook. now rewrite drain_eq.
Qed.

Lemma connectionState_disconnect (w : World) :
  reachable w -> connectionState (after disconnect w) = DISCONNECTED.
Proof.
  intros Hw. destruct (reachable_invariant w Hw) as [_ Hst].
  unfold after. rewrite (after_disconnect w Hst). now rewrite drain_eq.
Qed.

Lemma connectionState_onopen (cl : Closure) (w : World) :
  connectionState (after (onopen cl) w) = CONNECTED.
Proof.
  unfold after, task, onopen. destruct_world w. run_hook.
  now rewrite drain_eq.
Qed.

(** X1. The transitions of the connection state.  In any state the hook
    can be in, one turn of the event loop moves the state to CONNECTING only
    when it is a call of [connect()], to CONNECTED only when it is [onopen],
    to ERROR only when it is [onerror], and to DISCONNECTED only when it is
    [disconnect()], [onclose] or a refused microphone. *)
Theorem connection_state_transitions (w : World) (e : Event) :
  reachable w ->
  connectionState (step w e) <> connectionState w ->
  match connectionState (step w e) with
  | CONNECTING => exists now, e = CallConnect now
  | CONNECTED => exists cl, e = Open cl
  | ERROR => e = Error
  | DISCONNECTED =>
      e = CallDisconnect \/ e = Close
      \/ exists inputCtx outputCtx,
           e = MicrophoneAnswers inputCtx outputCtx false
  end.
Proof.
  intros Hw Hchange.
  destruct e as [now|i o granted| |p ok|cl|sqrt data|now m|cl now m buf|s| | |cb].
  - rewrite connectionState_connect_before_await. now exists now.
  - destruct granted.
    + now rewrite connectionState_microphone_granted in Hchange.
    + rewrite (microphone_denied i o w Hw). right. right. now exists i, o.
  - cbn [step]. rewrite (connectionState_disconnect w Hw). now left.
  - cbn [step] in Hchange. now rewrite connectionState_settle in Hchange.
  - cbn [step]. rewrite connectionState_onopen. now exists cl.
  - cbn [step] in Hchange.
    now rewrite (connectionState_after _ w
                   (connectionState_onaudioprocess sqrt data)) in Hchange.
  - cbn [step] in Hchange.
    now rewrite (connectionState_after _ w
                   (connectionState_onmessage_before_await now m)) in Hchange.
  - cbn [step] in Hchange.
    now rewrite (connectionState_after _ w
                   (connectionState_onmessage_after_await cl now m buf))
      in Hchange.
  - cbn [step] in Hchange.
    now rewrite (connectionState_after _ w (connectionState_onended s))
      in Hchange.
  - cbn [step]. unfold onclose.
    rewrite (connectionState_disconnect w Hw). right. now left.
  - cbn [step]. now rewrite (onerror_ends_in_error w Hw).
  - now cbn in Hchange.
Qed.

Lemma connection_state_transitions_witness :
  reachable connected_hook
  /\ connectionState (step connected_hook Error)
     <> connectionState connected_hook
  /\ match connectionState (step connected_hook Error) with
     | CONNECTING => exists now, Error = CallConnect now
     | CONNECTED => exists cl, Error = Open cl
     | ERROR => Error = Error
     | DISCONNECTED =>
         Error = CallDisconnect \/ Error = Close
         \/ exists inputCtx outputCtx,
              Error = MicrophoneAnswers inputCtx outputCtx false
     end.
Proof.
  assert (H : reachable connected_hook).
  { reached_by [CallConnect 0; MicrophoneAnswers 0 1 true;
                Open first_session; SessionSettles 3 true]. }
  assert (C : connectionState (step connected_hook Error)
              <> connectionState connected_hook)
    by (vm_compute; discriminate).
  split; [exact H|]. split; [exact C|].
  exact (connection_state_transitions connected_hook Error H C).
Defined.


(** ** The end of a chunk *)

Lemma onended_returns (source : nat) (w : World) :
  onended source w
  = (Returned tt,
     let w1 := set_sourcesRef (set_delete (sourcesRef w) source) w in
     match set_delete (sourcesRef w) source with
     | [] => set_isMimiSpeaking false w1
     | _ => w1
     end).
Proof.
  unfold onended. destruct_world w. run_hook.
  destruct (set_delete srcs source); reflexivity.
Qed.

Lemma In_set_delete_iff (l : list nat) (x s : nat) :
  In s (set_delete l x) <-> In s l /\ s <> x.
Proof.
  unfold set_delete. rewrite filter_In. split; intros [H1 H2]; split; auto.
  - intros ->. now rewrite Nat.eqb_refl in H2.
  - apply negb_true_iff, Nat.eqb_neq. auto.
Qed.

Lemma sourcesRef_drain (w : World) : sourcesRef (drain w) = sourcesRef w.
Proof. now rewrite drain_eq. Qed.

Lemma isMimiSpeaking_drain (w : World) :
  isMimiSpeaking (drain w) = isMimiSpeaking w.
Proof. now rewrite drain_eq. Qed.

Lemma step_ended (w : World) (source : nat) :
  sourcesRef (step w (Ended source)) = set_delete (sourcesRef w) source
  /\ isMimiSpeaking (step w (Ended source))
     = match set_delete (sourcesRef w) source with
       | [] => false
       | _ => isMimiSpeaking w
       end.
Proof.
  cbn [step]. unfold after, task. rewrite onended_returns. cbn [snd].
  rewrite sourcesRef_drain, isMimiSpeaking_drain.
  destruct (set_delete (sourcesRef w) source); split; reflexivity.
Qed.

(** X2. When a source ends it leaves the active set and every other
    handle stays; the speaking flag is cleared when that leaves the set
    empty and is left as it was otherwise.  An [ended] that comes late, for a
    source no longer in the set, changes the flag only if nothing is
    playing. *)
Theorem ended_source_leaves_the_set (w : World) (source : nat) :
  let w' := step w (Ended source) in
  (forall s, In s (sourcesRef w') <-> In s (sourcesRef w) /\ s <> source)
  /\ (sourcesRef w' = [] -> isMimiSpeaking w' = false)
  /\ (sourcesRef w' <> [] -> isMimiSpeaking w' = isMimiSpeaking w).
Proof.
  destruct (step_ended w source) as [Hs Hf]. cbv zeta. rewrite Hs, Hf.
  split; [intros s; apply In_set_delete_iff|].
  destruct (set_delete (sourcesRef w) source); split;
    congruence || reflexivity.
Qed.

Lemma sourcesRef_run_ended (sources : list nat) (w : World) :
  forall s, In s (sourcesRef (run (map Ended sources) w))
            <-> In s (sourcesRef w) /\ ~ In s sources.
Proof.
  revert w. induction sources as [|x l IH]; intros w s.
  - cbn. tauto.
  - cbn [map run fold_left]. fold (run (map Ended l) (step w (Ended x))).
    rewrite IH.
    destruct (step_ended w x) as [H _]. rewrite H, In_set_delete_iff.
    cbn [In]. intuition congruence.
Qed.

(** X3. Once every handle of the active set has ended, in whatever order
    and whatever other [ended] events come with them, the set is empty and
    the speaking flag is false. *)
Theorem all_ended_stops_speaking (w : World) (sources : list nat) :
  sources <> [] ->
  (forall s, In s (sourcesRef w) -> In s sources) ->
  let w' := run (map Ended sources) w in
  sourcesRef w' = [] /\ isMimiSpeaking w' = false.
Proof.
  intros Hne Hall w'.
  assert (Hempty : sourcesRef w' = []).
  { destruct (sourcesRef w') as [|s l] eqn:E; [reflexivity|].
    assert (Hin : In s (sourcesRef w')) by (rewrite E; now left).
    apply sourcesRef_run_ended in Hin. destruct Hin as [Hs Hn].
    now elim Hn; apply Hall. }
  split; [exact Hempty|].
  subst w'.
  destruct (exists_last Hne) as (front & x & ->).
  rewrite map_app in *. unfold run in *. rewrite fold_left_app in *.
  cbn [map fold_left] in *.
  destruct (step_ended (fold_left step (map Ended front) w) x) as [Hs Hf].
  rewrite Hf. rewrite Hs in Hempty. now rewrite Hempty.
Qed.

Lemma all_ended_stops_speaking_witness :
  let w := play first_session
             [mkChunk 0 0 audio_message (silence 2400);
              mkChunk (1 # 20) (1 # 20) audio_message (silence 1200)]
             connected_hook in
  [7; 6]%nat <> []
  /\ (forall s, In s (sourcesRef w) -> In s [7; 6]%nat)
  /\ sourcesRef (run (map Ended [7; 6]%nat) w) = []
  /\ isMimiSpeaking (run (map Ended [7; 6]%nat) w) = false.
Proof.
  intros w.
  assert (H1 : [7; 6]%nat <> []) by discriminate.
  assert (H2 : forall s, In s (sourcesRef w) -> In s [7; 6]%nat).
  { vm_compute. tauto. }
  split; [exact H1|]. split; [exact H2|].
  exact (all_ended_stops_speaking w [7; 6]%nat H1 H2).
Defined.

(** ** The transport fails *)

Lemma after_onerror (w : World) :
  reachable w ->
  after onerror w = set_connectionState ERROR (after disconnect w).
Proof.
  intros Hw. destruct (reachable_invariant w Hw) as [_ Hst].
  unfold after, task, onerror. unfold bind at 1.
  rewrite (disconnect_returns w Hst). unfold setConnectionState, write.
  cbn [snd]. rewrite !drain_eq. reflexivity.
Qed.

(** X4. A transport error, in any state the hook can be in, tears the
    session down (stream stopped, nodes disconnected, active handles stopped,
    close requested), empties every ref and the active set, clears the
    speaking flag and the volume, and leaves the state ERROR. *)
Theorem transport_error_tears_down (w : World) :
  reachable w ->
  let w' := step w Error in
  connectionState w' = ERROR
  /\ torn_down w w'
  /\ emitted w w' = emitted w (step w CallDisconnect)
  /\ (mediaStreamRef w' = None /\ inputSourceRef w' = None
      /\ scriptProcessorRef w' = None /\ inputAudioContextRef w' = None
      /\ outputAudioContextRef w' = None /\ sessionPromiseRef w' = None)
  /\ sourcesRef w' = [] /\ isMimiSpeaking w' = false /\ volume w' = 0%Q.
Proof.
  intros Hw. cbn [step]. rewrite (after_onerror w Hw).
  destruct (reachable_invariant w Hw) as [_ Hst].
  pose proof (torn_down_by_disconnect w Hw) as Htd.
  split; [reflexivity|]. split; [exact Htd|]. split; [reflexivity|].
  unfold after. rewrite (after_disconnect w Hst). cbn [snd].
  rewrite drain_eq. repeat split.
Qed.

Lemma transport_error_tears_down_witness :
  reachable connected_hook
  /\ connectionState (step connected_hook Error) = ERROR
  /\ torn_down connected_hook (step connected_hook Error)
  /\ emitted connected_hook (step connected_hook Error)
     = emitted connected_hook (step connected_hook CallDisconnect)
  /\ (mediaStreamRef (step connected_hook Error) = None
      /\ inputSourceRef (step connected_hook Error) = None
      /\ scriptProcessorRef (step connected_hook Error) = None
      /\ inputAudioContextRef (step connected_hook Error) = None
      /\ outputAudioContextRef (step connected_hook Error) = None
      /\ sessionPromiseRef (step connected_hook Error) = None)
  /\ sourcesRef (step connected_hook Error) = []
  /\ isMimiSpeaking (step connected_hook Error) = false
  /\ volume (step connected_hook Error) = 0%Q.
Proof.
  assert (H : reachable connected_hook).
  { reached_by [CallConnect 0; MicrophoneAnswers 0 1 true;
                Open first_session; SessionSettles 3 true]. }
  split; [exact H|].
  exact (transport_error_tears_down connected_hook H).
Defined.


(** ** The capture callback *)

Lemma sum_squares_nonneg (inputData : list Q) (sum : Q) :
  (0 <= sum)%Q ->
  (0 <= fold_left (fun sum x => (sum + x * x)%Q) inputData sum)%Q.
Proof.
  revert sum. induction inputData as [|x l IH]; intros sum H; [exact H|].
  cbn [fold_left]. apply IH. nra.
Qed.

Lemma volume_onaudioprocess (sqrt : Q -> Q) (inputData : list Q) (w : World) :
  volume (step w (AudioProcess sqrt inputData))
  = Qmin (sqrt (fold_left (fun sum x => (sum + x * x)%Q) inputData 0
                / inject_Z (Z.of_nat (List.length inputData))) * 5)%Q 1.
Proof.
  cbn [step]. unfold after, task, onaudioprocess.
  destruct_world w. run_hook.
  destruct sess as [p|]; [destruct (settled p pr) as [[|]|]|];
    now rewrite drain_eq.
Qed.

Lemma volume_bounds (sqrt : Q -> Q) (inputData : list Q) (w : World) :
  (forall x, (0 <= x)%Q -> (0 <= sqrt x)%Q) ->
  (0 <= volume (step w (AudioProcess sqrt inputData)))%Q
  /\ (volume (step w (AudioProcess sqrt inputData)) <= 1)%Q.
Proof.
  intros Hsqrt. rewrite volume_onaudioprocess. split.
  - apply Q.min_glb; [|lra].
    assert (Hm : (0 <= fold_left (fun sum x => (sum + x * x)%Q) inputData 0
                       / inject_Z (Z.of_nat (List.length inputData)))%Q).
    { unfold Qdiv. apply Qmult_le_0_compat.
      - apply sum_squares_nonneg. lra.
      - apply Qinv_le_0_compat. unfold Qle. cbn. lia. }
    specialize (Hsqrt _ Hm). lra.
  - apply Q.le_min_r.
Qed.

(** X5. The volume the capture callback publishes for a frame that is not
    empty lies in [0,1], whatever the samples, out of range ones included;
    the square root is only asked not to be negative. *)
Theorem volume_in_unit_interval (sqrt : Q -> Q) (inputData : list Q)
    (w : World) :
  (forall x, (0 <= x)%Q -> (0 <= sqrt x)%Q) ->
  inputData <> [] ->
  (0 <= volume (step w (AudioProcess sqrt inputData)))%Q
  /\ (volume (step w (AudioProcess sqrt inputData)) <= 1)%Q.
Proof.
  intros Hsqrt _. now apply volume_bounds.
Qed.

Lemma volume_in_unit_interval_witness :
  (forall x, (0 <= x)%Q -> (0 <= (fun y : Q => y) x)%Q)
  /\ [1 # 2; -(3 # 2)]%Q <> []
  /\ (0 <= volume (step connected_hook
                        (AudioProcess (fun y => y) [1 # 2; -(3 # 2)]%Q)))%Q
  /\ (volume (step connected_hook
                   (AudioProcess (fun y => y) [1 # 2; -(3 # 2)]%Q)) <= 1)%Q.
Proof.
  assert (H : forall x, (0 <= x)%Q -> (0 <= (fun y : Q => y) x)%Q)
    by (intros x Hx; exact Hx).
  assert (N : [1 # 2; -(3 # 2)]%Q <> []) by discriminate.
  split; [exact H|]. split; [exact N|].
  exact (volume_in_unit_interval (fun y => y) [1 # 2; -(3 # 2)]%Q
           connected_hook H N).
Defined.

(** X6. The avatar's scale, computed from what the hook publishes after a
    capture callback on a frame that is not empty, lies between 1 and 1.5,
    and is 1 while the agent speaks. *)
Theorem avatar_scale_bounded (sqrt : Q -> Q) (inputData : list Q)
    (w : World) :
  (forall x, (0 <= x)%Q -> (0 <= sqrt x)%Q) ->
  inputData <> [] ->
  let w' := step w (AudioProcess sqrt inputData) in
  (1 <= avatarScale (isMimiSpeaking w') (volume w'))%Q
  /\ (avatarScale (isMimiSpeaking w') (volume w') <= 3 # 2)%Q
  /\ (isMimiSpeaking w' = true ->
      avatarScale (isMimiSpeaking w') (volume w') = 1%Q).
Proof.
  intros Hsqrt _ w'.
  destruct (volume_bounds sqrt inputData w Hsqrt) as [H0 H1].
  fold w' in H0, H1. unfold avatarScale, micScale.
  destruct (isMimiSpeaking w'); cbn [negb]; repeat split;
    try lra; try discriminate.
Qed.

Lemma avatar_scale_bounded_witness :
  let w' := step connected_hook
                 (AudioProcess (fun y => y) [1 # 2; -(3 # 2)]%Q) in
  (forall x, (0 <= x)%Q -> (0 <= (fun y : Q => y) x)%Q)
  /\ [1 # 2; -(3 # 2)]%Q <> []
  /\ (1 <= avatarScale (isMimiSpeaking w') (volume w'))%Q
  /\ (avatarScale (isMimiSpeaking w') (volume w') <= 3 # 2)%Q
  /\ (isMimiSpeaking w' = true ->
      avatarScale (isMimiSpeaking w') (volume w') = 1%Q).
Proof.
  intros w'.
  assert (H : forall x, (0 <= x)%Q -> (0 <= (fun y : Q => y) x)%Q)
    by (intros x Hx; exact Hx).
  assert (N : [1 # 2; -(3 # 2)]%Q <> []) by discriminate.
  split; [exact H|]. split; [exact N|].
  exact (avatar_scale_bounded (fun y => y) [1 # 2; -(3 # 2)]%Q
           connected_hook H N).
Defined.

Lemma audio_process_live (sqrt : Q -> Q) (inputData : list Q) (p : nat)
    (w : World) :
  reachable w -> live_session p w ->
  trace (step w (AudioProcess sqrt inputData))
  = trace w ++ [SendRealtimeInput p (createBlob inputData)]
  /\ live_session p (step w (AudioProcess sqrt inputData)).
Proof.
  intros Hw [Hp Hs]. destruct (reachable_invariant w Hw) as [Hmt _].
  cbn [step]. unfold after, task, onaudioprocess, live_session.
  destruct_world w. cbn [microtasks sessionPromiseRef promises] in *.
  subst mt sess. run_hook. rewrite Hs. run_hook.
  rewrite drain_eq. cbn. now rewrite Hs.
Qed.

(** X7. In a live session the frames the processor delivers are sent on
    the session one realtime input each, in the order captured, and nothing
    else is done to the collaborators. *)
Theorem frames_sent_in_capture_order (sqrt : Q -> Q) (frames : list (list Q))
    (p : nat) (w : World) :
  reachable w -> live_session p w ->
  emitted w (run (map (AudioProcess sqrt) frames) w)
  = map (fun inputData => SendRealtimeInput p (createBlob inputData)) frames.
Proof.
  intros Hw Hp. apply emitted_app.
  revert w Hw Hp. induction frames as [|f frames IH]; intros w Hw Hp.
  - cbn. now rewrite app_nil_r.
  - cbn [map run fold_left].
    fold (run (map (AudioProcess sqrt) frames)
              (step w (AudioProcess sqrt f))).
    destruct (audio_process_live sqrt f p w Hw Hp) as [Htr Hp'].
    rewrite IH; [|now apply reachable_step|exact Hp'].
    rewrite Htr, <- app_assoc. reflexivity.
Qed.

Lemma frames_sent_in_capture_order_witness :
  reachable connected_hook /\ live_session 3 connected_hook
  /\ emitted connected_hook
       (run (map (AudioProcess (fun y => y)) [[1 # 2]; [0; 1]; []]%Q)
            connected_hook)
     = map (fun inputData => SendRealtimeInput 3 (createBlob inputData))
           [[1 # 2]; [0; 1]; []]%Q.
Proof.
  assert (H : reachable connected_hook).
  { reached_by [CallConnect 0; MicrophoneAnswers 0 1 true;
                Open first_session; SessionSettles 3 true]. }
  assert (L : live_session 3 connected_hook) by (split; reflexivity).
  split; [exact H|]. split; [exact L|].
  exact (frames_sent_in_capture_order (fun y => y) [[1 # 2]; [0; 1]; []]%Q
           3 connected_hook H L).
Defined.

Lemma audio_process_idle (sqrt : Q -> Q) (inputData : list Q) (w : World) :
  reachable w -> sessionPromiseRef w = None ->
  trace (step w (AudioProcess sqrt inputData)) = trace w
  /\ sessionPromiseRef (step w (AudioProcess sqrt inputData)) = None
  /\ reactions (step w (AudioProcess sqrt inputData)) = reactions w.
Proof.
  intros Hw Hp. destruct (reachable_invariant w Hw) as [Hmt _].
  cbn [step]. unfold after, task, onaudioprocess.
  destruct_world w. cbn [microtasks sessionPromiseRef] in *.
  subst mt sess. run_hook. rewrite drain_eq. cbn.
  now rewrite app_nil_r.
Qed.

(** X8. Once [disconnect()] has run, the frames the processor may still
    deliver are dropped: nothing is sent and nothing is left waiting to be
    sent. *)
Theorem no_frame_sent_after_disconnect (sqrt : Q -> Q)
    (frames : list (list Q)) (w : World) :
  reachable w ->
  let w1 := step w CallDisconnect in
  let w2 := run (map (AudioProcess sqrt) frames) w1 in
  emitted w1 w2 = [] /\ reactions w2 = reactions w1.
Proof.
  intros Hw w1 w2.
  assert (Hw1 : reachable w1) by now apply reachable_step.
  assert (Hp1 : sessionPromiseRef w1 = None).
  { destruct (reachable_invariant w Hw) as [_ Hst].
    subst w1. cbn [step]. unfold after.
    rewrite (after_disconnect w Hst). cbn [snd]. now rewrite drain_eq. }
  subst w2. clearbody w1. clear w Hw.
  assert (G : trace (run (map (AudioProcess sqrt) frames) w1) = trace w1
              /\ reactions (run (map (AudioProcess sqrt) frames) w1)
                 = reactions w1).
  { revert w1 Hw1 Hp1. induction frames as [|f frames IH]; intros w Hw Hp.
    - split; reflexivity.
    - cbn [map run fold_left].
      fold (run (map (AudioProcess sqrt) frames)
                (step w (AudioProcess sqrt f))).
      destruct (audio_process_idle sqrt f w Hw Hp) as (Htr & Hp' & Hre).
      destruct (IH _ (reachable_step w _ Hw) Hp') as [I1 I2].
      split; congruence. }
  destruct G as [G1 G2]. split; [|exact G2].
  apply emitted_app. now rewrite G1, app_nil_r.
Qed.

Lemma no_frame_sent_after_disconnect_witness :
  let w1 := step connected_hook CallDisconnect in
  let w2 := run (map (AudioProcess (fun y => y)) [[1 # 2]; [0; 1]]%Q) w1 in
  reachable connected_hook
  /\ emitted w1 w2 = [] /\ reactions w2 = reactions w1.
Proof.
  intros w1 w2.
  assert (H : reachable connected_hook).
  { reached_by [CallConnect 0; MicrophoneAnswers 0 1 true;
                Open first_session; SessionSettles 3 true]. }
  split; [exact H|].
  exact (no_frame_sent_after_disconnect (fun y => y) [[1 # 2]; [0; 1]]%Q
           connected_hook H).
Defined.

(** ** The order of the teardown *)

(** X9. [disconnect()] releases the local resources at once and in this
    order: microphone stream, source node, processor, input context, active
    playback handles, output context.  The close of the session, although
    asked for first, is called after them when the session promise is
    fulfilled, and not in this turn when it is still pending. *)
Theorem disconnect_releases_in_order (w : World) :
  reachable w ->
  emitted w (step w CallDisconnect)
  = teardown_effects w
    ++ match sessionPromiseRef w with
       | Some p =>
           match settled p (promises w) with
           | Some true => [SessionClose p]
           | _ => []
           end
       | None => []
       end.
Proof.
  intros Hw. destruct (reachable_invariant w Hw) as [Hmt Hst].
  apply emitted_app. cbn [step]. unfold after.
  rewrite (after_disconnect w Hst). cbn [snd]. rewrite drain_eq.
  destruct_world w. cbn [microtasks] in Hmt. subst mt.
  unfold disconnected, close_request, promise_then, write.
  cbn [sessionPromiseRef promises trace].
  destruct sess as [p|]; [destruct (settled p pr) as [[|]|]|];
    run_hook; cbn [map app reaction_effect];
    rewrite <- ?app_assoc, ?app_nil_r; reflexivity.
Qed.

Lemma disconnect_releases_in_order_witness :
  reachable connected_hook
  /\ emitted connected_hook (step connected_hook CallDisconnect)
     = teardown_effects connected_hook
       ++ match sessionPromiseRef connected_hook with
          | Some p =>
              match settled p (promises connected_hook) with
              | Some true => [SessionClose p]
              | _ => []
              end
          | None => []
          end.
Proof.
  assert (H : reachable connected_hook).
  { reached_by [CallConnect 0; MicrophoneAnswers 0 1 true;
                Open first_session; SessionSettles 3 true]. }
  split; [exact H|].
  exact (disconnect_releases_in_order connected_hook H).
Defined.

Lemma filter_waits_on_app (p : nat) (l l' : list (nat * Reaction)) :
  filter (waits_on p) (l ++ l')
  = filter (waits_on p) l ++ filter (waits_on p) l'.
Proof. apply filter_app. Qed.

(** X10. A [disconnect()] made while the session promise is still pending
    defers the close: when the transport hands the session over, what was
    waiting on the promise runs in the order it was registered and the close
    is called last; when the promise is rejected nothing is called. *)
Theorem close_deferred_until_session_exists (w : World) (p : nat) :
  reachable w ->
  sessionPromiseRef w = Some p -> settled p (promises w) = None ->
  let w1 := step w CallDisconnect in
  emitted w1 (step w1 (SessionSettles p true))
  = map reaction_effect (filter (waits_on p) (reactions w))
    ++ [SessionClose p]
  /\ emitted w1 (step w1 (SessionSettles p false)) = [].
Proof.
  intros Hw Hp Hs w1. subst w1.
  destruct (reachable_invariant w Hw) as [Hmt Hst].
  cbn [step]. unfold after. rewrite (after_disconnect w Hst). cbn [snd].
  rewrite drain_eq.
  destruct_world w. cbn [microtasks sessionPromiseRef promises] in *.
  subst mt sess.
  unfold disconnected, close_request, promise_then, write, settle.
  cbn [sessionPromiseRef promises trace]. rewrite Hs. run_hook.
  cbn [map]. rewrite Hs.
  split; apply emitted_app.
  - rewrite drain_eq. run_hook. cbn [app].
    rewrite filter_waits_on_app, map_app. cbn [filter].
    change (waits_on p (p, CloseSession)) with (Nat.eqb p p).
    rewrite Nat.eqb_refl. cbn [map reaction_effect].
    rewrite !app_nil_r. reflexivity.
  - run_hook. now rewrite !app_nil_r.
Qed.

Lemma close_deferred_until_session_exists_witness :
  let w := run [CallConnect 0; MicrophoneAnswers 0 1 true] (init true) in
  let w1 := step w CallDisconnect in
  reachable w
  /\ sessionPromiseRef w = Some 3%nat
  /\ settled 3 (promises w) = None
  /\ emitted w1 (step w1 (SessionSettles 3 true))
     = map reaction_effect (filter (waits_on 3) (reactions w))
       ++ [SessionClose 3]
  /\ emitted w1 (step w1 (SessionSettles 3 false)) = [].
Proof.
  intros w w1.
  assert (H : reachable w).
  { reached_by [CallConnect 0; MicrophoneAnswers 0 1 true]. }
  split; [exact H|]. split; [reflexivity|]. split; [reflexivity|].
  exact (close_deferred_until_session_exists w 3 H eq_refl eq_refl).
Defined.


(** ** Chunks one after the other *)

Lemma emitted_split (w w1 w2 : World) :
  (exists t1, trace w1 = trace w ++ t1) ->
  (exists t2, trace w2 = trace w1 ++ t2) ->
  emitted w w2 = emitted w w1 ++ emitted w1 w2.
Proof.
  intros [t1 E1] [t2 E2].
  rewrite (emitted_app w w1 t1 E1), (emitted_app w1 w2 t2 E2).
  apply emitted_app. rewrite E2, E1. now rewrite app_assoc.
Qed.

Lemma grows_onmessage (w : World) (cl : Closure) (arrival resumption : Q)
    (message : LiveServerMessage) (audioBuffer : Outcome (list Q)) :
  grows w (onmessage cl arrival resumption message audioBuffer w).
Proof.
  unfold onmessage.
  pose proof (grows_step w (Message arrival message)) as H1.
  cbn [step] in H1. unfold after in H1.
  destruct (task (onmessage_before_await arrival message) w)
    as [[[b64|]|e] w1]; cbn [snd] in H1; try exact H1.
  eapply grows_trans; [exact H1|].
  apply (grows_step w1 (Decoded cl resumption message audioBuffer)).
Qed.

Lemma reachable_play (cl : Closure) (chunks : list Chunk) (w : World) :
  reachable w -> reachable (play cl chunks w).
Proof.
  revert w. induction chunks as [|c chunks IH]; intros w Hw; [exact Hw|].
  cbn [play fold_left]. apply IH. now apply reachable_onmessage.
Qed.

(** One plain chunk: where it starts and where it leaves the cursor. *)
Lemma plain_chunk_scheduled (w : World) (cl : Closure) (c : Chunk) :
  reachable w -> is_plain_chunk c ->
  let w1 := onmessage cl (arrival c) (resumption c) (message c)
                      (Returned (buffer c)) w in
  scheduled_starts (emitted w w1) = [Qmax (nextStartTimeRef w) (arrival c)]
  /\ nextStartTimeRef w1
     = (Qmax (nextStartTimeRef w) (arrival c) + duration (buffer c))%Q.
Proof.
  intros Hw [Hb Hi] w1. subst w1.
  destruct (base64Audio (message c)) as [b64|] eqn:E; [|now elim Hb].
  destruct (chunk_turns w cl (arrival c) (resumption c) (message c) b64
              (buffer c) Hw E) as (Htr & Hn & _).
  rewrite Hi in Htr, Hn. split; [|exact Hn].
  rewrite Htr, !scheduled_starts_app.
  destruct (dispatcher_leaves_playback_alone _
              (dispatch_effects_are_dispatcher (onEvaluationRef w)
                 (evaluations (message c)))) as [-> _].
  destruct (dispatcher_leaves_playback_alone _
              (queued_acknowledgements_are_dispatcher (message c) w))
    as [-> _].
  reflexivity.
Qed.

Lemma play_schedule (cl : Closure) (chunks : list Chunk) (w : World) :
  reachable w -> Forall is_plain_chunk chunks ->
  let starts := scheduled_starts (emitted w (play cl chunks w)) in
  List.length starts = List.length chunks
  /\ Forall (fun s => (nextStartTimeRef w <= s)%Q) starts
  /\ Forall2 (fun c s => (arrival c <= s)%Q) chunks starts
  /\ no_overlap (combine starts (map (fun c => duration (buffer c)) chunks))
  /\ (nextStartTimeRef w <= nextStartTimeRef (play cl chunks w))%Q
  /\ (exists t, trace (play cl chunks w) = trace w ++ t).
Proof.
  intros Hw Hall. revert w Hw.
  induction Hall as [|c chunks Hc _ IH]; intros w Hw.
  - cbn [play fold_left].
    assert (E : emitted w w = []) by (apply emitted_app; now rewrite app_nil_r).
    rewrite E. cbn. repeat split; try constructor.
    + apply Qle_refl.
    + exists []. now rewrite app_nil_r.
  - cbn [play fold_left].
    set (w1 := onmessage cl (arrival c) (resumption c) (message c)
                         (Returned (buffer c)) w).
    fold (play cl chunks w1).
    destruct (plain_chunk_scheduled w cl c Hw Hc) as [S1 N1].
    fold w1 in S1, N1.
    assert (Hw1 : reachable w1) by now apply reachable_onmessage.
    destruct (IH w1 Hw1) as (L & F & F2 & NO & M & [t2 T2]).
    destruct (grows_onmessage w cl (arrival c) (resumption c) (message c)
                (Returned (buffer c))) as [[t1 T1] _].
    fold w1 in T1.
    rewrite (emitted_split w w1 (play cl chunks w1));
      [|now exists t1|now exists t2].
    rewrite scheduled_starts_app, S1.
    set (starts := scheduled_starts (emitted w1 (play cl chunks w1))) in *.
    pose proof (Q.le_max_l (nextStartTimeRef w) (arrival c)) as Hl.
    pose proof (Q.le_max_r (nextStartTimeRef w) (arrival c)) as Hr.
    pose proof (duration_nonneg (buffer c)) as Hd.
    rewrite N1 in F, M.
    cbn [app List.length map combine].
    split; [now rewrite L|]. split; [|split; [|split; [|split]]].
    + constructor; [exact Hl|].
      eapply Forall_impl; [|exact F]. cbn. intros s Hs. lra.
    + constructor; [exact Hr|exact F2].
    + cbn [no_overlap]. split; [|exact NO].
      destruct starts as [|s2 starts']; [now cbn|].
      destruct chunks as [|c2 chunks']; [now cbn|].
      cbn [map combine]. now inversion F.
    + lra.
    + exists (t1 ++ t2). rewrite T2, T1. now rewrite app_assoc.
Qed.

(** X11. Audio messages that do not interrupt, handled one after the
    other from any state the hook can be in: one source is started per
    chunk, in the order of arrival; no chunk starts before the clock read at
    its arrival, nor before the chunk before it has played to its end; and
    [nextStartTime] never moves back. *)
Theorem chunks_never_overlap (cl : Closure) (chunks : list Chunk)
    (w : World) :
  reachable w -> Forall is_plain_chunk chunks ->
  let w' := play cl chunks w in
  let starts := scheduled_starts (emitted w w') in
  Forall2 (fun c s => (arrival c <= s)%Q) chunks starts
  /\ no_overlap (combine starts (map (fun c => duration (buffer c)) chunks))
  /\ (nextStartTimeRef w <= nextStartTimeRef w')%Q.
Proof.
  intros Hw Hall.
  destruct (play_schedule cl chunks w Hw Hall) as (_ & _ & F2 & NO & M & _).
  repeat split; assumption.
Qed.

Lemma chunks_never_overlap_witness :
  let chunks := [mkChunk 0 0 audio_message (silence 2400);
                 mkChunk (1 # 2) (1 # 2) audio_message (silence 1200);
                 mkChunk (11 # 20) (11 # 20) audio_message (silence 24)] in
  let w' := play first_session chunks connected_hook in
  let starts := scheduled_starts (emitted connected_hook w') in
  reachable connected_hook /\ Forall is_plain_chunk chunks
  /\ Forall2 (fun c s => (arrival c <= s)%Q) chunks starts
  /\ no_overlap (combine starts (map (fun c => duration (buffer c)) chunks))
  /\ (nextStartTimeRef connected_hook <= nextStartTimeRef w')%Q.
Proof.
  intros chunks w' starts.
  assert (H : reachable connected_hook).
  { reached_by [CallConnect 0; MicrophoneAnswers 0 1 true;
                Open first_session; SessionSettles 3 true]. }
  assert (P : Forall is_plain_chunk chunks).
  { repeat (apply Forall_cons;
            [split; [vm_compute; discriminate|reflexivity]|]).
    apply Forall_nil. }
  split; [exact H|]. split; [exact P|].
  exact (chunks_never_overlap first_session chunks connected_hook H P).
Defined.

Lemma onmessage_without_audio (w : World) (cl : Closure)
    (arrival resumption : Q) (message : LiveServerMessage)
    (audioBuffer : Outcome (list Q)) :
  reachable w -> base64Audio message = None ->
  onmessage cl arrival resumption message audioBuffer w
  = step w (Message arrival message).
Proof.
  intros Hw Hb. destruct (reachable_invariant w Hw) as [_ Hst].
  cbn [step]. unfold onmessage, after, task.
  rewrite onmessage_before_await_returns, Hb by exact Hst. reflexivity.
Qed.

(** X12. After an interruption the next chunk starts at the playback
    clock, whatever was queued before: the cursor left by the chunks the
    interruption stopped plays no part. *)
Theorem chunk_after_interruption_starts_now (w : World) (cl : Closure)
    (interruption : LiveServerMessage) (clock : Q) (c : Chunk) :
  reachable w ->
  base64Audio interruption = None -> interrupted interruption = true ->
  is_plain_chunk c -> (clock <= arrival c)%Q ->
  let w1 := step w (Message clock interruption) in
  let w2 := onmessage cl (arrival c) (resumption c) (message c)
                      (Returned (buffer c)) w1 in
  exists start,
    scheduled_starts (emitted w1 w2) = [start]
    /\ (start == arrival c)%Q
    /\ sourcesRef w2 = [fresh w1].
Proof.
  intros Hw Hb Hi Hc Hclock w1 w2.
  assert (Hw1 : reachable w1) by now apply reachable_step.
  destruct (plain_turn w cl clock clock interruption (Returned []) Hw Hb)
    as (_ & Hn & Hs & _).
  rewrite (onmessage_without_audio w cl clock clock interruption
             (Returned []) Hw Hb) in Hn, Hs.
  fold w1 in Hn, Hs. rewrite Hi in Hn, Hs.
  destruct (plain_chunk_scheduled w1 cl c Hw1 Hc) as [S1 _].
  fold w2 in S1.
  exists (Qmax (nextStartTimeRef w1) (arrival c)).
  split; [exact S1|]. split.
  - rewrite Hn. now apply Q.max_r.
  - destruct Hc as [Hcb Hci].
    destruct (base64Audio (message c)) as [b64|] eqn:E; [|now elim Hcb].
    destruct (chunk_turns w1 cl (arrival c) (resumption c) (message c) b64
                (buffer c) Hw1 E) as (_ & _ & Hs2 & _).
    fold w2 in Hs2. rewrite Hci, Hs in Hs2. exact Hs2.
Qed.

Lemma chunk_after_interruption_starts_now_witness :
  let w := play first_session
             [mkChunk 0 0 audio_message (silence 2400);
              mkChunk 0 0 audio_message (silence 2400);
              mkChunk 0 0 audio_message (silence 2400)] connected_hook in
  let c := mkChunk (1 # 10) (1 # 10) audio_message (silence 1200) in
  let w1 := step w (Message (1 # 20) interruption_message) in
  let w2 := onmessage first_session (arrival c) (resumption c) (message c)
                      (Returned (buffer c)) w1 in
  reachable w
  /\ base64Audio interruption_message = None
  /\ interrupted interruption_message = true
  /\ is_plain_chunk c
  /\ (1 # 20 <= arrival c)%Q
  /\ exists start,
       scheduled_starts (emitted w1 w2) = [start]
       /\ (start == arrival c)%Q
       /\ sourcesRef w2 = [fresh w1].
Proof.
  intros w c w1 w2.
  assert (H : reachable w).
  { reached_by [CallConnect 0; MicrophoneAnswers 0 1 true;
                Open first_session; SessionSettles 3 true;
                Message 0 audio_message;
                Decoded first_session 0 audio_message
                        (Returned (silence 2400));
                Message 0 audio_message;
                Decoded first_session 0 audio_message
                        (Returned (silence 2400));
                Message 0 audio_message;
                Decoded first_session 0 audio_message
                        (Returned (silence 2400))]. }
  assert (P : is_plain_chunk c)
    by (split; [vm_compute; discriminate|reflexivity]).
  assert (C : (1 # 20 <= arrival c)%Q) by (vm_compute; discriminate).
  split; [exact H|]. split; [reflexivity|]. split; [reflexivity|].
  split; [exact P|]. split; [exact C|].
  exact (chunk_after_interruption_starts_now w first_session
           interruption_message (1 # 20) c H eq_refl eq_refl P C).
Defined.


(** ** The application *)

Lemma includes_In (l : list string) (x : string) :
  includes l x = true <-> In x l.
Proof.
  unfold includes. rewrite existsb_exists. split.
  - intros (y & Hy & E). apply String.eqb_eq in E. now subst.
  - intros H. exists x. split; [exact H|apply String.eqb_refl].
Qed.

Lemma handleEvaluation_stars (isCorrect : bool) (topic : option string)
    (prev : UserProgress) :
  stars (handleEvaluation isCorrect topic prev)
  = stars prev + (if isCorrect then 1 else 0)
  /\ difficulty (handleEvaluation isCorrect topic prev) = difficulty prev.
Proof.
  unfold handleEvaluation. destruct isCorrect; cbn; split; lia || reflexivity.
Qed.

(** What one evaluation does to the completed topics: nothing, or one new
    topic at the end. *)
Lemma handleEvaluation_topics (isCorrect : bool) (topic : option string)
    (prev : UserProgress) :
  completedTopics (handleEvaluation isCorrect topic prev)
  = completedTopics prev
  \/ exists t,
       isCorrect = true /\ topic = Some t /\ t <> EmptyString
       /\ ~ In t (completedTopics prev)
       /\ completedTopics (handleEvaluation isCorrect topic prev)
          = completedTopics prev ++ [t].
Proof.
  unfold handleEvaluation. destruct isCorrect; [|now left].
  destruct topic as [[|a s]|]; cbn [completedTopics]; try now left.
  destruct (includes (completedTopics prev) (String a s)) eqn:E;
    cbn [negb]; [now left|].
  right. exists (String a s). repeat split; try discriminate.
  intros Hin. apply includes_In in Hin. congruence.
Qed.

Lemma app_run_snoc (events : list AppEvent) (e : AppEvent) (state : App) :
  app_run (events ++ [e]) state = app_step (app_run events state) e.
Proof. unfold app_run. now rewrite fold_left_app. Qed.

Lemma app_step_progress (state : App) (e : AppEvent) :
  stars (progress (app_step state e))
  = stars (progress state) + (if is_correct_evaluation e then 1 else 0)
  /\ (completedTopics (progress (app_step state e))
      = completedTopics (progress state)
      \/ exists t,
           e = Evaluated true (Some t) /\ t <> EmptyString
           /\ ~ In t (completedTopics (progress state))
           /\ completedTopics (progress (app_step state e))
              = completedTopics (progress state) ++ [t]).
Proof.
  destruct e as [level|t| |b t]; cbn [app_step is_correct_evaluation].
  - destruct (includes LEVELS level); cbn; split; try lia; now left.
  - unfold toggleTopic.
    destruct (includes (topic_buttons (difficulty (progress state))) t);
      [destruct (selectedTopic state) as [s|];
       [destruct (String.eqb s t)|]|];
      cbn; split; try lia; now left.
  - cbn. split; [lia|now left].
  - cbn [progress].
    destruct (handleEvaluation_stars b t (progress state)) as [Hs _].
    split; [rewrite Hs; now destruct b|].
    destruct (handleEvaluation_topics b t (progress state))
      as [H|(t' & -> & -> & Hne & Hnin & H)]; [now left|].
    right. exists t'. repeat split; assumption.
Qed.

(** X13. Whatever the user clicks and the agent reports, the stars grow by
    exactly the number of evaluations reported correct: a wrong answer, a
    change of level and a choice of topic cost and earn nothing.  The count
    is to stay among the integers a double holds exactly, from the stars at
    the start to the stars at the end. *)
Theorem stars_count_correct_answers (events : list AppEvent) (state : App) :
  exact_integers
    (stars (progress state))
    (stars (progress state)
     + Z.of_nat (List.length (filter is_correct_evaluation events))) ->
  stars (progress (app_run events state))
  = stars (progress state)
    + Z.of_nat (List.length (filter is_correct_evaluation events)).
Proof.
  intros _.
  induction events as [|e events IH] using rev_ind.
  - cbn. lia.
  - rewrite app_run_snoc, filter_app, length_app, Nat2Z.inj_add.
    destruct (app_step_progress (app_run events state) e) as [Hs _].
    rewrite Hs, IH. cbn [filter]. destruct (is_correct_evaluation e); cbn; lia.
Qed.

Lemma stars_count_correct_answers_witness :
  let events := [Evaluated true (Some "Colors"%string); ClickLevel "Medium";
                 Evaluated false None; Evaluated true None] in
  exact_integers
    (stars (progress (mount None)))
    (stars (progress (mount None))
     + Z.of_nat (List.length (filter is_correct_evaluation events)))
  /\ stars (progress (app_run events (mount None)))
     = stars (progress (mount None))
       + Z.of_nat (List.length (filter is_correct_evaluation events)).
Proof.
  intros events.
  assert (H : exact_integers
                (stars (progress (mount None)))
                (stars (progress (mount None))
                 + Z.of_nat
                     (List.length (filter is_correct_evaluation events))))
    by (unfold exact_integers; cbn; lia).
  split; [exact H|].
  exact (stars_count_correct_answers events (mount None) H).
Defined.

(** X14. The completed topics only ever grow at the end, one topic at a
    time; every topic that joins them was reported with a correct answer, is
    not the empty string and was not among them, so a list without
    duplicates stays without duplicates. *)
Theorem completed_topics_grow_without_duplicates (events : list AppEvent)
    (state : App) :
  NoDup (completedTopics (progress state)) ->
  let before := completedTopics (progress state) in
  let after_ := completedTopics (progress (app_run events state)) in
  NoDup after_
  /\ exists added,
       after_ = before ++ added
       /\ Forall (fun t => In (Evaluated true (Some t)) events
                           /\ t <> EmptyString) added.
Proof.
  intros Hnd before after_. subst before after_.
  induction events as [|e events IH] using rev_ind.
  - split; [exact Hnd|]. exists []. split; [now rewrite app_nil_r|constructor].
  - rewrite app_run_snoc.
    destruct IH as (IHnd & added & IHeq & IHall).
    assert (IHall' : Forall (fun t => In (Evaluated true (Some t))
                                         (events ++ [e])
                                      /\ t <> EmptyString) added).
    { eapply Forall_impl; [|exact IHall]. cbn. intros t [H1 H2].
      split; [apply in_or_app; now left|exact H2]. }
    destruct (app_step_progress (app_run events state) e)
      as [_ [H|(t & -> & Hne & Hnin & H)]]; rewrite H.
    + split; [exact IHnd|]. now exists added.
    + split.
      * apply NoDup_app; [exact IHnd|repeat constructor; intros []|].
        intros x Hx [<-|[]]. contradiction.
      * exists (added ++ [t]). split; [now rewrite IHeq, app_assoc|].
        apply Forall_app. split; [exact IHall'|].
        constructor; [|constructor].
        split; [apply in_or_app; right; now left|exact Hne].
Qed.

Lemma completed_topics_grow_without_duplicates_witness :
  let state := mount None in
  let events := [Evaluated true (Some "Colors"%string); ClickMix;
                 Evaluated false (Some "Math"%string);
                 Evaluated true (Some "Colors"%string);
                 Evaluated true None;
                 Evaluated true (Some "Animals"%string)] in
  NoDup (completedTopics (progress state))
  /\ NoDup (completedTopics (progress (app_run events state)))
  /\ exists added,
       completedTopics (progress (app_run events state))
       = completedTopics (progress state) ++ added
       /\ Forall (fun t => In (Evaluated true (Some t)) events
                           /\ t <> EmptyString) added.
Proof.
  intros state events.
  assert (H : NoDup (completedTopics (progress state))) by constructor.
  split; [exact H|].
  exact (completed_topics_grow_without_duplicates events state H).
Defined.

(** X15. The focus topic [handleStart] passes to [connect] is always
    either none or one of the topics offered for the difficulty it passes
    with it, whatever was saved and whatever is clicked or reported. *)
Theorem focus_topic_belongs_to_level (saved : option UserProgress)
    (events : list AppEvent) :
  match handleStart (app_run events (mount saved)) with
  | (_, None) => True
  | (level, Some focusTopic) => In focusTopic (topic_buttons level)
  end.
Proof.
  unfold handleStart.
  induction events as [|e events IH] using rev_ind; [exact I|].
  rewrite app_run_snoc.
  set (state := app_run events (mount saved)) in *.
  destruct e as [level|t| |b t]; cbn [app_step].
  - destruct (includes LEVELS level); [exact I|exact IH].
  - destruct (includes (topic_buttons (difficulty (progress state))) t)
      eqn:E; [|exact IH].
    apply includes_In in E. unfold toggleTopic.
    destruct (selectedTopic state) as [s|];
      [destruct (String.eqb s t)|]; cbn; auto.
  - exact I.
  - cbn [progress selectedTopic].
    destruct (handleEvaluation_stars b t (progress state)) as [_ ->].
    exact IH.
Qed.

(** The "Things I know" list. *)
Lemma things_I_know_suffix (p : UserProgress) :
  exists older, completedTopics p = older ++ things_I_know p.
Proof.
  exists (firstn (List.length (completedTopics p) - 5) (completedTopics p)).
  unfold things_I_know. now rewrite firstn_skipn.
Qed.

(** X16. The "Things I know" list shows the last five completed topics,
    or all of them when there are fewer, in the order they were completed;
    its entries, which are also its React keys, are all different as long as
    the completed topics are. *)
Theorem things_I_know_shows_last_five (p : UserProgress) :
  NoDup (completedTopics p) ->
  List.length (things_I_know p)
  = Nat.min 5 (List.length (completedTopics p))
  /\ (exists older, completedTopics p = older ++ things_I_know p)
  /\ NoDup (things_I_know p).
Proof.
  intros Hnd. split; [|split].
  - unfold things_I_know. rewrite length_skipn. lia.
  - apply things_I_know_suffix.
  - destruct (things_I_know_suffix p) as [older E].
    rewrite E in Hnd. now apply NoDup_app_remove_l in Hnd.
Qed.

Lemma things_I_know_shows_last_five_witness :
  let p := mkProgress "Easy" 6
             ["a"; "b"; "c"; "d"; "e"; "f"]%string in
  NoDup (completedTopics p)
  /\ List.length (things_I_know p)
     = Nat.min 5 (List.length (completedTopics p))
  /\ (exists older, completedTopics p = older ++ things_I_know p)
  /\ NoDup (things_I_know p).
Proof.
  intros p.
  assert (H : NoDup (completedTopics p)).
  { repeat (constructor; [cbn; intuition discriminate|]). constructor. }
  split; [exact H|].
  exact (things_I_know_shows_last_five p H).
Defined.

(** ** The hook and the application together *)

Lemma callbacks_app (tr tr' : list Effect) :
  callbacks (tr ++ tr') = callbacks tr ++ callbacks tr'.
Proof. apply flat_map_app. Qed.

Lemma callbacks_dispatch (registered : bool) (fcs : list FunctionCall) :
  callbacks (flat_map (dispatch_effects registered) fcs)
  = if registered
    then map (fun fc => (isCorrect (args fc), topic (args fc))) fcs
    else [].
Proof.
  induction fcs as [|fc fcs IH]; [now destruct registered|].
  cbn [flat_map]. rewrite callbacks_app, IH.
  destruct registered; reflexivity.
Qed.

Lemma callbacks_none (tr : list Effect) :
  Forall (fun e => match e with OnEvaluation _ _ => False | _ => True end) tr ->
  callbacks tr = [].
Proof.
  induction 1 as [|e tr He _ IH]; [reflexivity|].
  destruct e; cbn; try exact IH. contradiction.
Qed.

(** What a message adds to the trace in its first turn, whatever the
    state of the session. *)
Lemma message_turn_trace_any (w : World) (now : Q)
    (message : LiveServerMessage) :
  reachable w ->
  emitted w (step w (Message now message))
  = flat_map (dispatch_effects (onEvaluationRef w)) (evaluations message)
    ++ match base64Audio message with
       | Some _ => []
       | None => if interrupted message
                 then map SourceStop (sourcesRef w) else []
       end
    ++ map reaction_effect (queued_acknowledgements message w).
Proof.
  intros Hw. destruct (reachable_invariant w Hw) as [Hmt Hst].
  apply emitted_app. cbn [step]. unfold after, task.
  rewrite onmessage_before_await_returns by exact Hst.
  destruct_world w. cbn [microtasks] in Hmt. subst mt.
  unfold tool_calls_handled, interruption_handled.
  cbn [onEvaluationRef sourcesRef].
  set (acks := queued_acknowledgements message _).
  set (waits := waiting_acknowledgements message _).
  destruct (base64Audio message), (interrupted message);
    cbn [snd]; rewrite drain_eq; run_hook;
    cbn [app]; rewrite <- ?app_assoc, ?app_nil_r; reflexivity.
Qed.

Lemma deliver_stars (cs : list (bool * option string)) (p : UserProgress) :
  stars (fold_left (fun p' c => handleEvaluation (fst c) (snd c) p') cs p)
  = stars p + Z.of_nat (List.length (filter fst cs)).
Proof.
  revert p. induction cs as [|[b t] cs IH]; intros p; [cbn; lia|].
  cbn [fold_left fst snd filter]. rewrite IH.
  destruct (handleEvaluation_stars b t p) as [-> _].
  destruct b; cbn [List.length]; lia.
Qed.

(** X17. The stars a message earns: with [handleEvaluation] registered
    as the callback, one star for every call of the message that is named
    [reportEvaluation] and reports a correct answer, whatever the state of
    the session; with no callback registered, none.  The count is to stay
    among the integers a double holds exactly. *)
Theorem message_earns_stars (w : World) (now : Q)
    (message : LiveServerMessage) (p : UserProgress) :
  reachable w ->
  exact_integers
    (stars p)
    (stars p + Z.of_nat (correct_answers (evaluations message))) ->
  stars (deliver (emitted w (step w (Message now message))) p)
  = stars p
    + (if onEvaluationRef w
       then Z.of_nat (correct_answers (evaluations message))
       else 0).
Proof.
  intros Hw _. unfold deliver. rewrite deliver_stars.
  rewrite (message_turn_trace_any w now message Hw), !callbacks_app.
  rewrite callbacks_dispatch.
  rewrite (callbacks_none (map reaction_effect _)).
  2:{ unfold queued_acknowledgements.
      destruct (sessionPromiseRef w) as [q|]; [|constructor].
      destruct (settled q (promises w)) as [[|]|]; try constructor.
      apply Forall_map, Forall_map, Forall_forall. intros fc _. exact I. }
  rewrite (callbacks_none (match base64Audio message with
                           | Some _ => [] | None => _ end)).
  2:{ destruct (base64Audio message); [constructor|].
      destruct (interrupted message); [|constructor].
      apply Forall_map, Forall_forall. intros s _. exact I. }
  rewrite !app_nil_r. f_equal.
  destruct (onEvaluationRef w); [|reflexivity].
  unfold correct_answers. f_equal.
  induction (evaluations message) as [|fc fcs IH]; [reflexivity|].
  cbn [map filter fst]. destruct (isCorrect (args fc)); cbn; now rewrite IH.
Qed.

Lemma message_earns_stars_witness :
  reachable connected_hook
  /\ exact_integers
       (stars DEFAULT_PROGRESS)
       (stars DEFAULT_PROGRESS
        + Z.of_nat (correct_answers (evaluations evaluation_message)))
  /\ stars (deliver (emitted connected_hook
                       (step connected_hook (Message 0 evaluation_message)))
                    DEFAULT_PROGRESS)
     = stars DEFAULT_PROGRESS
       + (if onEvaluationRef connected_hook
          then Z.of_nat (correct_answers (evaluations evaluation_message))
          else 0).
Proof.
  assert (H : reachable connected_hook).
  { reached_by [CallConnect 0; MicrophoneAnswers 0 1 true;
                Open first_session; SessionSettles 3 true]. }
  assert (E : exact_integers
                (stars DEFAULT_PROGRESS)
                (stars DEFAULT_PROGRESS
                 + Z.of_nat
                     (correct_answers (evaluations evaluation_message))))
    by (unfold exact_integers; cbn; lia).
  split; [exact H|]. split; [exact E|].
  exact (message_earns_stars connected_hook 0 evaluation_message
           DEFAULT_PROGRESS H E).
Defined.


(** ** Nothing is sent on a session after its close *)

Lemma closed_in_app (p : nat) (tr tr' : list Effect) :
  closed_in p (tr ++ tr') = closed_in p tr || closed_in p tr'.
Proof. apply existsb_app. Qed.

Lemma sent_in_app (p : nat) (tr tr' : list Effect) :
  sent_in p (tr ++ tr') = sent_in p tr || sent_in p tr'.
Proof. apply existsb_app. Qed.

Lemma silent_app (p : nat) (tr tr' : list Effect) :
  silent_after_close p (tr ++ tr')
  <-> silent_after_close p tr /\ silent_after_close p tr'
      /\ (closed_in p tr = true -> sent_in p tr' = false).
Proof.
  induction tr as [|e tr IH].
  - cbn. intuition discriminate.
  - cbn [app silent_after_close]. rewrite IH.
    change (closed_in p (e :: tr)) with (is_close_of p e || closed_in p tr).
    change (existsb (is_send_on p) (tr ++ tr')) with (sent_in p (tr ++ tr')).
    change (existsb (is_send_on p) tr) with (sent_in p tr).
    rewrite sent_in_app.
    destruct (is_close_of p e), (closed_in p tr), (sent_in p tr),
      (sent_in p tr'); cbn; intuition discriminate.
Qed.

Lemma silent_filter (p : nat) (tr : list Effect) :
  silent_after_close p (filter is_session_effect tr)
  <-> silent_after_close p tr.
Proof.
  assert (S : forall l, sent_in p (filter is_session_effect l) = sent_in p l).
  { unfold sent_in. induction l as [|e l IH]; [reflexivity|].
    cbn [filter]. destruct e; cbn; rewrite ?IH; reflexivity. }
  induction tr as [|e tr IH]; [reflexivity|].
  cbn [filter silent_after_close].
  change (existsb (is_send_on p) tr) with (sent_in p tr). rewrite <- S.
  destruct e; cbn [is_session_effect session_of silent_after_close is_close_of];
    rewrite IH; try reflexivity; intuition discriminate.
Qed.

Lemma filter_session_reactions (jobs : list (nat * Reaction)) :
  filter is_session_effect (map reaction_effect jobs)
  = map reaction_effect jobs.
Proof.
  induction jobs as [|[q r] jobs IH]; [reflexivity|].
  cbn [map filter]. rewrite IH. now destruct r.
Qed.

Lemma is_close_of_reaction (p q : nat) (r : Reaction) :
  is_close_of p (reaction_effect (q, r)) = Nat.eqb q p && negb (is_send r).
Proof. destruct r; cbn; now rewrite ?andb_true_r, ?andb_false_r. Qed.

Lemma is_send_on_reaction (p q : nat) (r : Reaction) :
  is_send_on p (reaction_effect (q, r)) = Nat.eqb q p && is_send r.
Proof. destruct r; cbn; now rewrite ?andb_true_r, ?andb_false_r. Qed.

(** What waits on one promise does nothing on another session. *)
Lemma waiting_elsewhere (p q : nat) (jobs : list (nat * Reaction)) :
  p <> q ->
  closed_in p (map reaction_effect (filter (waits_on q) jobs)) = false
  /\ sent_in p (map reaction_effect (filter (waits_on q) jobs)) = false.
Proof.
  intros Hne. induction jobs as [|[q' r] jobs [IH1 IH2]]; [now split|].
  cbn [filter]. change (waits_on q (q', r)) with (Nat.eqb q' q).
  destruct (Nat.eqb_spec q' q) as [->|]; [|now split].
  cbn [map]. unfold closed_in, sent_in in *. cbn [existsb].
  rewrite is_close_of_reaction, is_send_on_reaction, IH1, IH2.
  destruct (Nat.eqb_spec q p); [congruence|]. now split.
Qed.

Lemma closed_in_waiting (p : nat) (jobs : list (nat * Reaction)) :
  closed_in p (map reaction_effect (filter (waits_on p) jobs)) = true
  -> In (p, CloseSession) jobs.
Proof.
  induction jobs as [|[q r] jobs IH]; [discriminate|].
  cbn [filter]. change (waits_on p (q, r)) with (Nat.eqb q p).
  destruct (Nat.eqb_spec q p) as [->|].
  - cbn [map]. unfold closed_in in *. cbn [existsb].
    rewrite is_close_of_reaction, Nat.eqb_refl.
    destruct r; cbn; intros H; try (right; now apply IH); now left.
  - intros H. right. auto.
Qed.

Lemma filter_waits_on_others (p q : nat) (jobs : list (nat * Reaction)) :
  p <> q ->
  filter (waits_on p) (filter (fun job => negb (waits_on q job)) jobs)
  = filter (waits_on p) jobs.
Proof.
  intros Hne. induction jobs as [|[q' r] jobs IH]; [reflexivity|].
  cbn [filter]. change (waits_on q (q', r)) with (Nat.eqb q' q).
  destruct (Nat.eqb_spec q' q) as [->|]; cbn [negb filter].
  - change (waits_on p (q, r)) with (Nat.eqb q p).
    destruct (Nat.eqb_spec q p); [congruence|exact IH].
  - now rewrite IH.
Qed.

Lemma filter_waits_on_same (p : nat) (jobs : list (nat * Reaction)) :
  filter (waits_on p) (filter (fun job => negb (waits_on p job)) jobs) = [].
Proof.
  induction jobs as [|job jobs IH]; [reflexivity|].
  cbn [filter]. destruct (waits_on p job) eqn:E; cbn [negb filter];
    [exact IH|now rewrite E].
Qed.

(** The invariant looks at six fields of the world only, and at the trace
    only through what it did to sessions. *)
Lemma consistent_same_comm (w w' : World) :
  sessionPromiseRef w' = sessionPromiseRef w ->
  promises w' = promises w ->
  reactions w' = reactions w ->
  comm w' = comm w ->
  (fresh w <= fresh w')%nat ->
  sessions_consistent w -> sessions_consistent w'.
Proof.
  intros Hr Hp Hre Hc Hf [I1 I2 I3 I4 I5 I6 I7 I8].
  constructor; unfold waiting_on in *; rewrite ?Hr, ?Hp, ?Hre, ?Hc.
  - exact I1.
  - exact I2.
  - exact I3.
  - exact I4.
  - exact I5.
  - intros p H. specialize (I6 p H). lia.
  - intros q H. specialize (I7 q H). lia.
  - intros q r H. specialize (I8 q r H). lia.
Qed.


Lemma keeps_consistent_refl (w : World) : keeps_consistent w w.
Proof. intros H. exact H. Qed.

Lemma keeps_consistent_trans (w1 w2 w3 : World) :
  keeps_consistent w1 w2 -> keeps_consistent w2 w3 -> keeps_consistent w1 w3.
Proof. unfold keeps_consistent. auto. Qed.

Lemma consistent_emit (e : Effect) (w : World) :
  is_session_effect e = false ->
  keeps_consistent w (set_trace (trace w ++ [e]) w).
Proof.
  intros He. unfold keeps_consistent. apply consistent_same_comm; try reflexivity.
  unfold comm. cbn [trace microtasks set_trace].
  rewrite filter_app. cbn [filter]. rewrite He. now rewrite app_nil_r.
Qed.

Lemma consistent_drain (w : World) : keeps_consistent w (drain w).
Proof.
  rewrite drain_eq. unfold keeps_consistent. apply consistent_same_comm; try reflexivity.
  unfold comm. cbn [trace microtasks set_trace set_microtasks map].
  now rewrite filter_app, filter_session_reactions, app_nil_r.
Qed.

Lemma closed_in_single (p : nat) (job : nat * Reaction) :
  closed_in p [reaction_effect job]
  = Nat.eqb (fst job) p && negb (is_send (snd job)).
Proof.
  destruct job as [q r]. unfold closed_in. cbn [existsb fst snd].
  now rewrite is_close_of_reaction, orb_false_r.
Qed.

Lemma sent_in_single (p : nat) (job : nat * Reaction) :
  sent_in p [reaction_effect job]
  = Nat.eqb (fst job) p && is_send (snd job).
Proof.
  destruct job as [q r]. unfold sent_in. cbn [existsb fst snd].
  now rewrite is_send_on_reaction, orb_false_r.
Qed.

Lemma silent_single (p : nat) (e : Effect) : silent_after_close p [e].
Proof. cbn. auto. Qed.

(** One more thing to do on session [q] is safe when it is the close, or
    when [q] has not been closed. *)
Lemma silent_snoc (p q : nat) (r : Reaction) (tr : list Effect) :
  silent_after_close p tr ->
  (is_send r = true -> closed_in q tr = false) ->
  silent_after_close p (tr ++ [reaction_effect (q, r)]).
Proof.
  intros Hs Hc. apply silent_app. split; [exact Hs|].
  split; [apply silent_single|].
  intros Hcl. rewrite sent_in_single. cbn [fst snd].
  destruct (Nat.eqb_spec q p) as [->|]; [|reflexivity].
  destruct (is_send r); [|reflexivity].
  rewrite Hc in Hcl by reflexivity. discriminate.
Qed.

(** A job queued for the session in the ref, its promise being
    fulfilled; the ref stays or is cleared. *)
Lemma consistent_queue (p : nat) (r : Reaction) (w w' : World) :
  sessionPromiseRef w = Some p ->
  settled p (promises w) = Some true ->
  (sessionPromiseRef w' = None
   \/ (sessionPromiseRef w' = Some p /\ is_send r = true)) ->
  promises w' = promises w ->
  reactions w' = reactions w ->
  comm w' = comm w ++ [reaction_effect (p, r)] ->
  fresh w' = fresh w ->
  keeps_consistent w w'.
Proof.
  intros Hp Hs Href Hpr Hre Hc Hf [I1 I2 I3 I4 I5 I6 I7 I8].
  destruct (I2 p Hp) as [Hopen Hnotwaiting].
  assert (Hcl : forall q, closed_in q (comm w') = true ->
                          closed_in q (comm w) = true
                          \/ (q = p /\ is_send r = false)).
  { intros q. rewrite Hc, closed_in_app, closed_in_single. cbn [fst snd].
    destruct (closed_in q (comm w)); [now left|].
    destruct (Nat.eqb_spec p q) as [->|]; [|discriminate].
    destruct (is_send r); [discriminate|]. now right. }
  constructor; unfold waiting_on; rewrite ?Hpr, ?Hre, ?Hf.
  - intros q. rewrite Hc. apply silent_snoc; [apply I1|]. now intros _.
  - intros q Hq.
    destruct Href as [Href|[Href Hr]]; [congruence|].
    assert (q = p) as -> by congruence. split; [|exact Hnotwaiting].
    destruct (closed_in p (comm w')) eqn:E; [|reflexivity].
    destruct (Hcl p E) as [H|[_ H]]; congruence.
  - exact I3.
  - exact I4.
  - intros q Hq. destruct (Hcl q Hq) as [H|[-> _]]; [now apply I5|exact Hs].
  - intros q Hq.
    destruct Href as [Href|[Href _]]; [congruence|].
    assert (q = p) as -> by congruence. now apply I6.
  - intros q Hq. destruct (Hcl q Hq) as [H|[-> _]]; [now apply I7|].
    now apply I6.
  - exact I8.
Qed.

(** A job made to wait on the promise in the ref, still pending. *)
Lemma consistent_wait (p : nat) (r : Reaction) (w w' : World) :
  sessionPromiseRef w = Some p ->
  settled p (promises w) = None ->
  (sessionPromiseRef w' = None
   \/ (sessionPromiseRef w' = Some p /\ is_send r = true)) ->
  promises w' = promises w ->
  reactions w' = reactions w ++ [(p, r)] ->
  comm w' = comm w ->
  fresh w' = fresh w ->
  keeps_consistent w w'.
Proof.
  intros Hp Hs Href Hpr Hre Hc Hf [I1 I2 I3 I4 I5 I6 I7 I8].
  destruct (I2 p Hp) as [Hopen Hnotwaiting].
  constructor; unfold waiting_on; rewrite ?Hpr, ?Hre, ?Hf, ?Hc.
  - exact I1.
  - intros q Hq.
    destruct Href as [Href|[Href Hr]]; [congruence|].
    assert (q = p) as -> by congruence. split; [exact Hopen|].
    intros Hin. apply in_app_or in Hin.
    destruct Hin as [Hin|[Hin|[]]]; [contradiction|].
    injection Hin as ->. discriminate Hr.
  - intros q r' Hin. apply in_app_or in Hin.
    destruct Hin as [Hin|[Hin|[]]]; [now apply (I3 q r')|].
    injection Hin as <- <-. exact Hs.
  - intros q. rewrite filter_app, map_app. cbn [filter].
    change (waits_on q (p, r)) with (Nat.eqb p q).
    destruct (Nat.eqb_spec p q) as [<-|]; [|rewrite app_nil_r; apply I4].
    apply silent_snoc; [apply I4|]. intros _.
    destruct (closed_in p (map reaction_effect
                             (filter (waits_on p) (reactions w)))) eqn:E;
      [|reflexivity].
    apply closed_in_waiting in E. contradiction.
  - exact I5.
  - intros q Hq.
    destruct Href as [Href|[Href _]]; [congruence|].
    assert (q = p) as -> by congruence. now apply I6.
  - exact I7.
  - intros q r' Hin. apply in_app_or in Hin.
    destruct Hin as [Hin|[Hin|[]]]; [now apply (I8 q r')|].
    injection Hin as <- <-. now apply I6.
Qed.

Lemma comm_queue (job : nat * Reaction) (w : World) :
  comm (set_microtasks (microtasks w ++ [job]) w)
  = comm w ++ [reaction_effect job].
Proof. unfold comm. cbn. now rewrite map_app, app_assoc. Qed.

Lemma consistent_forget_ref (w : World) :
  keeps_consistent w (set_sessionPromiseRef None w).
Proof.
  intros [I1 I2 I3 I4 I5 I6 I7 I8].
  constructor; try assumption; intros q Hq; discriminate Hq.
Qed.

(** [sessionPromiseRef.current.then(session => session.send...(...))] *)
Lemma consistent_send_leaf (r : Reaction) :
  is_send r = true ->
  respects keeps_consistent
    (when_ref sessionPromiseRef (fun p => promise_then p r)).
Proof.
  intros Hr w. unfold when_ref, bind, read, promise_then, write, ret.
  cbn [snd fst]. destruct (sessionPromiseRef w) as [p|] eqn:Hp;
    cbn [snd]; [|apply keeps_consistent_refl].
  destruct (settled p (promises w)) as [[|]|] eqn:Hs.
  - apply (consistent_queue p r); try reflexivity; try assumption.
    + right. now split.
    + apply comm_queue.
  - apply keeps_consistent_refl.
  - apply (consistent_wait p r); try reflexivity; try assumption.
    right. now split.
Qed.

(** The first statement of [disconnect]: the close is handed to the
    promise and the ref is cleared. *)
Lemma consistent_close_leaf :
  respects keeps_consistent
    (when_ref sessionPromiseRef (fun p =>
       promise_then p CloseSession;;
       write (set_sessionPromiseRef None))).
Proof.
  intros w. unfold when_ref, bind, read, promise_then, write, ret.
  cbn [snd fst]. destruct (sessionPromiseRef w) as [p|] eqn:Hp;
    cbn [snd]; [|apply keeps_consistent_refl].
  destruct (settled p (promises w)) as [[|]|] eqn:Hs.
  - apply (consistent_queue p CloseSession); try reflexivity;
      try assumption.
    + now left.
    + apply (comm_queue (p, CloseSession)).
  - apply consistent_forget_ref.
  - apply (consistent_wait p CloseSession); try reflexivity;
      try assumption.
    now left.
Qed.

Lemma consistent_emit_leaf (e : Effect) :
  is_session_effect e = false -> respects keeps_consistent (emit e).
Proof. intros He w. now apply consistent_emit. Qed.

Ltac consistent_frame :=
  cbv beta;
  repeat match goal with
         | |- context [match ?x with _ => _ end] => destruct x
         end;
  unfold keeps_consistent; apply consistent_same_comm;
  solve [reflexivity | cbn; lia].

Ltac consistent_walk :=
  repeat first
    [ apply consistent_send_leaf; reflexivity
    | apply consistent_close_leaf
    | apply consistent_emit_leaf; reflexivity
    | apply (respects_bind _ keeps_consistent_trans); [|intros ?]
    | apply (respects_try_catch _ keeps_consistent_trans); [|intros ?]
    | apply (respects_forEach _ keeps_consistent_refl
                              keeps_consistent_trans); intros ?
    | apply (respects_ret _ keeps_consistent_refl)
    | apply (respects_throw _ keeps_consistent_refl)
    | apply (respects_read _ keeps_consistent_refl)
    | apply respects_new_object; intros ?; solve [consistent_frame]
    | apply respects_write; intros ?; solve [consistent_frame]
    | match goal with
      | |- respects _ (if ?b then _ else _) => destruct b
      | |- respects _ (match ?o with Some _ => _ | None => _ end) =>
          destruct o
      end
    | progress unfold when_ref at 1
    | progress unfold newAudioContext, source_stop,
        setConnectionState, setIsMimiSpeaking, setVolume, getUserMedia,
        connect_catch, disconnect, reportEvaluation, handleToolCalls,
        handleInterruption ].

Lemma consistent_disconnect : respects keeps_consistent disconnect.
Proof. consistent_walk. Qed.

Lemma consistent_connect_before_await (now : Q) :
  respects keeps_consistent (connect_before_await now).
Proof. unfold connect_before_await. consistent_walk. Qed.

Lemma consistent_onopen (cl : Closure) :
  respects keeps_consistent (onopen cl).
Proof. unfold onopen. consistent_walk. Qed.

Lemma consistent_onaudioprocess (sqrt : Q -> Q) (inputData : list Q) :
  respects keeps_consistent (onaudioprocess sqrt inputData).
Proof. unfold onaudioprocess. consistent_walk. Qed.

Lemma consistent_onmessage_before_await (now : Q)
    (message : LiveServerMessage) :
  respects keeps_consistent (onmessage_before_await now message).
Proof. unfold onmessage_before_await. consistent_walk. Qed.

Lemma consistent_onmessage_after_await (cl : Closure) (now : Q)
    (message : LiveServerMessage) (audioBuffer : Outcome (list Q)) :
  respects keeps_consistent
           (onmessage_after_await cl now message audioBuffer).
Proof.
  unfold onmessage_after_await. destruct audioBuffer; consistent_walk.
Qed.

Lemma consistent_onended (source : nat) :
  respects keeps_consistent (onended source).
Proof. unfold onended. consistent_walk. Qed.

Lemma consistent_onclose : respects keeps_consistent onclose.
Proof. unfold onclose. consistent_walk. Qed.

Lemma consistent_onerror : respects keeps_consistent onerror.
Proof. unfold onerror. consistent_walk. Qed.

(** The promise of a new session is an object nobody has met: nothing has
    been closed on it, nothing waits on it. *)
Lemma consistent_new_session (w w' : World) :
  sessionPromiseRef w' = Some (S (fresh w)) ->
  promises w' = promises w ->
  reactions w' = reactions w ->
  comm w' = comm w ->
  fresh w' = S (S (fresh w)) ->
  keeps_consistent w w'.
Proof.
  intros Href Hpr Hre Hc Hf [I1 I2 I3 I4 I5 I6 I7 I8].
  constructor; unfold waiting_on; rewrite ?Hpr, ?Hre, ?Hf, ?Hc;
    try assumption.
  - intros q Hq. assert (q = S (fresh w)) as -> by congruence. split.
    + destruct (closed_in (S (fresh w)) (comm w)) eqn:E; [|reflexivity].
      apply I7 in E. lia.
    + intros Hin. apply I8 in Hin. lia.
  - intros q Hq. assert (q = S (fresh w)) as -> by congruence. lia.
  - intros q Hq. apply I7 in Hq. lia.
  - intros q r Hin. apply I8 in Hin. lia.
Qed.

Lemma consistent_connect_after_await (inputCtx outputCtx : nat)
    (granted : bool) :
  respects keeps_consistent (connect_after_await inputCtx outputCtx granted).
Proof.
  destruct granted.
  - intros w. destruct_world w.
    apply consistent_new_session; try reflexivity.
    unfold comm. cbn. rewrite !filter_app. cbn. now rewrite !app_nil_r.
  - unfold connect_after_await. consistent_walk.
Qed.

Lemma settled_other (p q : nat) (ok : bool) (l : list (nat * bool)) :
  q <> p -> settled q ((p, ok) :: l) = settled q l.
Proof.
  intros Hne. cbn [settled].
  destruct (Nat.eqb_spec p q); [congruence|reflexivity].
Qed.

Lemma settled_same (p : nat) (ok : bool) (l : list (nat * bool)) :
  settled p ((p, ok) :: l) = Some ok.
Proof. cbn [settled]. now rewrite Nat.eqb_refl. Qed.

Lemma In_others (p q : nat) (r : Reaction) (jobs : list (nat * Reaction)) :
  In (q, r) (filter (fun job => negb (waits_on p job)) jobs) ->
  q <> p /\ In (q, r) jobs.
Proof.
  intros H. apply filter_In in H. destruct H as [Hin Hw]. split; [|exact Hin].
  change (waits_on p (q, r)) with (Nat.eqb q p) in Hw.
  destruct (Nat.eqb_spec q p); [discriminate|assumption].
Qed.

(** The promise [p] settles: what waited on it is done on the session, in
    the order it was asked for, or dropped. *)
Lemma consistent_settle (p : nat) (ok : bool) (w : World) :
  keeps_consistent w (settle p ok w).
Proof.
  unfold settle. destruct (settled p (promises w)) eqn:Hs;
    [apply keeps_consistent_refl|].
  cbv zeta. intros [I1 I2 I3 I4 I5 I6 I7 I8].
  assert (Hothers : forall q,
             map reaction_effect
               (filter (waits_on q)
                  (filter (fun job => negb (waits_on p job)) (reactions w)))
             = if Nat.eqb q p then [] else waiting_on q w).
  { intros q. destruct (Nat.eqb_spec q p) as [->|Hne].
    - now rewrite filter_waits_on_same.
    - now rewrite filter_waits_on_others. }
  assert (Hsilent : forall q,
             silent_after_close q
               (map reaction_effect
                  (filter (waits_on q)
                     (filter (fun job => negb (waits_on p job))
                             (reactions w))))).
  { intros q. rewrite Hothers. destruct (Nat.eqb q p); [exact I|apply I4]. }
  assert (Hpending : forall q r,
             In (q, r) (filter (fun job => negb (waits_on p job))
                               (reactions w)) ->
             settled q ((p, ok) :: promises w) = None).
  { intros q r Hin. apply In_others in Hin. destruct Hin as [Hne Hin].
    rewrite settled_other by assumption. now apply (I3 q r). }
  assert (Hknown : forall q r,
             In (q, r) (filter (fun job => negb (waits_on p job))
                               (reactions w)) -> (q < fresh w)%nat).
  { intros q r Hin. apply In_others in Hin. now apply (I8 q r). }
  assert (Hnoclose : forall q, sessionPromiseRef w = Some q ->
             ~ In (q, CloseSession)
                  (filter (fun job => negb (waits_on p job)) (reactions w))).
  { intros q Hq Hin. apply In_others in Hin. now apply (I2 q Hq). }
  destruct ok.
  - rewrite drain_eq.
    set (w' := set_trace _ _).
    assert (Hc : comm w' = comm w ++ waiting_on p w).
    { unfold comm, waiting_on. cbn.
      rewrite filter_app, filter_session_reactions, map_app, app_nil_r.
      now rewrite app_assoc. }
    assert (Hcl : forall q, closed_in q (comm w') = true ->
                            closed_in q (comm w) = true
                            \/ (q = p /\ In (p, CloseSession) (reactions w))).
    { intros q. rewrite Hc, closed_in_app.
      destruct (closed_in q (comm w)); [now left|]. cbn [orb].
      destruct (Nat.eq_dec q p) as [->|Hne].
      - intros H. right. split; [reflexivity|].
        now apply closed_in_waiting.
      - unfold waiting_on.
        destruct (waiting_elsewhere q p (reactions w) Hne) as [H _].
        rewrite H. discriminate. }
    constructor; unfold waiting_on; fold w'.
    + intros q. rewrite Hc. apply silent_app.
      split; [apply I1|]. split.
      * destruct (Nat.eq_dec q p) as [->|Hne]; [apply I4|].
        unfold waiting_on. clear -Hne.
        induction (reactions w) as [|[q' r] jobs IH]; [exact I|].
        cbn [filter]. change (waits_on p (q', r)) with (Nat.eqb q' p).
        destruct (Nat.eqb_spec q' p) as [->|]; [|exact IH].
        cbn [map silent_after_close]. split; [|exact IH].
        rewrite is_close_of_reaction.
        destruct (Nat.eqb_spec p q); [congruence|discriminate].
      * intros Hq. apply I5 in Hq.
        destruct (Nat.eq_dec q p) as [->|Hne]; [congruence|].
        now destruct (waiting_elsewhere q p (reactions w) Hne).
    + intros q Hq. split; [|now apply Hnoclose].
      destruct (closed_in q (comm w')) eqn:E; [|reflexivity].
      destruct (Hcl q E) as [H|[-> H]].
      * destruct (I2 q Hq). congruence.
      * now destruct (I2 p Hq).
    + exact Hpending.
    + exact Hsilent.
    + intros q Hq. change (promises w') with ((p, true) :: promises w).
      destruct (Hcl q Hq) as [H|[-> _]]; [|apply settled_same].
      destruct (Nat.eq_dec q p) as [->|Hne]; [apply settled_same|].
      rewrite settled_other by assumption. now apply I5.
    + exact I6.
    + intros q Hq. change (fresh w') with (fresh w).
      destruct (Hcl q Hq) as [H|[-> H]]; [now apply I7|now apply (I8 p _ H)].
    + exact Hknown.
  - constructor; unfold waiting_on.
    + exact I1.
    + intros q Hq. split; [now apply (I2 q Hq)|now apply Hnoclose].
    + exact Hpending.
    + exact Hsilent.
    + intros q Hq. change (closed_in q (comm w) = true) in Hq.
      cbn [promises set_reactions set_promises].
      pose proof (I5 q Hq) as H.
      destruct (Nat.eq_dec q p) as [->|Hne]; [congruence|].
      now rewrite settled_other.
    + exact I6.
    + exact I7.
    + exact Hknown.
Qed.

Lemma consistent_init (onEvaluation : bool) :
  sessions_consistent (init onEvaluation).
Proof.
  constructor; cbn; try discriminate; try contradiction; auto.
Qed.

Lemma consistent_step (w : World) (e : Event) : keeps_consistent w (step w e).
Proof.
  destruct e; cbn [step];
    try (apply (respects_after _ keeps_consistent_trans);
         [|exact consistent_drain]).
  - apply consistent_connect_before_await.
  - apply consistent_connect_after_await.
  - apply consistent_disconnect.
  - apply consistent_settle.
  - apply consistent_onopen.
  - apply consistent_onaudioprocess.
  - apply consistent_onmessage_before_await.
  - apply consistent_onmessage_after_await.
  - apply consistent_onended.
  - apply consistent_onclose.
  - apply consistent_onerror.
  - unfold keeps_consistent. apply consistent_same_comm; reflexivity.
Qed.

Lemma reachable_consistent (w : World) :
  reachable w -> sessions_consistent w.
Proof.
  intros [cb [events ->]]. unfold run.
  generalize (consistent_init cb). generalize (init cb).
  induction events as [|e events IH]; intros w H; [exact H|].
  cbn [fold_left]. apply IH. now apply consistent_step.
Qed.

(** X18. Whatever happens to the hook, in whatever order (calls of
    [connect] and [disconnect], session promises settling either way, the
    callbacks of any session, old ones included), nothing is sent on a
    session after [close()] has been called on it: in the trace of a
    reachable state no [sendRealtimeInput] or [sendToolResponse] on a
    session comes after a [close()] of that session. *)
Theorem nothing_sent_after_close (w : World) (p : nat) :
  reachable w -> silent_after_close p (trace w).
Proof.
  intros Hw. apply reachable_consistent in Hw.
  pose proof (silent w Hw p) as H. unfold comm in H.
  apply silent_app in H. destruct H as [H _].
  apply silent_filter. exact H.
Qed.

Lemma nothing_sent_after_close_witness :
  reachable hook_after_disconnect
  /\ closed_in 3 (trace hook_after_disconnect) = true
  /\ silent_after_close 3 (trace hook_after_disconnect).
Proof.
  assert (H : reachable hook_after_disconnect).
  { exists true. eexists. reflexivity. }
  split; [exact H|]. split; [reflexivity|].
  exact (nothing_sent_after_close hook_after_disconnect 3 H).
Defined.
